(** * migrate: a shallow embedding of the schema-migration engine

    The development follows the Go package [migrate]: part files are parsed
    into up/down SQL bodies ([NewPart]), migration directories into
    [Migration]s ([NewMigration]), a directory tree into an [Instance]
    ([NewInstance]), and [Goto]/[Latest] plan and apply migrations inside one
    transaction.  Go's [int] is taken to be 64 bits wide and is modelled as
    [Z] with the wrap-around written out; Go strings are byte strings and are
    modelled as [string].

    The file has three parts: the embedding of the package and of the library
    routines it calls; the vocabulary in which the properties are stated;
    and the lemmas and theorems. *)

From Stdlib Require Import ZArith Ascii String List Lia.
From stdpp Require Import base option list gmap strings sorting.

Local Open Scope Z_scope.

(** ** Go's [int] *)

Module GoInt.

Definition min_int : Z := - 2 ^ 63.
Definition max_int : Z := 2 ^ 63 - 1.

(** Two's complement wrap-around of a mathematical result into [int]. *)
Definition wrap (z : Z) : Z := (z + 2 ^ 63) mod 2 ^ 64 - 2 ^ 63.

(** [is_int z]: [z] is a value an [int] variable can hold. *)
Definition is_int (z : Z) : Prop := min_int <= z <= max_int.

Definition is_intb (z : Z) : bool := (min_int <=? z) && (z <=? max_int).

Definition add (a b : Z) : Z := wrap (a + b).
Definition sub (a b : Z) : Z := wrap (a - b).

End GoInt.

(** ** Byte strings and the library routines the parser relies on *)

Module GoString.

Definition byte_is (n : N) (c : ascii) : bool := N.eqb (N_of_ascii c) n.

Fixpoint rev_append (s acc : string) : string :=
  match s with
  | EmptyString => acc
  | String c r => rev_append r (String c acc)
  end.

Definition rev (s : string) : string := rev_append s EmptyString.

Fixpoint drop (n : nat) (s : string) : string :=
  match n, s with
  | O, _ => s
  | S n', String _ r => drop n' r
  | S _, EmptyString => EmptyString
  end.

Definition len (s : string) : Z := Z.of_nat (String.length s).

(** [strip_prefix p s]: the remainder of [s] after the prefix [p], if any. *)
Fixpoint strip_prefix (p s : string) : option string :=
  match p, s with
  | EmptyString, _ => Some s
  | String a p', String b s' => if Ascii.eqb a b then strip_prefix p' s' else None
  | String _ _, EmptyString => None
  end.

(** The table [asciiSpace] of package strings: tab, LF, VT, FF, CR, space. *)
Definition asciiSpace (c : ascii) : bool :=
  let n := N_of_ascii c in
  ((9 <=? n)%N && (n <=? 13)%N) || (n =? 32)%N.

(** Byte length of the white-space rune that starts [s], 0 when [s] does not
    start with one.  [unicode.IsSpace] holds of the six ASCII characters
    above, U+0085, U+00A0, U+1680, U+2000..U+200A, U+2028, U+2029, U+202F,
    U+205F and U+3000; the patterns are their UTF-8 encodings. *)
Definition space_rune_len (s : string) : nat :=
  match s with
  | EmptyString => O
  | String c r =>
    if asciiSpace c then 1%nat
    else match N_of_ascii c, r with
         | 194%N, String d _ =>
           if byte_is 133 d || byte_is 160 d then 2%nat else O
         | 225%N, String d (String e _) =>
           if byte_is 154 d && byte_is 128 e then 3%nat else O
         | 226%N, String d (String e _) =>
           let x := N_of_ascii e in
           if byte_is 128 d
              && (((128 <=? x)%N && (x <=? 138)%N)
                  || (x =? 168)%N || (x =? 169)%N || (x =? 175)%N)
           then 3%nat
           else if byte_is 129 d && (x =? 159)%N then 3%nat else O
         | 227%N, String d (String e _) =>
           if byte_is 128 d && byte_is 128 e then 3%nat else O
         | _, _ => O
         end
  end.

(** The same test on the reversed string: the rune that ends the original. *)
Definition space_rune_len_rev (s : string) : nat :=
  match s with
  | EmptyString => O
  | String c r =>
    if asciiSpace c then 1%nat
    else match r with
         | String d r' =>
           if byte_is 194 d && (byte_is 133 c || byte_is 160 c) then 2%nat
           else match r' with
                | String e _ =>
                  if Nat.eqb (space_rune_len (String e (String d (String c EmptyString)))) 3
                  then 3%nat else O
                | EmptyString => O
                end
         | EmptyString => O
         end
  end.

Fixpoint trim_with (rune_len : string -> nat) (fuel : nat) (s : string) : string :=
  match fuel with
  | O => s
  | S fuel' =>
    match rune_len s with
    | O => s
    | k => trim_with rune_len fuel' (drop k s)
    end
  end.

Definition TrimLeftSpace (s : string) : string :=
  trim_with space_rune_len (String.length s) s.

Definition TrimRightSpace (s : string) : string :=
  rev (trim_with space_rune_len_rev (String.length s) (rev s)).

(** [strings.TrimSpace]: all leading and trailing Unicode white space removed. *)
Definition TrimSpace (s : string) : string := TrimRightSpace (TrimLeftSpace s).

(** [filepath.Split] with the separator '/': directory part (with its
    trailing slash) and file part. *)
Fixpoint Split (path : string) : string * string :=
  match path with
  | EmptyString => (EmptyString, EmptyString)
  | String c r =>
    let '(dir, file) := Split r in
    if byte_is 47 c then (String c dir, file)
    else match dir with
         | EmptyString => (EmptyString, String c file)
         | _ => (String c dir, file)
         end
  end.

(** [filepath.Ext]: the suffix beginning at the final dot of the final
    element of the path, empty when there is no dot. *)
Fixpoint Ext_go (s ext : string) (found : bool) : string :=
  match s with
  | EmptyString => if found then ext else EmptyString
  | String c r =>
    if byte_is 47 c then Ext_go r EmptyString false
    else if byte_is 46 c then Ext_go r (String c EmptyString) true
    else Ext_go r (if found then ext +:+ String c EmptyString else ext) found
  end.

Definition Ext (path : string) : string := Ext_go path EmptyString false.

End GoString.

(** ** Errors and panics of the package

    Every [fmt.Errorf]/[NewFatalf] site of the package is one constructor
    carrying the arguments of its format string; the two exported error types
    [ErrNoVersion] and [ErrNoMigrations] keep their names.  Errors handed back
    by collaborators (os, bufio reads, database/sql, metadb) are [External]. *)

Inductive NumErrKind := ErrSyntax | ErrRange.

Inductive NoMigrationsMsg :=
| AlreadyOnVersion (version : Z)      (* Goto: database is already on version '%d' *)
| IsTheLatest (currentVersion : Z).   (* Latest: database version %d is the latest *)

Inductive error :=
| External (msg : string)
| ErrTooLong                                   (* bufio.ErrTooLong *)
| NumError (num : string) (kind : NumErrKind)  (* *strconv.NumError of Atoi *)
| PartNoMarker (path : string)
| PartNoUpward (path : string)
| PartNoDownward (path : string)
| MigrationBadName (name : string)
| MigrationVersionZero
| MigrationNoParts (root : string)
| InstanceNilDB
| InstanceMetadb (err : error)
| InstanceNoMigrations (root : string)
| InstanceGap (lastVersion key : Z)
| ErrNoVersion (i version : Z)                 (* migration for version i, on the way to version, does not exist *)
| ErrNoMigrations (msg : NoMigrationsMsg)
| GotoBegin (err : error)
| GotoApplying                                 (* got error while applying migrations *)
| GotoCommit (err : error)
| GotoSetVersion (err : error).

Inductive panic :=
| PanicClose (err : error)        (* closing a part file failed *)
| PanicVersion (err : error)      (* ledger read failed other than ErrNoEntry *)
| PanicTypeAssertion.             (* res.(int) on a value that is no int *)

Inductive outcome (A : Type) :=
| Returns (a : A)
| Panics (p : panic).
Arguments Returns {A} a.
Arguments Panics {A} p.

(** ** The file system collaborator *)

Record File := {
  file_bytes : string;               (* the bytes delivered before EOF or a read error *)
  file_read_err : option error;      (* the error that ended reading, if not EOF *)
  file_close_err : option error      (* what Close returns *)
}.

Record DirEntry := { entry_Name : string; entry_IsDir : bool }.

Record Filesystem := {
  fs_Open : string -> error + File;                 (* os.Open *)
  fs_ReadDir : string -> error + list DirEntry;     (* ioutil.ReadDir *)
  fs_Clean : string -> string                       (* filepath.Clean / path.Clean *)
}.

(** [path.Join] of two elements: empty elements are ignored, the result is
    cleaned, and the join of nothing is the empty string. *)
Definition Join (fs : Filesystem) (a b : string) : string :=
  match a, b with
  | EmptyString, EmptyString => EmptyString
  | EmptyString, _ => fs_Clean fs b
  | _, EmptyString => fs_Clean fs a
  | _, _ => fs_Clean fs (a +:+ "/" +:+ b)
  end.

(** ** bufio.Scanner with the default split function ScanLines *)

Module Scanner.

Definition MaxScanTokenSize : Z := 64 * 1024.

(** The lines of a byte string: split at LF, without a final empty line. *)
Fixpoint raw_lines (s : string) : list string :=
  match s with
  | EmptyString => []
  | String c r =>
    if GoString.byte_is 10 c then EmptyString :: raw_lines r
    else match raw_lines r with
         | [] => [String c EmptyString]
         | l :: ls => String c l :: ls
         end
  end.

(** [dropCR]: one trailing carriage return is removed. *)
Definition dropCR (line : string) : string :=
  match GoString.rev line with
  | String c r => if GoString.byte_is 13 c then GoString.rev r else line
  | EmptyString => line
  end.

(** The tokens [Scan] yields, and whether scanning stopped on a line that
    does not fit the buffer: one of [MaxScanTokenSize] bytes or more, its
    LF not counted. *)
Fixpoint tokens (lines : list string) : list string * bool :=
  match lines with
  | [] => ([], false)
  | l :: ls =>
    if MaxScanTokenSize <=? GoString.len l then ([], true)
    else let '(ts, long) := tokens ls in (dropCR l :: ts, long)
  end.

(** All [scanner.Text()] values in order, then [scanner.Err()]. *)
Definition scan (f : File) : list string * option error :=
  let '(ts, long) := tokens (raw_lines (file_bytes f)) in
  (ts, if long then Some ErrTooLong else file_read_err f).

End Scanner.

(** ** Parts *)

Record Part := { Part_Name : string; Part_Path : string; Up : string; Down : string }.

(** [regexPartDir.FindStringSubmatch] for the pattern
    ^--\s?@migrate/(up|down)$ : the whole match and the group, or nil.
    The class \s of Go's regexp is tab, LF, FF, CR and space. *)
Definition regex_space (c : ascii) : bool :=
  let n := N_of_ascii c in
  (n =? 9)%N || (n =? 10)%N || (n =? 12)%N || (n =? 13)%N || (n =? 32)%N.

Definition regexPartDir_FindStringSubmatch (text : string) : list string :=
  match GoString.strip_prefix "--" text with
  | None => []
  | Some r =>
    let r' := match r with
              | String c r1 => if regex_space c then r1 else r
              | EmptyString => r
              end in
    match GoString.strip_prefix "@migrate/" r' with
    | None => []
    | Some g =>
      if String.eqb g "up" || String.eqb g "down" then [text; g] else []
    end
  end.

(** The three locals of the scan loop of [NewPart]. *)
Record ScanState := { upSQL : string; downSQL : string; which : Z }.

Definition scan_init : ScanState := {| upSQL := ""; downSQL := ""; which := -1 |}.

(** One iteration of the loop body: [inl] is the early return. *)
Definition scan_step (path : string) (st : ScanState) (line : string) : error + ScanState :=
  let text := GoString.TrimSpace line in
  let matches := regexPartDir_FindStringSubmatch text in
  if (1 <? length matches)%nat then
    let group := nth 1 matches EmptyString in
    inr {| upSQL := upSQL st; downSQL := downSQL st;
           which := if String.eqb group "up" then 0
                    else if String.eqb group "down" then 1
                    else which st |}
  else if String.eqb text "" then inr st
  else match which st with
       | 0 => inr {| upSQL := upSQL st +:+ text; downSQL := downSQL st; which := which st |}
       | 1 => inr {| upSQL := upSQL st; downSQL := downSQL st +:+ text; which := which st |}
       | _ => inl (PartNoMarker path)
       end.

Fixpoint scan_loop (path : string) (lines : list string) (st : ScanState) : error + ScanState :=
  match lines with
  | [] => inr st
  | line :: rest =>
    match scan_step path st line with
    | inl err => inl err
    | inr st' => scan_loop path rest st'
    end
  end.

(** What [NewPart] does between opening the file and the deferred close. *)
Definition parse_part (path : string) (f : File) : error + Part :=
  let '(lines, scan_err) := Scanner.scan f in
  match scan_loop path lines scan_init with
  | inl err => inl err
  | inr st =>
    match scan_err with
    | Some err => inl err
    | None =>
      if which st =? -1 then inl (PartNoMarker path)
      else if String.eqb (upSQL st) "" then inl (PartNoUpward path)
      else if String.eqb (downSQL st) "" then inl (PartNoDownward path)
      else inr {| Part_Name := snd (GoString.Split path); Part_Path := path;
                  Up := upSQL st; Down := downSQL st |}
    end
  end.

Definition NewPart (fs : Filesystem) (path : string) : outcome (error + Part) :=
  match fs_Open fs path with
  | inl err => Returns (inl err)
  | inr f =>
    let result := parse_part path f in
    match file_close_err f with
    | Some err => Panics (PanicClose err)
    | None => Returns result
    end
  end.

(** The older [Migration.AddPart] (migrate.go) runs the same loop on the
    file and, instead of returning the part, appends it to the parts it is
    given; on an error the parts stay as they were. *)
Definition AddPart (fs : Filesystem) (parts : list Part) (path : string)
    : outcome (option error * list Part) :=
  match NewPart fs path with
  | Panics p => Panics p
  | Returns (inl err) => Returns (Some err, parts)
  | Returns (inr part) => Returns (None, parts ++ [part])
  end.

(** ** strconv.Atoi *)

Module Strconv.

Definition digit (c : ascii) : option Z :=
  let n := N_of_ascii c in
  if (48 <=? n)%N && (n <=? 57)%N then Some (Z.of_N n - 48) else None.

Definition maxUint64 : Z := 2 ^ 64 - 1.

(** The digit loop of [ParseUint] in base 10 with 64 bits: a byte that is
    no digit is a syntax error, a value beyond [maxUint64] a range error,
    whichever comes first from the left. *)
Fixpoint parse_digits (s : string) (n : Z) : NumErrKind + Z :=
  match s with
  | EmptyString => inr n
  | String c r =>
    match digit c with
    | None => inl ErrSyntax
    | Some d =>
      if maxUint64 / 10 + 1 <=? n then inl ErrRange
      else if maxUint64 <? n * 10 + d then inl ErrRange
      else parse_digits r (n * 10 + d)
    end
  end.

Definition ParseUint (s : string) : NumErrKind + Z :=
  match s with
  | EmptyString => inl ErrSyntax
  | _ => parse_digits s 0
  end.

(** [ParseInt(s, 10, 0)]: an optional sign, then [ParseUint]; the magnitude
    must fit a signed 64-bit integer. *)
Definition ParseInt (s : string) : NumErrKind + Z :=
  match s with
  | EmptyString => inl ErrSyntax
  | String c r =>
    let neg := GoString.byte_is 45 c in
    let digits := if GoString.byte_is 43 c || neg then r else s in
    match ParseUint digits with
    | inl kind => inl kind
    | inr un =>
      if negb neg && (2 ^ 63 <=? un) then inl ErrRange
      else if neg && (2 ^ 63 <? un) then inl ErrRange
      else inr (if neg then - un else un)
    end
  end.

Definition Atoi (s : string) : error + Z :=
  match ParseInt s with
  | inl kind => inl (NumError s kind)
  | inr n => inr n
  end.

End Strconv.

(** ** Migrations *)

Record Migration := {
  Migration_Name : string;
  Migration_Path : string;
  Version : Z;
  Parts : list Part
}.

(** The loop of [NewMigration] over the directory listing. *)
Fixpoint collect_parts (fs : Filesystem) (root : string) (files : list DirEntry)
    (parts : list Part) : outcome (error + list Part) :=
  match files with
  | [] => Returns (inr parts)
  | file :: rest =>
    if negb (entry_IsDir file) && String.eqb (GoString.Ext (entry_Name file)) ".sql" then
      match NewPart fs (Join fs root (entry_Name file)) with
      | Panics p => Panics p
      | Returns (inl err) => Returns (inl err)
      | Returns (inr part) => collect_parts fs root rest (parts ++ [part])
      end
    else collect_parts fs root rest parts
  end.

(** The name check and version parse that open [NewMigration]. *)
Definition parse_version (name : string) : error + Z :=
  if (GoString.len name <? 9) || negb (String.eqb (String.substring 0 8 name) "version_")
  then inl (MigrationBadName name)
  else match Strconv.Atoi (GoString.drop 8 name) with
       | inl err => inl err
       | inr version =>
         if version =? 0 then inl MigrationVersionZero else inr version
       end.

Definition NewMigration (fs : Filesystem) (root : string) : outcome (error + Migration) :=
  let name := snd (GoString.Split root) in
  match parse_version name with
  | inl err => Returns (inl err)
  | inr version =>
    let root := fs_Clean fs root in
    match fs_ReadDir fs root with
    | inl err => Returns (inl err)
    | inr files =>
      match collect_parts fs root files [] with
      | Panics p => Panics p
      | Returns (inl err) => Returns (inl err)
      | Returns (inr parts) =>
        if (length parts =? 0)%nat then Returns (inl (MigrationNoParts root))
        else Returns (inr {| Migration_Name := name; Migration_Path := root;
                             Version := version; Parts := parts |})
      end
    end
  end.

(** ** The database, transaction and ledger collaborators

    [DB] is the state of the database a *sql.DB handle points to (the ledger
    of metadb lives in it), [Tx] the state of an open transaction. *)

Inductive MetaGet :=
| GetInt (v : Z)            (* an entry holding an int *)
| GetOther                  (* an entry holding a value of another type *)
| GetNoEntry                (* *metadb.ErrNoEntry *)
| GetError (err : error).   (* any other error *)

Record Driver (DB Tx : Type) := {
  db_Begin : DB -> error + Tx;
  tx_Exec : Tx -> string -> Tx * option error;
  tx_Commit : Tx -> DB * option error;
  tx_Rollback : Tx -> DB;
  meta_New : DB -> DB * option error;             (* metadb.NewInstance *)
  meta_Get : DB -> string -> MetaGet;
  meta_Set : DB -> string -> Z -> DB * option error
}.
Arguments db_Begin {DB Tx} _ _.
Arguments tx_Exec {DB Tx} _ _ _.
Arguments tx_Commit {DB Tx} _ _.
Arguments tx_Rollback {DB Tx} _ _.
Arguments meta_New {DB Tx} _ _.
Arguments meta_Get {DB Tx} _ _ _.
Arguments meta_Set {DB Tx} _ _ _ _.

(** What is written to [Instance.Output], one constructor per format string. *)
Inductive Message :=
| MsgPreparing (jump : Z)
| MsgBeginning (direction : string) (from to : Z)
| MsgFailed (name : string) (err : error)
| MsgApplied (name : string)
| MsgPartsFailed (failed applied : Z)
| MsgSuccessParts (applied : Z)
| MsgSuccess.                      (* the elapsed time it prints is left out *)

(** The calls made on the collaborators that can change the database, in
    order, with whether they succeeded. *)
Inductive Call :=
| CallBegin (ok : bool)
| CallExec (sql : string) (ok : bool)
| CallCommit (ok : bool)
| CallRollback
| CallSet (key : string) (value : Z) (ok : bool).

(** The world around an [Instance]: the state behind its handles, what was
    written to Output, and the log of calls. *)
Record World (S : Type) := {
  state : S;
  output : list Message;
  calls : list Call
}.
Arguments state {S} _.
Arguments output {S} _.
Arguments calls {S} _.

Definition is_ok (e : option error) : bool :=
  match e with None => true | Some _ => false end.

Definition emit {S} (m : Message) (w : World S) : World S :=
  {| state := state w; output := output w ++ [m]; calls := calls w |}.

(** ** Instances

    Of the fields of the Go struct only the migration map is data: the
    database handle and the metadb instance stand for the state threaded
    through the calls, and what goes to Output is collected in the world. *)

Record Instance := { migrations : gmap Z Migration }.

(** The loop of [NewInstance] over the directory listing. *)
Fixpoint discover (fs : Filesystem) (root : string) (directories : list DirEntry)
    (migs : gmap Z Migration) : outcome (error + gmap Z Migration) :=
  match directories with
  | [] => Returns (inr migs)
  | directory :: rest =>
    if negb (entry_IsDir directory) then discover fs root rest migs
    else match NewMigration fs (Join fs root (entry_Name directory)) with
         | Panics p => Panics p
         | Returns (inl err) => Returns (inl err)
         | Returns (inr migration) =>
           discover fs root rest (<[Version migration := migration]> migs)
         end
  end.

(** The keys of the migration map after [sort.Ints]. *)
Definition sorted_keys (migs : gmap Z Migration) : list Z :=
  merge_sort Z.le (map fst (map_to_list migs)).

(** The gap check: [lastVersion] counts the keys seen so far. *)
Fixpoint check_gaps (keys : list Z) (lastVersion : Z) : option error :=
  match keys with
  | [] => None
  | key :: rest =>
    if negb (key =? GoInt.add lastVersion 1) then Some (InstanceGap lastVersion key)
    else check_gaps rest (GoInt.add lastVersion 1)
  end.

Definition NewInstance {DB Tx} (drv : Driver DB Tx) (fs : Filesystem)
    (db : option DB) (root : string) : option DB * outcome (error + Instance) :=
  match db with
  | None => (None, Returns (inl InstanceNilDB))
  | Some st =>
    let '(st', meta_err) := meta_New drv st in
    (Some st',
     match meta_err with
     | Some err => Returns (inl (InstanceMetadb err))
     | None =>
       match fs_ReadDir fs root with
       | inl err => Returns (inl err)
       | inr directories =>
         match discover fs root directories ∅ with
         | Panics p => Panics p
         | Returns (inl err) => Returns (inl err)
         | Returns (inr migs) =>
           if (size migs =? 0)%nat then Returns (inl (InstanceNoMigrations root))
           else match check_gaps (sorted_keys migs) 0 with
                | Some err => Returns (inl err)
                | None => Returns (inr {| migrations := migs |})
                end
         end
       end
     end)
  end.

(** [Instance.Version] (named [Version_of], [Version] being the field of
    [Migration]): the int stored under "migrateVersion", 0 when there is no
    entry; any other failure panics. *)
Definition Version_of {DB Tx} (drv : Driver DB Tx) (st : DB) : outcome Z :=
  match meta_Get drv st "migrateVersion" with
  | GetError err => Panics (PanicVersion err)
  | GetNoEntry => Returns 0
  | GetInt v => Returns v
  | GetOther => Panics PanicTypeAssertion
  end.

(** The closure [addToTodo] of [Goto]. *)
Definition addToTodo (inst : Instance) (version : Z) (todo : list Migration) (i : Z)
    : error + list Migration :=
  match migrations inst !! i with
  | None => inl (ErrNoVersion i version)
  | Some midway => inr (todo ++ [midway])
  end.

(** for i := currentVersion + 1; i <= version; i++ ; a loop on machine
    integers, so it runs on fuel: [None] is "not finished yet". *)
Fixpoint todo_up (fuel : nat) (inst : Instance) (version i : Z) (todo : list Migration)
    : option (error + list Migration) :=
  match fuel with
  | O => None
  | S fuel' =>
    if i <=? version then
      match addToTodo inst version todo i with
      | inl err => Some (inl err)
      | inr todo' => todo_up fuel' inst version (GoInt.add i 1) todo'
      end
    else Some (inr todo)
  end.

(** for i := currentVersion - 1; i > version; i-- *)
Fixpoint todo_down (fuel : nat) (inst : Instance) (version i : Z) (todo : list Migration)
    : option (error + list Migration) :=
  match fuel with
  | O => None
  | S fuel' =>
    if i >? version then
      match addToTodo inst version todo i with
      | inl err => Some (inl err)
      | inr todo' => todo_down fuel' inst version (GoInt.sub i 1) todo'
      end
    else Some (inr todo)
  end.

(** The plan of [Goto]: the todo list, the direction and the jump, or the
    error returned before anything is begun. *)
Definition plan (fuel : nat) (inst : Instance) (currentVersion version : Z)
    : option (error + list Migration * string * Z) :=
  if version >? currentVersion then
    match todo_up fuel inst version (GoInt.add currentVersion 1) [] with
    | None => None
    | Some (inl err) => Some (inl err)
    | Some (inr todo) => Some (inr (todo, "up", GoInt.sub version currentVersion))
    end
  else if version <? currentVersion then
    match todo_down fuel inst version (GoInt.sub currentVersion 1) [] with
    | None => None
    | Some (inl err) => Some (inl err)
    | Some (inr todo) => Some (inr (todo, "down", GoInt.sub currentVersion version))
    end
  else Some (inl (ErrNoMigrations (AlreadyOnVersion version))).

(** The inner loop of [Goto] over the parts of one migration; [key] is the
    index of the first part of [parts]. *)
Fixpoint apply_parts {DB Tx} (drv : Driver DB Tx) (direction : string)
    (parts : list Part) (key : Z) (applied failed : list Z) (w : World Tx)
    : list Z * list Z * World Tx :=
  match parts with
  | [] => (applied, failed, w)
  | part :: rest =>
    let sql := if String.eqb direction "up" then Up part else Down part in
    let '(tx, err) := tx_Exec drv (state w) sql in
    let w1 := {| state := tx; output := output w;
                 calls := calls w ++ [CallExec sql (is_ok err)] |} in
    match err with
    | Some e =>
      apply_parts drv direction rest (key + 1) applied (failed ++ [key])
        (emit (MsgFailed (Part_Name part) e) w1)
    | None =>
      apply_parts drv direction rest (key + 1) (applied ++ [key]) failed
        (emit (MsgApplied (Part_Name part)) w1)
    end
  end.

(** The outer loop of [Goto] over the todo list: [inl] when every migration
    applied, [inr] when the transaction was rolled back. *)
Fixpoint apply_todo {DB Tx} (drv : Driver DB Tx) (direction : string)
    (currentVersion : Z) (todo : list Migration) (key : Z) (w : World Tx)
    : World Tx + World DB :=
  match todo with
  | [] => inl w
  | migration :: rest =>
    let w1 := emit (MsgBeginning direction (GoInt.add currentVersion key)
                      (Version migration)) w in
    let '(applied, failed, w2) := apply_parts drv direction (Parts migration) 0 [] [] w1 in
    if (0 <? length failed)%nat then
      let w3 := emit (MsgPartsFailed (Z.of_nat (length failed))
                        (Z.of_nat (length applied))) w2 in
      inr {| state := tx_Rollback drv (state w3); output := output w3;
             calls := calls w3 ++ [CallRollback] |}
    else
      apply_todo drv direction currentVersion rest (key + 1)
        (emit (MsgSuccessParts (Z.of_nat (length applied))) w2)
  end.

(** [Instance.Goto].  The result is the world after the call and what the
    call returned: [Returns None] is a nil error. *)
Definition Goto {DB Tx} (drv : Driver DB Tx) (fuel : nat) (inst : Instance)
    (version : Z) (w : World DB) : option (World DB * outcome (option error)) :=
  match Version_of drv (state w) with
  | Panics p => Some (w, Panics p)
  | Returns currentVersion =>
    match plan fuel inst currentVersion version with
    | None => None
    | Some (inl err) => Some (w, Returns (Some err))
    | Some (inr (todo, direction, jump)) =>
      let w1 := if jump >? 1 then emit (MsgPreparing jump) w else w in
      match db_Begin drv (state w1) with
      | inl err =>
        Some ({| state := state w1; output := output w1;
                 calls := calls w1 ++ [CallBegin false] |},
              Returns (Some (GotoBegin err)))
      | inr tx =>
        let w2 := {| state := tx; output := output w1;
                     calls := calls w1 ++ [CallBegin true] |} in
        match apply_todo drv direction currentVersion todo 0 w2 with
        | inr w3 => Some (w3, Returns (Some GotoApplying))
        | inl w3 =>
          let '(db, commit_err) := tx_Commit drv (state w3) in
          let w4 := {| state := db; output := output w3;
                       calls := calls w3 ++ [CallCommit (is_ok commit_err)] |} in
          match commit_err with
          | Some err => Some (w4, Returns (Some (GotoCommit err)))
          | None =>
            let '(db', set_err) := meta_Set drv (state w4) "migrateVersion" version in
            let w5 := {| state := db'; output := output w4;
                         calls := calls w4
                                  ++ [CallSet "migrateVersion" version (is_ok set_err)] |} in
            match set_err with
            | Some err => Some (w5, Returns (Some (GotoSetVersion err)))
            | None => Some (emit MsgSuccess w5, Returns None)
            end
          end
        end
      end
    end
  end.

(** The loop of [Latest] that finds the highest [Version] field. *)
Definition latest_version (inst : Instance) : Z :=
  map_fold (fun _ migration latestVersion =>
              if Version migration >? latestVersion then Version migration
              else latestVersion) 0 (migrations inst).

(** [Instance.Latest]. *)
Definition Latest {DB Tx} (drv : Driver DB Tx) (fuel : nat) (inst : Instance)
    (w : World DB) : option (World DB * outcome (option error)) :=
  match Version_of drv (state w) with
  | Panics p => Some (w, Panics p)
  | Returns currentVersion =>
    let latestVersion := latest_version inst in
    if latestVersion <=? currentVersion
    then Some (w, Returns (Some (ErrNoMigrations (IsTheLatest currentVersion))))
    else Goto drv fuel inst latestVersion w
  end.

(** ** A reference implementation of the collaborators

    An in-memory database that remembers the statements of committed
    transactions and keeps the ledger as a map, and a file system given by
    two tables.  The examples and witnesses below run on them. *)

Module Sim.

Record DB := { executed : list string; ledger : gmap string Z }.
Record Tx := { base : DB; pending : list string }.

Definition empty_db : DB := {| executed := []; ledger := ∅ |}.

(** [bad] tells which statements the database refuses; the three options
    are the errors of Begin, Commit and Set, if they are to fail. *)
Definition driver (bad : string -> bool) (begin_err commit_err set_err : option error)
    : Driver DB Tx :=
  {| db_Begin := fun db =>
       match begin_err with
       | Some e => inl e
       | None => inr {| base := db; pending := [] |}
       end;
     tx_Exec := fun tx sql =>
       if bad sql then (tx, Some (External "statement refused"))
       else ({| base := base tx; pending := pending tx ++ [sql] |}, None);
     tx_Commit := fun tx =>
       match commit_err with
       | Some e => (base tx, Some e)
       | None => ({| executed := executed (base tx) ++ pending tx;
                     ledger := ledger (base tx) |}, None)
       end;
     tx_Rollback := fun tx => base tx;
     meta_New := fun db => (db, None);
     meta_Get := fun db key =>
       match ledger db !! key with
       | Some v => GetInt v
       | None => GetNoEntry
       end;
     meta_Set := fun db key v =>
       match set_err with
       | Some e => (db, Some e)
       | None => ({| executed := executed db; ledger := <[key := v]> (ledger db) |}, None)
       end |}.

Definition good_driver : Driver DB Tx := driver (fun _ => false) None None None.

Definition world (db : DB) : World DB := {| state := db; output := []; calls := [] |}.

Fixpoint assoc {A} (key : string) (table : list (string * A)) : option A :=
  match table with
  | [] => None
  | (k, v) :: rest => if String.eqb k key then Some v else assoc key rest
  end.

(** A file system of already clean paths. *)
Definition fs (dirs : list (string * list DirEntry)) (files : list (string * string))
    : Filesystem :=
  {| fs_Open := fun path =>
       match assoc path files with
       | Some bytes => inr {| file_bytes := bytes; file_read_err := None;
                              file_close_err := None |}
       | None => inl (External "open: no such file")
       end;
     fs_ReadDir := fun path =>
       match assoc path dirs with
       | Some entries => inr entries
       | None => inl (External "readdir: no such directory")
       end;
     fs_Clean := fun path => path |}.

Definition LF : string := String (ascii_of_nat 10) EmptyString.

(** A part file with one up statement and one down statement. *)
Definition part_file (up down : string) : string :=
  "-- @migrate/up" +:+ LF +:+ up +:+ LF +:+ LF +:+ "-- @migrate/down" +:+ LF +:+ down +:+ LF.

Definition dir (name : string) : DirEntry := {| entry_Name := name; entry_IsDir := true |}.
Definition file (name : string) : DirEntry := {| entry_Name := name; entry_IsDir := false |}.

(** The tree migrate/version_1..3, each with one part test.sql. *)
Definition working : Filesystem :=
  fs [("migrate", [dir "version_1"; dir "version_2"; dir "version_3"]);
      ("migrate/version_1", [file "test.sql"]);
      ("migrate/version_2", [file "test.sql"]);
      ("migrate/version_3", [file "test.sql"])]
     [("migrate/version_1/test.sql", part_file "U1" "D1");
      ("migrate/version_2/test.sql", part_file "U2" "D2");
      ("migrate/version_3/test.sql", part_file "U3" "D3")].

(** The tree with versions 1, 2 and 4. *)
Definition gap : Filesystem :=
  fs [("migrate", [dir "version_1"; dir "version_2"; dir "version_4"]);
      ("migrate/version_1", [file "test.sql"]);
      ("migrate/version_2", [file "test.sql"]);
      ("migrate/version_4", [file "test.sql"])]
     [("migrate/version_1/test.sql", part_file "U1" "D1");
      ("migrate/version_2/test.sql", part_file "U2" "D2");
      ("migrate/version_4/test.sql", part_file "U4" "D4")].

Definition part (name up down : string) : Part :=
  {| Part_Name := name; Part_Path := name; Up := up; Down := down |}.

Definition migration (version : Z) (parts : list Part) : Migration :=
  {| Migration_Name := "version"; Migration_Path := "version";
     Version := version; Parts := parts |}.

(** Three migrations built by hand; the second has two parts. *)
Definition m1 : Migration := migration 1 [part "a.sql" "U1" "D1"].
Definition m2 : Migration := migration 2 [part "a.sql" "U2a" "D2a"; part "b.sql" "U2b" "D2b"].
Definition m3 : Migration := migration 3 [part "a.sql" "U3" "D3"].

Definition inst3 : Instance :=
  {| migrations := <[1 := m1]> (<[2 := m2]> (<[3 := m3]> ∅)) |}.

(** An instance that lacks version 2. *)
Definition inst13 : Instance :=
  {| migrations := <[1 := m1]> (<[3 := m3]> ∅) |}.

(** A fresh world whose ledger holds the version [v]. *)
Definition world_at (v : Z) : World DB :=
  world {| executed := []; ledger := <["migrateVersion" := v]> ∅ |}.

End Sim.

(** * Specifications *)

(** ** Step lists as the specification words them

    The versions a call has to cross, and their migrations looked up one by
    one by exact key; the first missing one is the error. *)

Fixpoint countup (i : Z) (n : nat) : list Z :=
  match n with
  | O => []
  | S n' => i :: countup (i + 1) n'
  end.

Fixpoint countdown (i : Z) (n : nat) : list Z :=
  match n with
  | O => []
  | S n' => i :: countdown (i - 1) n'
  end.

(** current+1, current+2, ..., target *)
Definition up_versions (current target : Z) : list Z :=
  countup (current + 1) (Z.to_nat (target - current)).

(** current-1, current-2, ..., target+1 *)
Definition down_versions (current target : Z) : list Z :=
  countdown (current - 1) (Z.to_nat (current - 1 - target)).

(** The migrations of [versions], in this order, or ErrNoVersion for the
    first version the instance has no migration for. *)
Fixpoint lookup_all (inst : Instance) (target : Z) (versions : list Z)
    : error + list Migration :=
  match versions with
  | [] => inr []
  | v :: rest =>
    match migrations inst !! v with
    | None => inl (ErrNoVersion v target)
    | Some m =>
      match lookup_all inst target rest with
      | inl err => inl err
      | inr ms => inr (m :: ms)
      end
    end
  end.

(** A lookup continued after the migrations [todo] already found. *)
Definition extend (todo : list Migration) (r : error + list Migration)
    : error + list Migration :=
  match r with
  | inl err => inl err
  | inr ms => inr (todo ++ ms)
  end.

(** A lookup made into a plan. *)
Definition planned (direction : string) (jump : Z) (r : error + list Migration)
    : error + list Migration * string * Z :=
  match r with
  | inl err => inl err
  | inr todo => inr (todo, direction, jump)
  end.

(** ** Executing parts

    [part_results] pairs every part with what Exec returned for its body,
    in the order the statements are sent. *)

Definition body (direction : string) (p : Part) : string :=
  if String.eqb direction "up" then Up p else Down p.

Fixpoint part_results {DB Tx} (drv : Driver DB Tx) (direction : string)
    (parts : list Part) (tx : Tx) : list (Part * option error) * Tx :=
  match parts with
  | [] => ([], tx)
  | p :: rest =>
    let '(tx', e) := tx_Exec drv tx (body direction p) in
    let '(rs, tx'') := part_results drv direction rest tx' in
    ((p, e) :: rs, tx'')
  end.

Definition result_call (direction : string) (r : Part * option error) : Call :=
  CallExec (body direction (fst r)) (is_ok (snd r)).

Definition result_msg (r : Part * option error) : Message :=
  match snd r with
  | Some err => MsgFailed (Part_Name (fst r)) err
  | None => MsgApplied (Part_Name (fst r))
  end.

Definition succeeded (r : Part * option error) : Prop := snd r = None.
Definition failed (r : Part * option error) : Prop := snd r <> None.

Definition all_parts (todo : list Migration) : list Part := concat (map Parts todo).

(** The statements among a list of calls, in order. *)
Definition statements (cs : list Call) : list string :=
  omap (fun c => match c with CallExec sql _ => Some sql | _ => None end) cs.

(** The calls made since the world [w]. *)
Definition new_calls {S S'} (w : World S) (w' : World S') : list Call :=
  drop (length (calls w)) (calls w').

(** What the outer loop leaves behind when every migration applied. *)
Definition todo_applied {DB Tx} (drv : Driver DB Tx) (direction : string)
    (todo : list Migration) (w w' : World Tx) : Prop :=
  let rs := fst (part_results drv direction (all_parts todo) (state w)) in
  Forall succeeded rs /\
  state w' = snd (part_results drv direction (all_parts todo) (state w)) /\
  calls w' = calls w ++ map (result_call direction) rs /\
  exists out, output w' = output w ++ out.

(** What it leaves behind when the migration [m] had a failed part: the
    migrations before [m] applied, every part of [m] was sent, then the
    transaction was rolled back; [post] was never touched. *)
Definition todo_rolled_back {DB Tx} (drv : Driver DB Tx) (direction : string)
    (todo : list Migration) (w : World Tx) (w' : World DB) : Prop :=
  exists pre m post,
    todo = pre ++ m :: post /\
    let rs_pre := fst (part_results drv direction (all_parts pre) (state w)) in
    let tx1 := snd (part_results drv direction (all_parts pre) (state w)) in
    let rs_m := fst (part_results drv direction (Parts m) tx1) in
    let tx2 := snd (part_results drv direction (Parts m) tx1) in
    Forall succeeded rs_pre /\
    Exists failed rs_m /\
    state w' = tx_Rollback drv tx2 /\
    calls w' = calls w ++ map (result_call direction) (rs_pre ++ rs_m) ++ [CallRollback] /\
    exists out, output w' = output w ++ out /\
      forall p err, (p, Some err) ∈ rs_m -> MsgFailed (Part_Name p) err ∈ out.


(** The assumption under which a failed call leaves the database as it was:
    a transaction remembers the state it began from, a rollback and a failed
    commit restore it. *)
Record Transactional {DB Tx} (drv : Driver DB Tx) (origin : Tx -> DB) : Prop := {
  origin_begin : forall db tx, db_Begin drv db = inr tx -> origin tx = db;
  origin_exec : forall tx sql, origin (fst (tx_Exec drv tx sql)) = origin tx;
  origin_commit_failed : forall tx db err,
    tx_Commit drv tx = (db, Some err) -> db = origin tx;
  origin_rollback : forall tx, tx_Rollback drv tx = origin tx
}.

(** The ledger keeps what was set. *)
Definition LedgerKeeps {DB Tx} (drv : Driver DB Tx) : Prop :=
  forall db key v db', meta_Set drv db key v = (db', None) ->
    meta_Get drv db' key = GetInt v.

(** The five ways a call of [Goto] can end once its plan [todo] is made. *)
Inductive goto_run {DB Tx} (drv : Driver DB Tx) (direction : string)
    (todo : list Migration) (version : Z) (w w' : World DB)
    : outcome (option error) -> Prop :=
| run_begin_failed err :
    db_Begin drv (state w) = inl err ->
    state w' = state w ->
    calls w' = calls w ++ [CallBegin false] ->
    goto_run drv direction todo version w w' (Returns (Some (GotoBegin err)))
| run_rolled_back tx pre m post out :
    db_Begin drv (state w) = inr tx ->
    todo = pre ++ m :: post ->
    Forall succeeded (part_results drv direction (all_parts pre) tx).1 ->
    Exists failed
      (part_results drv direction (Parts m)
         (part_results drv direction (all_parts pre) tx).2).1 ->
    state w' = tx_Rollback drv
                 (part_results drv direction (Parts m)
                    (part_results drv direction (all_parts pre) tx).2).2 ->
    calls w' = calls w ++ [CallBegin true]
               ++ map (result_call direction)
                    ((part_results drv direction (all_parts pre) tx).1
                     ++ (part_results drv direction (Parts m)
                           (part_results drv direction (all_parts pre) tx).2).1)
               ++ [CallRollback] ->
    output w' = output w ++ out ->
    (forall p err,
        (p, Some err) ∈ (part_results drv direction (Parts m)
                           (part_results drv direction (all_parts pre) tx).2).1 ->
        MsgFailed (Part_Name p) err ∈ out) ->
    goto_run drv direction todo version w w' (Returns (Some GotoApplying))
| run_commit_failed tx db err :
    db_Begin drv (state w) = inr tx ->
    Forall succeeded (part_results drv direction (all_parts todo) tx).1 ->
    tx_Commit drv (part_results drv direction (all_parts todo) tx).2 = (db, Some err) ->
    state w' = db ->
    calls w' = calls w ++ [CallBegin true]
               ++ map (result_call direction)
                    (part_results drv direction (all_parts todo) tx).1
               ++ [CallCommit false] ->
    goto_run drv direction todo version w w' (Returns (Some (GotoCommit err)))
| run_set_failed tx db db' err :
    db_Begin drv (state w) = inr tx ->
    Forall succeeded (part_results drv direction (all_parts todo) tx).1 ->
    tx_Commit drv (part_results drv direction (all_parts todo) tx).2 = (db, None) ->
    meta_Set drv db "migrateVersion" version = (db', Some err) ->
    state w' = db' ->
    calls w' = calls w ++ [CallBegin true]
               ++ map (result_call direction)
                    (part_results drv direction (all_parts todo) tx).1
               ++ [CallCommit true; CallSet "migrateVersion" version false] ->
    goto_run drv direction todo version w w' (Returns (Some (GotoSetVersion err)))
| run_success tx db db' :
    db_Begin drv (state w) = inr tx ->
    Forall succeeded (part_results drv direction (all_parts todo) tx).1 ->
    tx_Commit drv (part_results drv direction (all_parts todo) tx).2 = (db, None) ->
    meta_Set drv db "migrateVersion" version = (db', None) ->
    state w' = db' ->
    calls w' = calls w ++ [CallBegin true]
               ++ map (result_call direction)
                    (part_results drv direction (all_parts todo) tx).1
               ++ [CallCommit true; CallSet "migrateVersion" version true] ->
    goto_run drv direction todo version w w' (Returns None).

(** The down-bodies of a step list: migration after migration, and within
    each migration its parts in their stored order. *)
Definition down_bodies (todo : list Migration) : list string :=
  concat (map (fun m => map Down (Parts m)) todo).

(** The up-bodies, likewise. *)
Definition up_bodies (todo : list Migration) : list string :=
  concat (map (fun m => map Up (Parts m)) todo).

(** ** Directory names as the specification words them *)

(** The value of a string of decimal digits read after [acc]. *)
Fixpoint digits_value (s : string) (acc : Z) : option Z :=
  match s with
  | EmptyString => Some acc
  | String c r =>
    match Strconv.digit c with
    | Some d => digits_value r (acc * 10 + d)
    | None => None
    end
  end.

Definition nonempty_digits (s : string) : option Z :=
  match s with
  | EmptyString => None
  | _ => digits_value s 0
  end.

(** An integer literal as Atoi reads it: an optional sign, '+' or '-',
    then one or more decimal digits; its value is not bounded here. *)
Definition literal_value (s : string) : option Z :=
  match s with
  | EmptyString => None
  | String c r =>
    if GoString.byte_is 43 c then nonempty_digits r
    else if GoString.byte_is 45 c then Z.opp <$> nonempty_digits r
    else nonempty_digits s
  end.

(** The literal of the claim: no leading '+' (and no white space, which is
    no digit): an optional '-', then one or more decimal digits. *)
Definition plain_literal (s : string) : bool :=
  match s with
  | EmptyString => false
  | String c r =>
    if GoString.byte_is 45 c then bool_decide (is_Some (nonempty_digits r))
    else bool_decide (is_Some (nonempty_digits s))
  end.

(** The directory name of the claim: version_ followed by such a literal. *)
Definition plain_version_name (name : string) : bool :=
  match GoString.strip_prefix "version_" name with
  | Some lit => plain_literal lit
  | None => false
  end.

(** ** Part files as the specification words them *)

Definition TargetUp : Z := 0.
Definition TargetDown : Z := 1.

(** The target a line selects when, trimmed, it is a direction marker. *)
Definition marker (line : string) : option Z :=
  match regexPartDir_FindStringSubmatch (GoString.TrimSpace line) with
  | [_; group] =>
    if String.eqb group "up" then Some TargetUp
    else if String.eqb group "down" then Some TargetDown
    else None
  | _ => None
  end.

(** A content line: no marker, and not blank once trimmed. *)
Definition is_content (line : string) : bool :=
  match marker line with
  | Some _ => false
  | None => negb (String.eqb (GoString.TrimSpace line) "")
  end.

(** The active target at line [i]: what the last marker before it selected. *)
Definition active (lines : list string) (i : nat) : option Z :=
  last (omap marker (take i lines)).

(** What a line adds to the body of [target]: itself, trimmed, when it is a
    content line under that target, and nothing otherwise. *)
Definition contribution (target : Z) (act : option Z) (line : string) : string :=
  if is_content line && bool_decide (act = Some target)
  then GoString.TrimSpace line else EmptyString.

Fixpoint concat_strings (l : list string) : string :=
  match l with
  | [] => EmptyString
  | s :: r => s +:+ concat_strings r
  end.

(** The body of [target]: the contributions of all lines, one after the
    other with nothing in between. *)
Definition accumulated (target : Z) (lines : list string) : string :=
  concat_strings (imap (fun i line => contribution target (active lines i) line) lines).

(** The same from the line after [pre] on. *)
Definition contributions (target : Z) (pre suf : list string) : list string :=
  imap (fun i line =>
          contribution target (last (omap marker (pre ++ take i suf))) line) suf.

(** The part file of the marker-accumulation example. *)
Definition marker_example : string :=
  "-- @migrate/up" +:+ Sim.LF +:+ "A" +:+ Sim.LF +:+ "B" +:+ Sim.LF
  +:+ "-- @migrate/down" +:+ Sim.LF +:+ "C".

(** * Further vocabulary *)

(** ** What a run writes to Output *)

(** The lines for one migration all of whose parts applied. *)
Definition applied_messages (direction : string) (from : Z) (m : Migration)
    : list Message :=
  MsgBeginning direction from (Version m)
  :: map (fun p => MsgApplied (Part_Name p)) (Parts m)
  ++ [MsgSuccessParts (Z.of_nat (length (Parts m)))].

(** The lines for the migrations [todo], the first of which has index [key]
    in the plan. *)
Definition todo_messages (direction : string) (currentVersion key : Z)
    (todo : list Migration) : list Message :=
  concat (imap (fun k m =>
                  applied_messages direction
                    (GoInt.add currentVersion (key + Z.of_nat k)) m) todo).

Definition preparing (jump : Z) : list Message :=
  if jump >? 1 then [MsgPreparing jump] else [].

(** How many of the results succeeded ([ok = true]) or failed. *)
Definition part_count (ok : bool) (rs : list (Part * option error)) : Z :=
  Z.of_nat (length (List.filter (fun r => Bool.eqb (is_ok (snd r)) ok) rs)).

(** ** The calls of one Goto

    [after_begin version all_ok cs]: [cs] is what may follow a successful
    Begin: statements, then a Rollback when one of them failed, or a Commit
    when none did, and after a successful Commit the Set of [version]. *)
Fixpoint after_begin (version : Z) (all_ok : bool) (cs : list Call) : bool :=
  match cs with
  | CallExec _ ok :: rest => after_begin version (all_ok && ok) rest
  | [CallRollback] => negb all_ok
  | [CallCommit false] => all_ok
  | [CallCommit true; CallSet key v _] =>
    all_ok && String.eqb key "migrateVersion" && (v =? version)
  | _ => false
  end.

Definition protocol (version : Z) (cs : list Call) : bool :=
  match cs with
  | [] => true
  | [CallBegin false] => true
  | CallBegin true :: rest => after_begin version true rest
  | _ => false
  end.

(** The world [w'] and the result [r] of a call whose plan is [todo], by
    what Begin, the statements, Commit and Set answer. *)
Definition planned_run {DB Tx} (drv : Driver DB Tx) (direction : string)
    (todo : list Migration) (version currentVersion jump : Z)
    (w w' : World DB) (r : outcome (option error)) : Prop :=
  match db_Begin drv (state w) with
  | inl err =>
    r = Returns (Some (GotoBegin err)) /\
    w' = {| state := state w; output := output w ++ preparing jump;
            calls := calls w ++ [CallBegin false] |}
  | inr tx =>
    let applied := part_results drv direction (all_parts todo) tx in
    (Forall succeeded applied.1 /\
     exists tail db,
       w' = {| state := db;
               output := output w ++ preparing jump
                         ++ todo_messages direction currentVersion 0 todo ++ tail;
               calls := calls w ++ [CallBegin true]
                        ++ map (result_call direction) applied.1
                        ++ CallCommit (is_ok (tx_Commit drv applied.2).2)
                           :: match (tx_Commit drv applied.2).2 with
                              | Some _ => []
                              | None =>
                                [CallSet "migrateVersion" version
                                   (is_ok (meta_Set drv (tx_Commit drv applied.2).1
                                             "migrateVersion" version).2)]
                              end |} /\
       match (tx_Commit drv applied.2).2 with
       | Some err =>
         r = Returns (Some (GotoCommit err)) /\ tail = [] /\
         db = (tx_Commit drv applied.2).1
       | None =>
         db = (meta_Set drv (tx_Commit drv applied.2).1 "migrateVersion" version).1 /\
         match (meta_Set drv (tx_Commit drv applied.2).1 "migrateVersion" version).2 with
         | Some err => r = Returns (Some (GotoSetVersion err)) /\ tail = []
         | None => r = Returns None /\ tail = [MsgSuccess]
         end
       end)
    \/ (r = Returns (Some GotoApplying) /\
        exists pre m post,
          todo = pre ++ m :: post /\
          let before := part_results drv direction (all_parts pre) tx in
          let during := part_results drv direction (Parts m) before.2 in
          Forall succeeded before.1 /\ Exists failed during.1 /\
          w' = {| state := tx_Rollback drv during.2;
                  output := output w ++ preparing jump
                            ++ todo_messages direction currentVersion 0 pre
                            ++ MsgBeginning direction
                                 (GoInt.add currentVersion (Z.of_nat (length pre)))
                                 (Version m)
                               :: map result_msg during.1
                            ++ [MsgPartsFailed (part_count false during.1)
                                  (part_count true during.1)];
                  calls := calls w ++ [CallBegin true]
                           ++ map (result_call direction) (before.1 ++ during.1)
                           ++ [CallRollback] |})
  end.

(** ** Marker lines

    The texts the pattern ^--\s?@migrate/(up|down)$ matches with the
    group [group]: the two dashes, at most one white-space character of
    the class \s, and @migrate/ followed by the group. *)
Definition marker_text (group text : string) : Prop :=
  text = "--@migrate/" +:+ group \/
  exists c, regex_space c = true /\
            text = "--" +:+ String c ("@migrate/" +:+ group).

(** ** Part files of a migration directory *)

(** The test of the loop of [NewMigration]: a directory entry is parsed as
    a part when it is no directory and its extension is .sql. *)
Definition is_part_file (file : DirEntry) : bool :=
  negb (entry_IsDir file) && String.eqb (GoString.Ext (entry_Name file)) ".sql".

(** [NewPart] on the entry [file] of the directory [root] returns [part]. *)
Definition parses_to (fs : Filesystem) (root : string) (file : DirEntry) (part : Part)
    : Prop :=
  NewPart fs (Join fs root (entry_Name file)) = Returns (inr part).

(** [NewMigration] on the entry [directory] of [root] returns [migration]. *)
Definition loads_to (fs : Filesystem) (root : string) (directory : DirEntry)
    (migration : Migration) : Prop :=
  NewMigration fs (Join fs root (entry_Name directory)) = Returns (inr migration).

(** Filing migrations under their versions, one after the other. *)
Definition file_all (migs : gmap Z Migration) (ms : list Migration) : gmap Z Migration :=
  foldl (fun acc m => <[Version m := m]> acc) migs ms.

(** ** The older NewMigration

    migrate.go holds the package before parts moved to a file of their
    own: there [NewMigration] grows the migration with [AddPart]. *)
Module Old.

Fixpoint collect_parts (fs : Filesystem) (root : string) (files : list DirEntry)
    (parts : list Part) : outcome (error + list Part) :=
  match files with
  | [] => Returns (inr parts)
  | file :: rest =>
    if negb (entry_IsDir file) && String.eqb (GoString.Ext (entry_Name file)) ".sql" then
      match AddPart fs parts (Join fs root (entry_Name file)) with
      | Panics p => Panics p
      | Returns (Some err, _) => Returns (inl err)
      | Returns (None, parts') => collect_parts fs root rest parts'
      end
    else collect_parts fs root rest parts
  end.

Definition NewMigration (fs : Filesystem) (root : string) : outcome (error + Migration) :=
  let name := snd (GoString.Split root) in
  match parse_version name with
  | inl err => Returns (inl err)
  | inr version =>
    let root := fs_Clean fs root in
    match fs_ReadDir fs root with
    | inl err => Returns (inl err)
    | inr files =>
      match collect_parts fs root files [] with
      | Panics p => Panics p
      | Returns (inl err) => Returns (inl err)
      | Returns (inr parts) =>
        if (length parts =? 0)%nat then Returns (inl (MigrationNoParts root))
        else Returns (inr {| Migration_Name := name; Migration_Path := root;
                             Version := version; Parts := parts |})
      end
    end
  end.

End Old.

(** The [ms] filed under the version [v]. *)
Definition with_version (v : Z) (ms : list Migration) : list Migration :=
  List.filter (fun m => Version m =? v) ms.

Module SimDup.

(** A tree in which two directories carry the version 1. *)
Definition duplicate : Filesystem :=
  Sim.fs [("migrate", [Sim.file "README.md"; Sim.dir "version_01"; Sim.dir "version_1"]);
          ("migrate/version_01", [Sim.file "a.sql"]);
          ("migrate/version_1", [Sim.file "b.sql"])]
         [("migrate/version_01/a.sql", Sim.part_file "UA" "DA");
          ("migrate/version_1/b.sql", Sim.part_file "UB" "DB")].

End SimDup.

(** ** Layout of a part file *)

(** Strings of the six ASCII white-space characters. *)
Fixpoint ascii_blank (s : string) : bool :=
  match s with
  | EmptyString => true
  | String c r => GoString.asciiSpace c && ascii_blank r
  end.

(** What the scan loop of [NewPart] looks at: the lines, trimmed, without
    those that are empty then. *)
Definition significant (lines : list string) : list string :=
  List.filter (fun text => negb (String.eqb text ""))
    (map GoString.TrimSpace lines).

(** The body of the scan loop on a line already trimmed. *)
Definition text_step (path : string) (st : ScanState) (text : string) : error + ScanState :=
  let matches := regexPartDir_FindStringSubmatch text in
  if (1 <? length matches)%nat then
    let group := nth 1 matches EmptyString in
    inr {| upSQL := upSQL st; downSQL := downSQL st;
           which := if String.eqb group "up" then 0
                    else if String.eqb group "down" then 1
                    else which st |}
  else if String.eqb text "" then inr st
  else match which st with
       | 0 => inr {| upSQL := upSQL st +:+ text; downSQL := downSQL st; which := which st |}
       | 1 => inr {| upSQL := upSQL st; downSQL := downSQL st +:+ text; which := which st |}
       | _ => inl (PartNoMarker path)
       end.

Fixpoint text_loop (path : string) (texts : list string) (st : ScanState)
    : error + ScanState :=
  match texts with
  | [] => inr st
  | text :: rest =>
    match text_step path st text with
    | inl err => inl err
    | inr st' => text_loop path rest st'
    end
  end.

(** * Lemmas and theorems *)

(** ** Machine integers *)

(** Bounds of ints: unfold the range and leave the rest to [lia]. *)
Ltac int_arith :=
  unfold GoInt.is_int, GoInt.min_int, GoInt.max_int in *; lia.

(** The five ways a run can end, with the names the proofs below use. *)
Ltac run_cases Hrun :=
  destruct Hrun as
    [err Hb Hs Hc
    |tx' pre m post out Hb Htodo HF HE Hs Hc Ho Hmsg
    |tx' db err Hb HF Hcm Hs Hc
    |tx' db db' err Hb HF Hcm Hset Hs Hc
    |tx' db db' Hb HF Hcm Hset Hs Hc].

Create HintDb migrate.

Lemma wrap_id z : GoInt.is_int z -> GoInt.wrap z = z.
Proof.
  unfold GoInt.is_int, GoInt.wrap, GoInt.min_int, GoInt.max_int. intros H.
  rewrite Z.mod_small; lia.
Qed.

Lemma wrap_is_int z : GoInt.is_int (GoInt.wrap z).
Proof.
  unfold GoInt.is_int, GoInt.wrap, GoInt.min_int, GoInt.max_int.
  pose proof (Z.mod_pos_bound (z + 2 ^ 63) (2 ^ 64)). lia.
Qed.

Lemma add_max_int_wraps : GoInt.add GoInt.max_int 1 = GoInt.min_int.
Proof. reflexivity. Qed.

(** ** The version ranges *)

Lemma length_countup i n : length (countup i n) = n.
Proof. revert i. induction n as [|n IH]; intros i; simpl; [done|]. by rewrite IH. Qed.

Lemma length_countdown i n : length (countdown i n) = n.
Proof. revert i. induction n as [|n IH]; intros i; simpl; [done|]. by rewrite IH. Qed.

Lemma lookup_countup i n (k : nat) :
  (k < n)%nat -> countup i n !! k = Some (i + Z.of_nat k).
Proof.
  revert i k. induction n as [|n IH]; intros i k Hk; [lia|].
  destruct k as [|k]; simpl.
  - f_equal. lia.
  - rewrite IH by lia. f_equal. lia.
Qed.

Lemma lookup_countdown i n (k : nat) :
  (k < n)%nat -> countdown i n !! k = Some (i - Z.of_nat k).
Proof.
  revert i k. induction n as [|n IH]; intros i k Hk; [lia|].
  destruct k as [|k]; simpl.
  - f_equal. lia.
  - rewrite IH by lia. f_equal. lia.
Qed.

Lemma elem_of_countup v i n : v ∈ countup i n -> i <= v < i + Z.of_nat n.
Proof.
  intros [k Hk]%list_elem_of_lookup.
  pose proof (lookup_lt_Some _ _ _ Hk) as Hlt. rewrite length_countup in Hlt.
  rewrite lookup_countup in Hk by done. simplify_eq. lia.
Qed.

Lemma elem_of_countdown v i n : v ∈ countdown i n -> i - Z.of_nat n < v <= i.
Proof.
  intros [k Hk]%list_elem_of_lookup.
  pose proof (lookup_lt_Some _ _ _ Hk) as Hlt. rewrite length_countdown in Hlt.
  rewrite lookup_countdown in Hk by done. simplify_eq. lia.
Qed.

(** ** Looking up a list of versions *)

Lemma lookup_all_inr inst target vs ms :
  lookup_all inst target vs = inr ms ->
  Forall2 (fun v m => migrations inst !! v = Some m) vs ms.
Proof.
  revert ms. induction vs as [|v vs IH]; intros ms H; simpl in H.
  - simplify_eq. constructor.
  - destruct (migrations inst !! v) as [m|] eqn:Hm; [|done].
    destruct (lookup_all inst target vs) as [e|ms'] eqn:Hr; [done|].
    simplify_eq. constructor; auto.
Qed.

Lemma lookup_all_inl inst target vs err :
  lookup_all inst target vs = inl err ->
  exists pre v post,
    vs = pre ++ v :: post /\ err = ErrNoVersion v target /\
    migrations inst !! v = None /\
    Forall (fun u => is_Some (migrations inst !! u)) pre.
Proof.
  revert err. induction vs as [|v vs IH]; intros err H; simpl in H; [done|].
  destruct (migrations inst !! v) as [m|] eqn:Hm.
  - destruct (lookup_all inst target vs) as [e|ms'] eqn:Hr; [|done].
    simplify_eq. destruct (IH _ eq_refl) as (pre & u & post & -> & -> & Hu & Hpre).
    exists (v :: pre), u, post. repeat split; auto.
  - simplify_eq. exists [], v, vs. repeat split; auto.
Qed.

(** ** The two planning loops meet the step lists *)

Lemma todo_down_run inst version n : forall fuel i todo,
  GoInt.is_int version -> GoInt.is_int i ->
  n = Z.to_nat (i - version) -> (n < fuel)%nat ->
  todo_down fuel inst version i todo
  = Some (extend todo (lookup_all inst version (countdown i n))).
Proof.
  induction n as [|n IH]; intros fuel i todo Hv Hi Hn Hfuel;
    (destruct fuel as [|fuel]; [lia|]); simpl.
  - destruct (Z.gtb_spec i version); [lia|]. by rewrite app_nil_r.
  - destruct (Z.gtb_spec i version); [|lia].
    unfold addToTodo. destruct (migrations inst !! i) as [m|]; [|done].
    unfold GoInt.sub. rewrite wrap_id by int_arith.
    rewrite (IH fuel (i - 1) (todo ++ [m])); try done; try lia.
    + destruct (lookup_all inst version (countdown (i - 1) n)); simpl; [done|].
      by rewrite <- app_assoc.
    + int_arith.
Qed.

Lemma todo_up_run inst version n : forall fuel i todo,
  migrations inst !! GoInt.max_int = None ->
  GoInt.is_int version -> GoInt.is_int i ->
  n = Z.to_nat (version + 1 - i) -> (n < fuel)%nat ->
  todo_up fuel inst version i todo
  = Some (extend todo (lookup_all inst version (countup i n))).
Proof.
  induction n as [|n IH]; intros fuel i todo Hmax Hv Hi Hn Hfuel;
    (destruct fuel as [|fuel]; [lia|]); simpl.
  - destruct (Z.leb_spec i version); [lia|]. by rewrite app_nil_r.
  - destruct (Z.leb_spec i version); [|lia].
    unfold addToTodo. destruct (migrations inst !! i) as [m|] eqn:Hm; [|done].
    assert (i <> GoInt.max_int) by congruence.
    unfold GoInt.add. rewrite wrap_id by int_arith.
    rewrite (IH fuel (i + 1) (todo ++ [m])); try done; try lia.
    + destruct (lookup_all inst version (countup (i + 1) n)); simpl; [done|].
      by rewrite <- app_assoc.
    + int_arith.
Qed.

Lemma plan_down fuel inst current target :
  GoInt.is_int current -> GoInt.is_int target -> target < current ->
  (Z.to_nat (current - 1 - target) < fuel)%nat ->
  plan fuel inst current target
  = Some (planned "down" (GoInt.sub current target)
            (lookup_all inst target (down_versions current target))).
Proof.
  intros Hc Ht Hlt Hfuel. unfold plan.
  destruct (Z.gtb_spec target current); [lia|].
  destruct (Z.ltb_spec target current); [|lia].
  unfold GoInt.sub at 1. rewrite wrap_id by int_arith.
  rewrite (todo_down_run inst target (Z.to_nat (current - 1 - target)));
    try done; [|int_arith].
  unfold down_versions.
  by destruct (lookup_all inst target _).
Qed.

Lemma plan_up fuel inst current target :
  migrations inst !! GoInt.max_int = None ->
  GoInt.is_int current -> GoInt.is_int target -> current < target ->
  (Z.to_nat (target - current) < fuel)%nat ->
  plan fuel inst current target
  = Some (planned "up" (GoInt.sub target current)
            (lookup_all inst target (up_versions current target))).
Proof.
  intros Hmax Hc Ht Hlt Hfuel. unfold plan.
  destruct (Z.gtb_spec target current); [|lia].
  unfold GoInt.add at 1. rewrite wrap_id by int_arith.
  rewrite (todo_up_run inst target (Z.to_nat (target - current)));
    try done; [| |lia]; [|int_arith].
  unfold up_versions.
  by destruct (lookup_all inst target _).
Qed.


(** ** Executing parts *)

Section Execution.
Context {DB Tx : Type} (drv : Driver DB Tx).

Lemma part_results_fst direction parts tx :
  map fst (fst (part_results drv direction parts tx)) = parts.
Proof.
  revert tx. induction parts as [|p ps IH]; intros tx; simpl; [done|].
  destruct (tx_Exec drv tx (body direction p)) as [tx' e].
  specialize (IH tx'). destruct (part_results drv direction ps tx') as [rs tx''].
  simpl in *. by rewrite IH.
Qed.

Lemma part_results_app direction ps1 ps2 tx :
  part_results drv direction (ps1 ++ ps2) tx
  = let '(rs1, tx1) := part_results drv direction ps1 tx in
    let '(rs2, tx2) := part_results drv direction ps2 tx1 in
    (rs1 ++ rs2, tx2).
Proof.
  revert tx. induction ps1 as [|p ps IH]; intros tx; simpl.
  - by destruct (part_results drv direction ps2 tx).
  - destruct (tx_Exec drv tx (body direction p)) as [tx' e].
    rewrite IH. destruct (part_results drv direction ps tx') as [rs1 tx1].
    by destruct (part_results drv direction ps2 tx1).
Qed.

Lemma statements_result_calls direction rs :
  statements (map (result_call direction) rs) = map (body direction) (map fst rs).
Proof. induction rs as [|r rs IH]; simpl; [done|]. unfold statements in *. simpl. by rewrite IH. Qed.

Lemma statements_app cs1 cs2 : statements (cs1 ++ cs2) = statements cs1 ++ statements cs2.
Proof. apply omap_app. Qed.

(** The inner loop: every part is sent, one call and one message each; the
    failed list grows by exactly the failed parts. *)
Lemma apply_parts_spec direction parts : forall key applied failed_keys w,
  exists applied' failed',
    apply_parts drv direction parts key applied failed_keys w
    = (applied', failed',
       {| state := snd (part_results drv direction parts (state w));
          output := output w
                    ++ map result_msg (fst (part_results drv direction parts (state w)));
          calls := calls w
                   ++ map (result_call direction)
                        (fst (part_results drv direction parts (state w))) |})
    /\ (length failed' = length failed_keys <->
        Forall succeeded (fst (part_results drv direction parts (state w))))
    /\ (length failed_keys <= length failed')%nat.
Proof.
  induction parts as [|p ps IH]; intros key applied failed_keys w; simpl.
  - exists applied, failed_keys. rewrite !app_nil_r. destruct w; simpl.
    split; [done|]. split; [|lia]. split; [constructor|done].
  - fold (body direction p).
    destruct (tx_Exec drv (state w) (body direction p)) as [tx' e] eqn:He.
    destruct e as [err|].
    + edestruct (IH (key + 1) applied (failed_keys ++ [key])) as (a' & f' & Heq & Hlen & Hle).
      rewrite Heq. simpl.
      destruct (part_results drv direction ps tx') as [rs tx''] eqn:Hrs. simpl.
      exists a', f'. rewrite <- !app_assoc. simpl. split; [done|].
      rewrite length_app in Hle. simpl in Hle. split; [|lia].
      split; [lia|]. intros HF. apply Forall_cons in HF as [HF _]. by unfold succeeded in HF.
    + edestruct (IH (key + 1) (applied ++ [key]) failed_keys) as (a' & f' & Heq & Hlen & Hle).
      rewrite Heq. simpl in *.
      destruct (part_results drv direction ps tx') as [rs tx''] eqn:Hrs. simpl in *.
      exists a', f'. rewrite <- !app_assoc. simpl. split; [done|]. split; [|done].
      rewrite Hlen. split; [intros; constructor; [reflexivity|done]|]. by intros [_ ?]%Forall_cons.
Qed.

Lemma result_msg_failed (rs : list (Part * option error)) p err :
  (p, Some err) ∈ rs -> MsgFailed (Part_Name p) err ∈ map result_msg rs.
Proof.
  intros H. apply (list_elem_of_fmap_2 result_msg) in H. exact H.
Qed.

Lemma apply_todo_cases direction currentVersion todo : forall key w,
  match apply_todo drv direction currentVersion todo key w with
  | inl w' => todo_applied drv direction todo w w'
  | inr w' => todo_rolled_back drv direction todo w w'
  end.
Proof.
  induction todo as [|m todo IH]; intros key w; simpl.
  - unfold todo_applied, all_parts. simpl. rewrite app_nil_r.
    repeat split; [constructor|]. exists []. by rewrite app_nil_r.
  - set (w1 := emit _ w).
    destruct (apply_parts_spec direction (Parts m) 0 [] [] w1)
      as (a' & f' & Heq & Hlen & _).
    rewrite Heq. clear Heq. simpl in Hlen.
    destruct (Nat.ltb_spec 0 (length f')) as [Hpos|Hzero].
    + exists [], m, todo. simpl. repeat split.
      * constructor.
      * apply not_Forall_Exists; [intros r; unfold succeeded; apply _|].
        intros HF. apply Hlen in HF. lia.
      * by rewrite <- app_assoc.
      * eexists. split.
        { rewrite <- !app_assoc. reflexivity. }
        intros p err Hin. simpl. apply list_elem_of_further.
        apply elem_of_app. left. by apply result_msg_failed.
    + assert (Hok : Forall succeeded (fst (part_results drv direction (Parts m) (state w))))
        by (apply Hlen; lia).
      match goal with |- context [apply_todo _ _ _ _ ?k ?w2] =>
        specialize (IH k w2); destruct (apply_todo drv direction currentVersion todo k w2)
          as [w'|w'] end; simpl in IH.
      * destruct IH as (HF & Hst & Hcalls & out & Hout).
        unfold todo_applied, all_parts. simpl. fold (all_parts todo).
        rewrite part_results_app.
        destruct (part_results drv direction (Parts m) (state w)) as [rs1 tx1]; simpl in *.
        destruct (part_results drv direction (all_parts todo) tx1) as [rs2 tx2]; simpl in *.
        repeat split.
        -- by apply Forall_app.
        -- done.
        -- by rewrite Hcalls, map_app, app_assoc.
        -- eexists. rewrite Hout, <- !app_assoc. reflexivity.
      * destruct IH as (pre & m' & post & -> & HF & HE & Hst & Hcalls & out & Hout & Hmsg).
        exists (m :: pre), m', post. simpl. split; [done|].
        unfold all_parts. simpl. fold (all_parts pre).
        rewrite part_results_app.
        destruct (part_results drv direction (Parts m) (state w)) as [rs1 tx1]; simpl in *.
        destruct (part_results drv direction (all_parts pre) tx1) as [rs2 tx2]; simpl in *.
        repeat split.
        -- by apply Forall_app.
        -- done.
        -- done.
        -- by rewrite Hcalls, !map_app, <- !app_assoc.
        -- eexists. split.
           { rewrite Hout, <- !app_assoc. reflexivity. }
           intros p err Hin. simpl. apply list_elem_of_further.
           apply elem_of_app. right. apply list_elem_of_further. auto.
Qed.

End Execution.


(** ** The shape of every call of Goto *)

Section GotoRuns.
Context {DB Tx : Type} (drv : Driver DB Tx).

Lemma Goto_planned_error fuel inst version w currentVersion err :
  Version_of drv (state w) = Returns currentVersion ->
  plan fuel inst currentVersion version = Some (inl err) ->
  Goto drv fuel inst version w = Some (w, Returns (Some err)).
Proof. intros HV Hplan. unfold Goto. by rewrite HV, Hplan. Qed.

Lemma Goto_run fuel inst version w currentVersion todo direction jump :
  Version_of drv (state w) = Returns currentVersion ->
  plan fuel inst currentVersion version = Some (inr (todo, direction, jump)) ->
  exists w' r,
    Goto drv fuel inst version w = Some (w', r) /\
    goto_run drv direction todo version w w' r.
Proof.
  intros HV Hplan. unfold Goto. rewrite HV, Hplan.
  set (w1 := if jump >? 1 then emit (MsgPreparing jump) w else w).
  assert (Hs1 : state w1 = state w) by (subst w1; by destruct (jump >? 1)).
  assert (Hc1 : calls w1 = calls w) by (subst w1; by destruct (jump >? 1)).
  assert (Ho1 : exists o, output w1 = output w ++ o).
  { subst w1. destruct (jump >? 1); simpl; eauto. exists []. by rewrite app_nil_r. }
  destruct Ho1 as [o1 Ho1].
  rewrite Hs1. destruct (db_Begin drv (state w)) as [err|tx] eqn:Hbegin.
  - eexists _, _. split; [reflexivity|].
    apply run_begin_failed; simpl; congruence.
  - match goal with |- context [apply_todo drv direction currentVersion todo 0 ?w2] =>
      pose proof (apply_todo_cases drv direction currentVersion todo 0 w2) as Hcases;
      destruct (apply_todo drv direction currentVersion todo 0 w2) as [w3|w3] end;
      unfold todo_applied, todo_rolled_back in Hcases; simpl in Hcases.
    + destruct Hcases as (HF & Hst & Hcalls & out & Hout).
      destruct (tx_Commit drv (state w3)) as [db [cerr|]] eqn:Hcommit.
      * eexists _, _. split; [reflexivity|].
        eapply run_commit_failed; simpl; eauto.
        -- by rewrite <- Hst.
        -- by rewrite Hcalls, Hc1, <- !app_assoc.
      * simpl. destruct (meta_Set drv db "migrateVersion" version) as [db' [serr|]] eqn:Hset.
        -- eexists _, _. split; [reflexivity|].
           eapply run_set_failed; simpl; eauto.
           ++ by rewrite <- Hst.
           ++ by rewrite Hcalls, Hc1, <- !app_assoc.
        -- eexists _, _. split; [reflexivity|].
           eapply run_success; simpl; eauto.
           ++ by rewrite <- Hst.
           ++ by rewrite Hcalls, Hc1, <- !app_assoc.
    + destruct Hcases as (pre & m & post & -> & HF & HE & Hst & Hcalls & out & Hout & Hmsg).
      eexists _, _. split; [reflexivity|].
      eapply (run_rolled_back _ _ _ _ _ _ _ pre m post (o1 ++ out)); eauto.
      * by rewrite Hcalls, Hc1, <- !app_assoc.
      * by rewrite Hout, Ho1, <- app_assoc.
      * intros p err Hin. apply elem_of_app. right. auto.
Qed.

(** Either the call ended before a plan was made, leaving the world as it
    was, or it ran the plan. *)
Lemma Goto_inv fuel inst version w w' r :
  Goto drv fuel inst version w = Some (w', r) ->
  (w' = w /\ exists p, Version_of drv (state w) = Panics p /\ r = Panics p)
  \/ (exists currentVersion,
        Version_of drv (state w) = Returns currentVersion /\
        ((w' = w /\ exists err,
            plan fuel inst currentVersion version = Some (inl err) /\
            r = Returns (Some err))
         \/ (exists todo direction jump,
               plan fuel inst currentVersion version = Some (inr (todo, direction, jump)) /\
               goto_run drv direction todo version w w' r))).
Proof.
  intros HG.
  destruct (Version_of drv (state w)) as [cur|p] eqn:HV.
  - right. exists cur. split; [done|].
    destruct (plan fuel inst cur version) as [[err|[[todo direction] jump]]|] eqn:Hplan.
    + left. rewrite (Goto_planned_error _ _ _ _ _ _ HV Hplan) in HG. simplify_eq. eauto.
    + right. destruct (Goto_run _ _ _ _ _ _ _ _ HV Hplan) as (w2 & r2 & HG2 & Hrun).
      rewrite HG2 in HG. simplify_eq. eauto 10.
    + unfold Goto in HG. by rewrite HV, Hplan in HG.
  - left. unfold Goto in HG. rewrite HV in HG. simplify_eq. eauto.
Qed.

End GotoRuns.

(** ** Reading the call log *)

Lemma new_calls_app {S S'} (w : World S) (w' : World S') cs :
  calls w' = calls w ++ cs -> new_calls w w' = cs.
Proof. intros H. unfold new_calls. rewrite H. apply drop_app_length. Qed.

Lemma new_calls_same {S} (w : World S) : new_calls w w = [].
Proof. unfold new_calls. apply drop_all. Qed.

Lemma statements_run direction rs tail :
  statements tail = [] ->
  statements ([CallBegin true] ++ map (result_call direction) rs ++ tail)
  = map (body direction) (map fst rs).
Proof.
  intros Ht. rewrite !statements_app, Ht, app_nil_r.
  by rewrite statements_result_calls.
Qed.

Lemma body_down_all todo : map (body "down") (all_parts todo) = down_bodies todo.
Proof.
  unfold all_parts, down_bodies. induction todo as [|m todo IH]; simpl; [done|].
  by rewrite map_app, IH.
Qed.

Lemma body_up_all todo : map (body "up") (all_parts todo) = up_bodies todo.
Proof.
  unfold all_parts, up_bodies. induction todo as [|m todo IH]; simpl; [done|].
  by rewrite map_app, IH.
Qed.

Lemma all_parts_app t1 t2 : all_parts (t1 ++ t2) = all_parts t1 ++ all_parts t2.
Proof. unfold all_parts. by rewrite map_app, concat_app. Qed.

Lemma all_parts_snoc pre m : all_parts (pre ++ [m]) = all_parts pre ++ Parts m.
Proof. rewrite all_parts_app. unfold all_parts. simpl. by rewrite app_nil_r. Qed.

Lemma failed_call_Exists direction rs sql :
  CallExec sql false ∈ map (result_call direction) rs -> Exists failed rs.
Proof.
  intros ([p e] & Heq & Hin)%list_elem_of_fmap_1.
  apply Exists_exists. exists (p, e). split; [done|].
  unfold result_call in Heq. simpl in Heq. unfold failed. simpl.
  destruct e; [done|]. simpl in Heq. congruence.
Qed.

Lemma Exists_failed_not_all rs : Exists failed rs -> Forall succeeded rs -> False.
Proof.
  intros HE HF. apply Exists_exists in HE as (r & Hin & Hr).
  rewrite Forall_forall in HF. apply Hr, HF, Hin.
Qed.

(** The statements a run sent: the bodies of the migrations it reached, all
    of them when it returned nil. *)
Lemma goto_run_statements {DB Tx} (drv : Driver DB Tx) direction todo version w w' r :
  goto_run drv direction todo version w w' r ->
  exists n, (n <= length todo)%nat /\
    statements (new_calls w w') = map (body direction) (all_parts (take n todo)) /\
    (r = Returns None -> n = length todo).
Proof.
  intros Hrun. run_cases Hrun.
  - exists 0%nat. rewrite (new_calls_app _ _ _ Hc). split; [lia|]. split; [done|]. done.
  - exists (S (length pre)). subst todo. rewrite (new_calls_app _ _ _ Hc).
    split; [rewrite length_app; simpl; lia|]. split; [|done].
    rewrite statements_run by done.
    replace (take (S (length pre)) (pre ++ m :: post)) with (pre ++ [m]).
    + by rewrite all_parts_snoc, map_app, !part_results_fst.
    + change (m :: post) with ([m] ++ post). rewrite app_assoc.
      rewrite take_app_length'; [done|]. rewrite length_app. simpl. lia.
  - exists (length todo). rewrite (new_calls_app _ _ _ Hc), firstn_all.
    split; [lia|]. split; [|done]. rewrite statements_run by done.
    by rewrite part_results_fst.
  - exists (length todo). rewrite (new_calls_app _ _ _ Hc), firstn_all.
    split; [lia|]. split; [|done]. rewrite statements_run by done.
    by rewrite part_results_fst.
  - exists (length todo). rewrite (new_calls_app _ _ _ Hc), firstn_all.
    split; [lia|]. split; [|done]. rewrite statements_run by done.
    by rewrite part_results_fst.
Qed.

(** * The claims *)

(** C1.  A call Goto(target) below the current version plans the migrations
    of the versions current-1, current-2, ..., target+1, in this descending
    order and without the migration of the current version; the statements
    it then sends are the down-bodies of these migrations, each migration's
    parts in their stored order. *)
Theorem goto_down_step_list {DB Tx} (drv : Driver DB Tx) (fuel : nat)
    (inst : Instance) (current target : Z) (w : World DB) :
  Version_of drv (state w) = Returns current ->
  GoInt.is_int current -> GoInt.is_int target -> target < current ->
  (Z.to_nat (current - 1 - target) < fuel)%nat ->
  let versions := down_versions current target in
  (length versions = Z.to_nat (current - 1 - target) /\
   (forall k : nat, (k < length versions)%nat ->
      versions !! k = Some (current - 1 - Z.of_nat k)) /\
   current ∉ versions) /\
  match lookup_all inst target versions with
  | inl err => Goto drv fuel inst target w = Some (w, Returns (Some err))
  | inr todo =>
    Forall2 (fun v m => migrations inst !! v = Some m) versions todo /\
    plan fuel inst current target = Some (inr (todo, "down", GoInt.sub current target)) /\
    exists w' r,
      Goto drv fuel inst target w = Some (w', r) /\
      exists n, (n <= length todo)%nat /\
        statements (new_calls w w') = down_bodies (take n todo) /\
        (r = Returns None -> n = length todo)
  end.
Proof.
  intros HV Hc Ht Hlt Hfuel versions.
  assert (Hlen : length versions = Z.to_nat (current - 1 - target))
    by apply length_countdown.
  split.
  - split; [done|]. split.
    + intros k Hk. apply lookup_countdown. lia.
    + intros Hin%elem_of_countdown. lia.
  - pose proof (plan_down fuel inst current target Hc Ht Hlt Hfuel) as Hplan.
    fold versions in Hplan.
    destruct (lookup_all inst target versions) as [err|todo] eqn:Hl; simpl in Hplan.
    + by eapply Goto_planned_error.
    + split; [by eapply lookup_all_inr|]. split; [done|].
      destruct (Goto_run drv _ _ _ _ _ _ _ _ HV Hplan) as (w' & r & HG & Hrun).
      exists w', r. split; [done|].
      destruct (goto_run_statements _ _ _ _ _ _ _ Hrun) as (n & Hn & Hst & Hr).
      exists n. by rewrite <- body_down_all.
Qed.

Lemma goto_down_step_list_witness :
  lookup_all Sim.inst3 0 (down_versions 3 0) = inr [Sim.m2; Sim.m1] /\
  exists w' r,
    Goto Sim.good_driver 3 Sim.inst3 0 (Sim.world_at 3) = Some (w', r) /\
    exists n, (n <= 2)%nat /\
      statements (new_calls (Sim.world_at 3) w') = down_bodies (take n [Sim.m2; Sim.m1]) /\
      (r = Returns None -> n = 2%nat).
Proof.
  assert (Hl : lookup_all Sim.inst3 0 (down_versions 3 0) = inr [Sim.m2; Sim.m1])
    by (vm_compute; reflexivity).
  split; [exact Hl|].
  assert (Hint : forall z, -10 <= z <= 10 -> GoInt.is_int z)
    by int_arith.
  pose proof (goto_down_step_list Sim.good_driver 3 Sim.inst3 3 0 (Sim.world_at 3)
                eq_refl (Hint 3 ltac:(lia)) (Hint 0 ltac:(lia)) ltac:(lia)
                ltac:(simpl; lia)) as [_ H].
  rewrite Hl in H. destruct H as (_ & _ & H). exact H.
Defined.

(** C3.  From the current version c, Goto(c-1) plans no migration at all,
    whatever the instance holds, and sends no statement; when Begin, Commit
    and the ledger Set succeed it returns nil and has written c-1 under
    "migrateVersion".  (c-1 has to be an int, so c is not the least one.) *)
Theorem goto_previous_version {DB Tx} (drv : Driver DB Tx) (fuel : nat)
    (inst : Instance) (c : Z) (w : World DB) :
  Version_of drv (state w) = Returns c ->
  GoInt.is_int c -> GoInt.min_int < c -> (0 < fuel)%nat ->
  plan fuel inst c (c - 1) = Some (inr ([], "down", 1)) /\
  (exists w' r,
     Goto drv fuel inst (c - 1) w = Some (w', r) /\
     statements (new_calls w w') = []) /\
  (forall tx db db',
     db_Begin drv (state w) = inr tx ->
     tx_Commit drv tx = (db, None) ->
     meta_Set drv db "migrateVersion" (c - 1) = (db', None) ->
     Goto drv fuel inst (c - 1) w
     = Some ({| state := db'; output := output w ++ [MsgSuccess];
                calls := calls w ++ [CallBegin true; CallCommit true;
                                     CallSet "migrateVersion" (c - 1) true] |},
             Returns None) /\
     (LedgerKeeps drv -> Version_of drv db' = Returns (c - 1))).
Proof.
  intros HV Hc Hmin Hfuel.
  assert (Hplan : plan fuel inst c (c - 1) = Some (inr ([], "down", 1))).
  { rewrite plan_down; try done; try lia.
    - unfold down_versions. replace (c - 1 - (c - 1)) with 0 by lia. simpl.
      unfold GoInt.sub. replace (c - (c - 1)) with 1 by lia. done.
    - int_arith. }
  split; [done|]. split.
  - destruct (Goto_run drv _ _ _ _ _ _ _ _ HV Hplan) as (w' & r & HG & Hrun).
    exists w', r. split; [done|].
    destruct (goto_run_statements _ _ _ _ _ _ _ Hrun) as (n & Hn & Hst & _).
    simpl in Hn. rewrite Hst. by destruct n.
  - intros tx db db' Hbegin Hcommit Hset. split.
    + unfold Goto. rewrite HV, Hplan. simpl. rewrite Hbegin. simpl.
      rewrite Hcommit. simpl. rewrite Hset. simpl. unfold emit. simpl.
      by rewrite <- !app_assoc.
    + intros Hkeeps. unfold Version_of. by rewrite (Hkeeps _ _ _ _ Hset).
Qed.

Lemma goto_previous_version_witness :
  Goto Sim.good_driver 1 Sim.inst3 (-1) (Sim.world Sim.empty_db)
  = Some ({| state := {| Sim.executed := []; Sim.ledger := <["migrateVersion" := -1]> ∅ |};
             output := [MsgSuccess];
             calls := [CallBegin true; CallCommit true;
                       CallSet "migrateVersion" (-1) true] |},
          Returns None) /\
  Version_of Sim.good_driver
    {| Sim.executed := []; Sim.ledger := <["migrateVersion" := -1]> ∅ |} = Returns (-1).
Proof.
  assert (Hint : GoInt.is_int 0)
    by int_arith.
  assert (Hmin : GoInt.min_int < 0) by (unfold GoInt.min_int; lia).
  destruct (goto_previous_version Sim.good_driver 1 Sim.inst3 0
              (Sim.world Sim.empty_db) eq_refl Hint Hmin ltac:(lia))
    as (_ & _ & H).
  destruct (H {| Sim.base := Sim.empty_db; Sim.pending := [] |}
              Sim.empty_db
              {| Sim.executed := []; Sim.ledger := <["migrateVersion" := -1]> ∅ |}
              eq_refl eq_refl eq_refl) as (HG & HVer).
  split; [exact HG|]. apply HVer.
  intros db key v db' Hs. simpl in *. simplify_eq. simpl. by rewrite lookup_insert_eq.
Defined.

(** C5.  A call Goto(target) above the current version plans the migrations
    of the versions current+1, current+2, ..., target, each looked up by its
    key, and then sends their up-bodies; when one of them is missing the
    call returns ErrNoVersion for the first missing one and leaves the world
    as it was: no transaction was begun, no statement sent.  (An instance
    holds no migration for the greatest int; there the loop counter would
    wrap.) *)
Theorem goto_up_step_list {DB Tx} (drv : Driver DB Tx) (fuel : nat)
    (inst : Instance) (current target : Z) (w : World DB) :
  Version_of drv (state w) = Returns current ->
  migrations inst !! GoInt.max_int = None ->
  GoInt.is_int current -> GoInt.is_int target -> current < target ->
  (Z.to_nat (target - current) < fuel)%nat ->
  let versions := up_versions current target in
  (length versions = Z.to_nat (target - current) /\
   (forall k : nat, (k < length versions)%nat ->
      versions !! k = Some (current + 1 + Z.of_nat k))) /\
  match lookup_all inst target versions with
  | inl err =>
    (exists pre N post,
        versions = pre ++ N :: post /\ migrations inst !! N = None /\
        Forall (fun v => is_Some (migrations inst !! v)) pre /\
        err = ErrNoVersion N target) /\
    Goto drv fuel inst target w = Some (w, Returns (Some err))
  | inr todo =>
    Forall2 (fun v m => migrations inst !! v = Some m) versions todo /\
    plan fuel inst current target = Some (inr (todo, "up", GoInt.sub target current)) /\
    exists w' r,
      Goto drv fuel inst target w = Some (w', r) /\
      exists n, (n <= length todo)%nat /\
        statements (new_calls w w') = up_bodies (take n todo) /\
        (r = Returns None -> n = length todo)
  end.
Proof.
  intros HV Hmax Hc Ht Hlt Hfuel versions.
  assert (Hlen : length versions = Z.to_nat (target - current))
    by apply length_countup.
  split.
  - split; [done|]. intros k Hk. apply lookup_countup. lia.
  - pose proof (plan_up fuel inst current target Hmax Hc Ht Hlt Hfuel) as Hplan.
    fold versions in Hplan.
    destruct (lookup_all inst target versions) as [err|todo] eqn:Hl; simpl in Hplan.
    + split; [|by eapply Goto_planned_error].
      destruct (lookup_all_inl _ _ _ _ Hl) as (pre & v & post & ? & ? & ? & ?).
      eauto 10.
    + split; [by eapply lookup_all_inr|]. split; [done|].
      destruct (Goto_run drv _ _ _ _ _ _ _ _ HV Hplan) as (w' & r & HG & Hrun).
      exists w', r. split; [done|].
      destruct (goto_run_statements _ _ _ _ _ _ _ Hrun) as (n & Hn & Hst & Hr).
      exists n. by rewrite <- body_up_all.
Qed.

Lemma goto_up_step_list_witness :
  Goto Sim.good_driver 4 Sim.inst13 3 (Sim.world Sim.empty_db)
  = Some (Sim.world Sim.empty_db, Returns (Some (ErrNoVersion 2 3))).
Proof.
  assert (Hint : forall z, -10 <= z <= 10 -> GoInt.is_int z)
    by int_arith.
  assert (Hl : lookup_all Sim.inst13 3 (up_versions 0 3) = inl (ErrNoVersion 2 3))
    by (vm_compute; reflexivity).
  pose proof (goto_up_step_list Sim.good_driver 4 Sim.inst13 0 3 (Sim.world Sim.empty_db)
                eq_refl eq_refl (Hint 0 ltac:(lia)) (Hint 3 ltac:(lia)) ltac:(lia)
                ltac:(simpl; lia)) as [_ H].
  rewrite Hl in H. destruct H as [_ H]. exact H.
Defined.

(** At the greatest int the counter of the upward loop wraps: with a
    migration stored under that key the loop goes on at the least int. *)
Example goto_max_int_wraps :
  plan 3 {| migrations := <[GoInt.max_int := Sim.m1]> ∅ |} (GoInt.max_int - 1) GoInt.max_int
  = Some (inl (ErrNoVersion GoInt.min_int GoInt.max_int)).
Proof. vm_compute. reflexivity. Qed.

(** ** Failure of a part, and commit *)

Lemma origin_part_results {DB Tx} (drv : Driver DB Tx) origin direction parts tx :
  Transactional drv origin ->
  origin (part_results drv direction parts tx).2 = origin tx.
Proof.
  intros HT. revert tx. induction parts as [|p ps IH]; intros tx; simpl; [done|].
  pose proof (origin_exec drv origin HT tx (body direction p)) as He.
  destruct (tx_Exec drv tx (body direction p)) as [tx' e]. simpl in He.
  specialize (IH tx'). destruct (part_results drv direction ps tx') as [rs tx''].
  simpl in *. congruence.
Qed.

Lemma failed_call_in_run direction rs tail sql :
  CallExec sql false ∈ [CallBegin true] ++ map (result_call direction) rs ++ tail ->
  (forall s ok, CallExec s ok ∉ tail) ->
  Exists failed rs.
Proof.
  intros Hin Htail. apply elem_of_app in Hin as [Hin|Hin].
  - apply list_elem_of_singleton in Hin. done.
  - apply elem_of_app in Hin as [Hin|Hin]; [by eapply failed_call_Exists|].
    by apply Htail in Hin.
Qed.

Lemma part_results_split {DB Tx} (drv : Driver DB Tx) direction pre m post tx :
  (part_results drv direction (all_parts (pre ++ m :: post)) tx).1
  = (part_results drv direction (all_parts pre) tx).1
    ++ (part_results drv direction (Parts m)
          (part_results drv direction (all_parts pre) tx).2).1
    ++ (part_results drv direction (all_parts post)
          (part_results drv direction (Parts m)
             (part_results drv direction (all_parts pre) tx).2).2).1.
Proof.
  rewrite all_parts_app. change (m :: post) with ([m] ++ post).
  rewrite all_parts_app. unfold all_parts at 2. simpl. rewrite app_nil_r.
  rewrite part_results_app.
  destruct (part_results drv direction (all_parts pre) tx) as [rs1 tx1]. simpl.
  rewrite part_results_app.
  destruct (part_results drv direction (Parts m) tx1) as [rs2 tx2]. simpl.
  by destruct (part_results drv direction (all_parts post) tx2) as [rs3 tx3].
Qed.

Lemma sim_transactional bad begin_err commit_err set_err :
  Transactional (Sim.driver bad begin_err commit_err set_err) Sim.base.
Proof.
  split; simpl.
  - intros db tx H. destruct begin_err; simplify_eq. done.
  - intros tx sql. by destruct (bad sql).
  - intros tx db err H. destruct commit_err; simplify_eq. done.
  - done.
Qed.

Lemma sim_ledger_keeps bad begin_err commit_err set_err :
  LedgerKeeps (Sim.driver bad begin_err commit_err set_err).
Proof.
  intros db key v db' H. simpl in *. destruct set_err; simplify_eq.
  simpl. by rewrite lookup_insert_eq.
Qed.

(** A run that ended in a rollback, spelled out. *)
Lemma rolled_back_run {DB Tx} (drv : Driver DB Tx) direction (w w' : World DB)
    tx pre m :
  db_Begin drv (state w) = inr tx ->
  state w' = tx_Rollback drv
               (part_results drv direction (Parts m)
                  (part_results drv direction (all_parts pre) tx).2).2 ->
  calls w' = calls w ++ [CallBegin true]
             ++ map (result_call direction)
                  ((part_results drv direction (all_parts pre) tx).1
                   ++ (part_results drv direction (Parts m)
                         (part_results drv direction (all_parts pre) tx).2).1)
             ++ [CallRollback] ->
  let before := part_results drv direction (all_parts pre) tx in
  let during := part_results drv direction (Parts m) before.2 in
  map fst during.1 = Parts m /\
  new_calls w w'
  = [CallBegin true] ++ map (result_call direction) (before.1 ++ during.1)
    ++ [CallRollback] /\
  statements (new_calls w w') = map (body direction) (all_parts pre ++ Parts m) /\
  (forall c, c ∈ new_calls w w' ->
     match c with CallCommit _ | CallSet _ _ _ => False | _ => True end) /\
  state w' = tx_Rollback drv during.2 /\
  (forall origin, Transactional drv origin -> state w' = state w).
Proof.
  intros Hb Hs Hc before during.
  split; [apply part_results_fst|]. rewrite (new_calls_app _ _ _ Hc).
  split; [done|]. split; [|split; [|split; [done|]]].
  - rewrite statements_run by done. subst before during.
    by rewrite map_app, !part_results_fst.
  - intros c [->%list_elem_of_singleton|Hin]%elem_of_app; [done|].
    apply elem_of_app in Hin as [Hin| ->%list_elem_of_singleton]; [|done].
    apply list_elem_of_fmap_1 in Hin as (r & -> & _). done.
  - intros origin HT. rewrite Hs, (origin_rollback drv origin HT).
    rewrite !origin_part_results by done. by apply (origin_begin drv origin HT).
Qed.

(** C4.  When some part of the plan fails ([part_results] lists what Exec
    answers as the parts of the plan are sent one after the other; up to
    the first failure that is what the call meets), the call goes like
    this: the migrations before the first one with a failure apply without
    a failure; every part of that migration is sent, in order, the failed
    ones and those after them included; then the transaction is rolled
    back at once, no later migration is touched, neither Commit nor the
    ledger Set is called, and the call returns the one error GotoApplying,
    which carries nothing; each failed part's own error is written to the
    output. *)
Theorem goto_part_failure {DB Tx} (drv : Driver DB Tx) (fuel : nat)
    (inst : Instance) (version currentVersion : Z) (w : World DB)
    (todo : list Migration) (direction : string) (jump : Z) (tx : Tx) :
  Version_of drv (state w) = Returns currentVersion ->
  plan fuel inst currentVersion version = Some (inr (todo, direction, jump)) ->
  db_Begin drv (state w) = inr tx ->
  Exists failed (part_results drv direction (all_parts todo) tx).1 ->
  exists w' pre m post,
    Goto drv fuel inst version w = Some (w', Returns (Some GotoApplying)) /\
    todo = pre ++ m :: post /\
    let before := part_results drv direction (all_parts pre) tx in
    let during := part_results drv direction (Parts m) before.2 in
    Forall succeeded before.1 /\
    Exists failed during.1 /\
    map fst during.1 = Parts m /\
    new_calls w w'
    = [CallBegin true] ++ map (result_call direction) (before.1 ++ during.1)
      ++ [CallRollback] /\
    statements (new_calls w w') = map (body direction) (all_parts pre ++ Parts m) /\
    (forall c, c ∈ new_calls w w' ->
       match c with CallCommit _ | CallSet _ _ _ => False | _ => True end) /\
    state w' = tx_Rollback drv during.2 /\
    (forall origin, Transactional drv origin -> state w' = state w) /\
    exists out, output w' = output w ++ out /\
      forall p err, (p, Some err) ∈ during.1 -> MsgFailed (Part_Name p) err ∈ out.
Proof.
  intros HV Hplan Hbegin Hfail.
  destruct (Goto_run drv _ _ _ _ _ _ _ _ HV Hplan) as (w' & r & HG & Hrun).
  run_cases Hrun;
    rewrite Hbegin in Hb; [discriminate| | | |]; injection Hb as <-;
    try (exfalso; by eapply Exists_failed_not_all).
  exists w', pre, m, post. split; [done|]. split; [done|].
  destruct (rolled_back_run drv direction w w' tx pre m Hbegin Hs Hc)
    as (? & ? & ? & ? & ? & ?).
  simpl. repeat split; try done. eauto.
Qed.

(** Read from the log: a failed statement among the calls of a finished
    Goto means the call ran as just described. *)
Lemma Goto_failed_call_inv {DB Tx} (drv : Driver DB Tx) (fuel : nat)
    (inst : Instance) (version : Z) (w w' : World DB)
    (r : outcome (option error)) (sql : string) :
  Goto drv fuel inst version w = Some (w', r) ->
  CallExec sql false ∈ new_calls w w' ->
  r = Returns (Some GotoApplying) /\
  exists currentVersion todo direction jump tx,
    Version_of drv (state w) = Returns currentVersion /\
    plan fuel inst currentVersion version = Some (inr (todo, direction, jump)) /\
    db_Begin drv (state w) = inr tx /\
    Exists failed (part_results drv direction (all_parts todo) tx).1.
Proof.
  intros HG Hin.
  destruct (Goto_inv drv _ _ _ _ _ _ HG)
    as [[-> _]|(cur & HV & [[-> _]|(todo & direction & jump & Hplan & Hrun)])].
  - rewrite new_calls_same in Hin. by apply elem_of_nil in Hin.
  - rewrite new_calls_same in Hin. by apply elem_of_nil in Hin.
  - run_cases Hrun;
      rewrite (new_calls_app _ _ _ Hc) in Hin.
    + apply list_elem_of_singleton in Hin. done.
    + split; [done|]. exists cur, todo, direction, jump, tx'.
      repeat split; try done. subst todo. rewrite part_results_split.
      apply Exists_app. right. apply Exists_app. by left.
    + exfalso. eapply Exists_failed_not_all; [|exact HF].
      eapply failed_call_in_run; [exact Hin|].
      intros s ok Hs'. apply list_elem_of_singleton in Hs'. done.
    + exfalso. eapply Exists_failed_not_all; [|exact HF].
      eapply failed_call_in_run; [exact Hin|].
      intros s ok Hs'. apply elem_of_cons in Hs' as [?|Hs']; [done|].
      apply list_elem_of_singleton in Hs'. done.
    + exfalso. eapply Exists_failed_not_all; [|exact HF].
      eapply failed_call_in_run; [exact Hin|].
      intros s ok Hs'. apply elem_of_cons in Hs' as [?|Hs']; [done|].
      apply list_elem_of_singleton in Hs'. done.
Qed.

Lemma goto_part_failure_witness :
  exists w',
    Goto (Sim.driver (String.eqb "U2b") None None None) 4 Sim.inst3 3
      (Sim.world Sim.empty_db)
    = Some (w', Returns (Some GotoApplying)) /\
    statements (new_calls (Sim.world Sim.empty_db) w') = ["U1"; "U2a"; "U2b"] /\
    state w' = Sim.empty_db.
Proof.
  set (drv := Sim.driver (String.eqb "U2b") None None None).
  set (w := Sim.world Sim.empty_db).
  assert (Hplan : plan 4 Sim.inst3 0 3 = Some (inr ([Sim.m1; Sim.m2; Sim.m3], "up", 3)))
    by (vm_compute; reflexivity).
  assert (Hfail : Exists failed
                    (part_results drv "up" (all_parts [Sim.m1; Sim.m2; Sim.m3])
                       {| Sim.base := Sim.empty_db; Sim.pending := [] |}).1).
  { vm_compute. do 2 apply Exists_cons_tl. apply Exists_cons_hd. discriminate. }
  destruct (goto_part_failure drv 4 Sim.inst3 3 0 w [Sim.m1; Sim.m2; Sim.m3] "up" 3
              {| Sim.base := Sim.empty_db; Sim.pending := [] |}
              eq_refl Hplan eq_refl Hfail)
    as (w' & pre & m & post & HG & _ & _ & _ & _ & _ & _ & _ & _ & Horigin & _).
  exists w'. split; [exact HG|]. split.
  - vm_compute in HG. injection HG as <-. reflexivity.
  - exact (Horigin Sim.base (sim_transactional _ _ _ _)).
Defined.

(** C6.  When every part of every planned migration applies, Goto calls
    Commit and, only when that succeeded, Set("migrateVersion", version) next;
    when Commit fails the call returns GotoCommit with that error, the Set is
    never called, and on a transactional database the state, and with it
    the stored version, is what it was before the call. *)
Theorem goto_commit_then_persist {DB Tx} (drv : Driver DB Tx) (fuel : nat)
    (inst : Instance) (version currentVersion : Z) (w : World DB)
    (todo : list Migration) (direction : string) (jump : Z) (tx : Tx) :
  Version_of drv (state w) = Returns currentVersion ->
  plan fuel inst currentVersion version = Some (inr (todo, direction, jump)) ->
  db_Begin drv (state w) = inr tx ->
  Forall succeeded (part_results drv direction (all_parts todo) tx).1 ->
  let applied := part_results drv direction (all_parts todo) tx in
  exists w' r,
    Goto drv fuel inst version w = Some (w', r) /\
    match tx_Commit drv applied.2 with
    | (db, Some err) =>
      r = Returns (Some (GotoCommit err)) /\
      state w' = db /\
      new_calls w w'
      = [CallBegin true] ++ map (result_call direction) applied.1 ++ [CallCommit false] /\
      (forall origin, Transactional drv origin ->
         state w' = state w /\ Version_of drv (state w') = Returns currentVersion)
    | (db, None) =>
      new_calls w w'
      = [CallBegin true] ++ map (result_call direction) applied.1
        ++ [CallCommit true;
            CallSet "migrateVersion" version
              (is_ok (meta_Set drv db "migrateVersion" version).2)] /\
      state w' = (meta_Set drv db "migrateVersion" version).1 /\
      r = Returns (match (meta_Set drv db "migrateVersion" version).2 with
                   | Some err => Some (GotoSetVersion err)
                   | None => None
                   end)
    end.
Proof.
  intros HV Hplan Hbegin Hok applied.
  destruct (Goto_run drv _ _ _ _ _ _ _ _ HV Hplan) as (w' & r & HG & Hrun).
  exists w', r. split; [done|].
  run_cases Hrun;
    rewrite Hbegin in Hb; simplify_eq.
  - exfalso. rewrite part_results_split in Hok.
    apply Forall_app in Hok as [_ [Hok _]%Forall_app].
    by eapply Exists_failed_not_all.
  - subst applied. rewrite Hcm. rewrite (new_calls_app _ _ _ Hc).
    repeat split; try done.
    + rewrite (origin_commit_failed drv origin H _ _ _ Hcm).
      rewrite origin_part_results by done. by apply (origin_begin drv origin H).
    + rewrite (origin_commit_failed drv origin H _ _ _ Hcm).
      rewrite origin_part_results by done.
      by rewrite (origin_begin drv origin H _ _ Hbegin).
  - subst applied. rewrite Hcm, Hset. simpl. by rewrite (new_calls_app _ _ _ Hc).
  - subst applied. rewrite Hcm, Hset. simpl. by rewrite (new_calls_app _ _ _ Hc).
Qed.

Lemma goto_commit_then_persist_witness :
  (exists w',
     Goto (Sim.driver (fun _ => false) None (Some (External "disk full")) None) 4
       Sim.inst3 2 (Sim.world Sim.empty_db)
     = Some (w', Returns (Some (GotoCommit (External "disk full")))) /\
     new_calls (Sim.world Sim.empty_db) w'
     = [CallBegin true; CallExec "U1" true; CallExec "U2a" true; CallExec "U2b" true;
        CallCommit false] /\
     Version_of Sim.good_driver (state w') = Returns 0) /\
  (exists w',
     Goto Sim.good_driver 4 Sim.inst3 2 (Sim.world Sim.empty_db) = Some (w', Returns None) /\
     new_calls (Sim.world Sim.empty_db) w'
     = [CallBegin true; CallExec "U1" true; CallExec "U2a" true; CallExec "U2b" true;
        CallCommit true; CallSet "migrateVersion" 2 true]).
Proof.
  assert (Hplan : plan 4 Sim.inst3 0 2 = Some (inr ([Sim.m1; Sim.m2], "up", 2)))
    by (vm_compute; reflexivity).
  split.
  - set (drv := Sim.driver (fun _ => false) None (Some (External "disk full")) None).
    destruct (goto_commit_then_persist drv 4 Sim.inst3 2 0 (Sim.world Sim.empty_db)
                [Sim.m1; Sim.m2] "up" 2
                {| Sim.base := Sim.empty_db; Sim.pending := [] |}
                eq_refl Hplan eq_refl
                ltac:(repeat constructor))
      as (w' & r & HG & Hr & Hst & Hcalls & Horigin).
    exists w'. subst r. split; [exact HG|]. split; [exact Hcalls|].
    destruct (Horigin Sim.base (sim_transactional _ _ _ _)) as [-> _]. reflexivity.
  - destruct (goto_commit_then_persist Sim.good_driver 4 Sim.inst3 2 0
                (Sim.world Sim.empty_db) [Sim.m1; Sim.m2] "up" 2
                {| Sim.base := Sim.empty_db; Sim.pending := [] |}
                eq_refl Hplan eq_refl
                ltac:(repeat constructor))
      as (w' & r & HG & Hcalls & Hst & Hr).
    exists w'. subst r. split; [exact HG|exact Hcalls].
Defined.

(** C2.  The round trip on the tree version_1..3, run on the reference
    database: after Goto(3), the call Goto(0) sends the down-bodies of the
    migrations 2 and 1 only; the down-body of migration 3 is never sent, so
    the database keeps what migration 3 did while the ledger says 0.  The
    same loop makes Goto(2) from version 3 send nothing at all. *)
Theorem goto_round_trip_skips_current :
  exists inst w1 w2 w3,
    snd (NewInstance Sim.good_driver Sim.working (Some Sim.empty_db) "migrate")
    = Returns (inr inst) /\
    Goto Sim.good_driver 4 inst 3 (Sim.world Sim.empty_db) = Some (w1, Returns None) /\
    Goto Sim.good_driver 4 inst 0 w1 = Some (w2, Returns None) /\
    statements (new_calls w1 w2) = ["D2"; "D1"] /\
    Sim.executed (state w2) = ["U1"; "U2"; "U3"; "D2"; "D1"] /\
    Version_of Sim.good_driver (state w2) = Returns 0 /\
    Goto Sim.good_driver 4 inst 2 w1 = Some (w3, Returns None) /\
    statements (new_calls w1 w3) = [] /\
    new_calls w1 w3 = [CallBegin true; CallCommit true; CallSet "migrateVersion" 2 true] /\
    drop (length (output w1)) (output w3) = [MsgSuccess].
Proof.
  eexists _, _, _, _.
  split; [vm_compute; reflexivity|].
  split; [vm_compute; reflexivity|].
  split; [vm_compute; reflexivity|].
  split; [vm_compute; reflexivity|].
  split; [vm_compute; reflexivity|].
  split; [vm_compute; reflexivity|].
  split; [vm_compute; reflexivity|].
  split; [vm_compute; reflexivity|].
  split; vm_compute; reflexivity.
Qed.

(** ** Atoi and the directory name *)

Lemma is_intb_spec z : GoInt.is_intb z = true <-> GoInt.is_int z.
Proof.
  unfold GoInt.is_intb, GoInt.is_int.
  rewrite andb_true_iff, !Z.leb_le. tauto.
Qed.

Lemma digit_range c d : Strconv.digit c = Some d -> 0 <= d <= 9.
Proof.
  unfold Strconv.digit.
  destruct ((48 <=? N_of_ascii c)%N && (N_of_ascii c <=? 57)%N) eqn:H; [|done].
  apply andb_true_iff in H as [H1%N.leb_le H2%N.leb_le]. intros [= <-]. lia.
Qed.

Lemma digits_value_ge s : forall n v, 0 <= n -> digits_value s n = Some v -> n <= v.
Proof.
  induction s as [|c s IH]; intros n v Hn H; simpl in H.
  - simplify_eq. lia.
  - destruct (Strconv.digit c) as [d|] eqn:Hd; [|done].
    apply digit_range in Hd. apply IH in H; lia.
Qed.

Lemma maxUint64_value : Strconv.maxUint64 = 18446744073709551615.
Proof. reflexivity. Qed.

Lemma cutoff_value : Strconv.maxUint64 / 10 + 1 = 1844674407370955162.
Proof. reflexivity. Qed.

Lemma parse_digits_some s : forall n u,
  0 <= n <= Strconv.maxUint64 -> digits_value s n = Some u ->
  Strconv.parse_digits s n = if u <=? Strconv.maxUint64 then inr u else inl ErrRange.
Proof.
  induction s as [|c s IH]; intros n u Hn H; simpl in *.
  - simplify_eq. by destruct (Z.leb_spec u Strconv.maxUint64); [|lia].
  - destruct (Strconv.digit c) as [d|] eqn:Hd; [|done].
    pose proof (digit_range _ _ Hd) as Hdr.
    pose proof (digits_value_ge s (n * 10 + d) u ltac:(lia) H) as Hge.
    rewrite cutoff_value. rewrite maxUint64_value in *.
    destruct (Z.leb_spec 1844674407370955162 n).
    { by destruct (Z.leb_spec u 18446744073709551615); [lia|]. }
    destruct (Z.ltb_spec 18446744073709551615 (n * 10 + d)).
    { by destruct (Z.leb_spec u 18446744073709551615); [lia|]. }
    rewrite (IH (n * 10 + d) u); [done|lia|done].
Qed.

Lemma parse_digits_none s : forall n,
  digits_value s n = None -> exists kind, Strconv.parse_digits s n = inl kind.
Proof.
  induction s as [|c s IH]; intros n H; simpl in *; [done|].
  destruct (Strconv.digit c) as [d|]; [|by eauto].
  destruct (_ <=? n); [by eauto|].
  destruct (_ <? _); [by eauto|]. by apply IH.
Qed.

Lemma ParseUint_some s u :
  nonempty_digits s = Some u ->
  0 <= u /\
  Strconv.ParseUint s = if u <=? Strconv.maxUint64 then inr u else inl ErrRange.
Proof.
  destruct s as [|c s]; [done|]. unfold nonempty_digits, Strconv.ParseUint. intros H.
  split.
  - by apply (digits_value_ge _ 0 u) in H.
  - apply parse_digits_some; [rewrite maxUint64_value; lia|done].
Qed.

Lemma ParseUint_none s :
  nonempty_digits s = None -> exists kind, Strconv.ParseUint s = inl kind.
Proof.
  destruct s as [|c s]; [by eexists|]. unfold nonempty_digits, Strconv.ParseUint.
  apply parse_digits_none.
Qed.

Lemma byte_is_unique n1 n2 c :
  GoString.byte_is n1 c = true -> n1 <> n2 -> GoString.byte_is n2 c = false.
Proof.
  unfold GoString.byte_is. intros H1%N.eqb_eq Hne. apply N.eqb_neq. congruence.
Qed.

Lemma ParseInt_some lit v :
  literal_value lit = Some v ->
  Strconv.ParseInt lit = if GoInt.is_intb v then inr v else inl ErrRange.
Proof.
  destruct lit as [|c r]; [done|]. unfold literal_value, Strconv.ParseInt.
  unfold GoInt.is_intb, GoInt.min_int, GoInt.max_int.
  destruct (GoString.byte_is 43 c) eqn:Hplus.
  - rewrite (byte_is_unique 43 45 c Hplus) by done. cbn [orb negb andb]. intros H.
    destruct (ParseUint_some _ _ H) as [Hu ->]. rewrite maxUint64_value.
    destruct (Z.leb_spec v 18446744073709551615);
      destruct (Z.leb_spec (2 ^ 63) v); destruct (Z.leb_spec (- 2 ^ 63) v);
      destruct (Z.leb_spec v (2 ^ 63 - 1)); cbn [orb negb andb]; try done; lia.
  - destruct (GoString.byte_is 45 c) eqn:Hminus; cbn [orb negb andb].
    + intros H. destruct (nonempty_digits r) as [u|] eqn:Hr; [|done].
      cbn in H. simplify_eq.
      destruct (ParseUint_some _ _ Hr) as [Hu ->]. rewrite maxUint64_value.
      destruct (Z.leb_spec u 18446744073709551615);
        destruct (Z.ltb_spec (2 ^ 63) u); destruct (Z.leb_spec (- 2 ^ 63) (- u));
        destruct (Z.leb_spec (- u) (2 ^ 63 - 1)); cbn [orb negb andb]; try done; lia.
    + intros H. destruct (ParseUint_some (String c r) v H) as [Hu ->].
      rewrite maxUint64_value.
      destruct (Z.leb_spec v 18446744073709551615);
        destruct (Z.leb_spec (2 ^ 63) v); destruct (Z.leb_spec (- 2 ^ 63) v);
        destruct (Z.leb_spec v (2 ^ 63 - 1)); cbn [orb negb andb]; try done; lia.
Qed.

Lemma ParseInt_none lit :
  literal_value lit = None -> exists kind, Strconv.ParseInt lit = inl kind.
Proof.
  destruct lit as [|c r]; [by eexists|]. unfold literal_value, Strconv.ParseInt.
  destruct (GoString.byte_is 43 c) eqn:Hplus.
  - cbn [orb]. intros [k ->]%ParseUint_none. eauto.
  - destruct (GoString.byte_is 45 c) eqn:Hminus; cbn [orb].
    + intros H. destruct (nonempty_digits r) eqn:Hr; [done|].
      apply ParseUint_none in Hr as [k ->]. eauto.
    + intros H. apply (ParseUint_none (String c r)) in H as [k ->]. eauto.
Qed.

(** Atoi, in one equation. *)
Lemma Atoi_spec lit :
  match literal_value lit with
  | Some v => Strconv.Atoi lit
              = if GoInt.is_intb v then inr v else inl (NumError lit ErrRange)
  | None => exists kind, Strconv.Atoi lit = inl (NumError lit kind)
  end.
Proof.
  unfold Strconv.Atoi. destruct (literal_value lit) as [v|] eqn:Hl.
  - rewrite (ParseInt_some _ _ Hl). by destruct (GoInt.is_intb v).
  - destruct (ParseInt_none _ Hl) as [k ->]. eauto.
Qed.

Lemma append_nil_l r : EmptyString +:+ r = r.
Proof. reflexivity. Qed.

Lemma append_cons a p r : String a p +:+ r = String a (p +:+ r).
Proof. reflexivity. Qed.

Lemma strip_prefix_Some p : forall s r,
  GoString.strip_prefix p s = Some r <-> s = p +:+ r.
Proof.
  induction p as [|a p IH]; intros s r; simpl.
  - rewrite append_nil_l. split; congruence.
  - rewrite append_cons. destruct s as [|b s]; [split; discriminate|].
    destruct (Ascii.eqb_spec a b) as [->|Hne].
    + rewrite IH. split; congruence.
    + split; [done|]. intros [= ? ?]. done.
Qed.

Lemma substring_prefix p : forall s,
  String.substring 0 (String.length p) s = p <-> exists r, s = p +:+ r.
Proof.
  induction p as [|a p IH]; intros s; simpl.
  - split; [intros _; exists s; by rewrite append_nil_l|]. by destruct s.
  - destruct s as [|b s]; simpl.
    + split; [done|]. intros [r Hr]. by rewrite append_cons in Hr.
    + split.
      * intros [= -> H]. apply IH in H as [r ->]. exists r. by rewrite append_cons.
      * intros [r Hr]. rewrite append_cons in Hr. injection Hr as -> ->.
        f_equal. apply IH. eauto.
Qed.

Lemma drop_prefix p r : GoString.drop (String.length p) (p +:+ r) = r.
Proof.
  induction p as [|a p IH]; simpl.
  - rewrite ?append_nil_l. by destruct r.
  - by rewrite ?append_cons.
Qed.

Lemma length_append p r :
  String.length (p +:+ r) = (String.length p + String.length r)%nat.
Proof.
  induction p as [|a p IH]; [by rewrite append_nil_l|].
  rewrite append_cons. simpl. by rewrite IH.
Qed.

Lemma parse_version_literal lit :
  lit <> EmptyString ->
  parse_version ("version_" +:+ lit)
  = match Strconv.Atoi lit with
    | inl err => inl err
    | inr version => if version =? 0 then inl MigrationVersionZero else inr version
    end.
Proof.
  intros Hne. unfold parse_version.
  assert (Hlen : (GoString.len ("version_" +:+ lit) <? 9) = false).
  { apply Z.ltb_ge. unfold GoString.len. rewrite length_append. simpl.
    destruct lit; [done|]. simpl. lia. }
  assert (Hsub : String.substring 0 8 ("version_" +:+ lit) = "version_").
  { apply (substring_prefix "version_"). eauto. }
  rewrite Hlen, Hsub. simpl negb. cbv iota.
  change (GoString.drop 8 ("version_" +:+ lit)) with
    (GoString.drop (String.length "version_") ("version_" +:+ lit)).
  by rewrite drop_prefix.
Qed.

Lemma parse_version_bad_name name :
  (forall lit, name = "version_" +:+ lit -> lit = EmptyString) ->
  parse_version name = inl (MigrationBadName name).
Proof.
  intros Hbad. unfold parse_version.
  destruct (Z.ltb_spec (GoString.len name) 9) as [|Hlen]; [done|]. simpl.
  destruct (String.eqb_spec (String.substring 0 8 name) "version_") as [Heq|]; [|done].
  apply (substring_prefix "version_") in Heq as [r ->].
  rewrite (Hbad r eq_refl) in Hlen. unfold GoString.len in Hlen. simpl in Hlen. lia.
Qed.

(** The name check of [NewMigration] decides its result when it fails, and
    fixes name and version when it passes. *)
Lemma NewMigration_name fs root :
  (forall err, parse_version (GoString.Split root).2 = inl err ->
     NewMigration fs root = Returns (inl err)) /\
  (forall m, NewMigration fs root = Returns (inr m) ->
     parse_version (GoString.Split root).2 = inr (Version m) /\
     Migration_Name m = (GoString.Split root).2 /\
     Parts m <> []).
Proof.
  unfold NewMigration. split.
  - intros err ->. done.
  - intros m H. destruct (parse_version (GoString.Split root).2) as [e|v]; [done|].
    destruct (fs_ReadDir fs (fs_Clean fs root)) as [e|files]; [done|].
    destruct (collect_parts fs (fs_Clean fs root) files []) as [[e|parts]|p]; try done.
    destruct parts as [|p ps]; simpl in H; [done|]. by simplify_eq.
Qed.

Lemma version_name_cases name :
  (exists lit, lit <> EmptyString /\ name = "version_" +:+ lit)
  \/ (forall lit, name = "version_" +:+ lit -> lit = EmptyString).
Proof.
  destruct (GoString.strip_prefix "version_" name) as [lit|] eqn:Hp.
  - apply strip_prefix_Some in Hp. destruct lit as [|c lit].
    + right. intros lit' H. rewrite Hp in H.
      apply strip_prefix_Some in H. cbv in H. congruence.
    + left. eexists. split; [|exact Hp]. done.
  - right. intros lit H. apply strip_prefix_Some in H. congruence.
Qed.

Lemma literal_nonempty lit : literal_value lit <> None -> lit <> EmptyString.
Proof. by intros H ->. Qed.

Lemma parse_version_value lit v :
  literal_value lit = Some v ->
  parse_version ("version_" +:+ lit)
  = if GoInt.is_intb v
    then (if v =? 0 then inl MigrationVersionZero else inr v)
    else inl (NumError lit ErrRange).
Proof.
  intros Hl. rewrite parse_version_literal by (apply literal_nonempty; congruence).
  pose proof (Atoi_spec lit) as HA. rewrite Hl in HA. rewrite HA.
  by destruct (GoInt.is_intb v).
Qed.

Lemma parse_version_no_literal lit :
  lit <> EmptyString -> literal_value lit = None ->
  exists kind, parse_version ("version_" +:+ lit) = inl (NumError lit kind).
Proof.
  intros Hne Hl. rewrite parse_version_literal by done.
  pose proof (Atoi_spec lit) as HA. rewrite Hl in HA. destruct HA as [k ->]. eauto.
Qed.

(** The names the check passes, and the version it reads from them. *)
Lemma parse_version_accepts name v :
  parse_version name = inr v <->
  exists lit, name = "version_" +:+ lit /\ literal_value lit = Some v /\
              GoInt.is_int v /\ v <> 0.
Proof.
  split.
  - intros H. destruct (version_name_cases name) as [(lit & Hne & ->)|Hbad].
    + exists lit. destruct (literal_value lit) as [v'|] eqn:Hl.
      * rewrite (parse_version_value _ _ Hl) in H.
        destruct (GoInt.is_intb v') eqn:Hi; [|done].
        destruct (Z.eqb_spec v' 0); [done|]. simplify_eq.
        by apply is_intb_spec in Hi.
      * destruct (parse_version_no_literal _ Hne Hl) as [k Hk]. congruence.
    + by rewrite (parse_version_bad_name _ Hbad) in H.
  - intros (lit & -> & Hl & Hi & Hnz). rewrite (parse_version_value _ _ Hl).
    apply is_intb_spec in Hi. rewrite Hi. by destruct (Z.eqb_spec v 0).
Qed.

(** C9, as the code has it.  The name check of NewMigration passes exactly
    the names version_ followed by a literal of Atoi (an optional sign, '+'
    or '-', then one or more decimal digits) whose value fits an int and is
    not 0, and that value is the version.  A name that is not version_
    followed by at least one byte fails with the bad-name error; a suffix
    that is no such literal, or one whose value does not fit an int, fails
    with the NumError of Atoi; the value 0 fails with the reserved-version
    error. *)
Theorem new_migration_name_check (fs : Filesystem) (root : string) :
  let name := (GoString.Split root).2 in
  (forall v, parse_version name = inr v <->
     exists lit, name = "version_" +:+ lit /\ literal_value lit = Some v /\
                 GoInt.is_int v /\ v <> 0) /\
  (parse_version name = inl (MigrationBadName name) <->
     GoString.len name < 9 \/ GoString.strip_prefix "version_" name = None) /\
  (forall lit, name = "version_" +:+ lit -> lit <> EmptyString ->
     literal_value lit = None ->
     exists kind, parse_version name = inl (NumError lit kind)) /\
  (forall lit v, name = "version_" +:+ lit -> literal_value lit = Some v ->
     ~ GoInt.is_int v -> parse_version name = inl (NumError lit ErrRange)) /\
  (forall lit, name = "version_" +:+ lit -> literal_value lit = Some 0 ->
     parse_version name = inl MigrationVersionZero) /\
  (forall err, parse_version name = inl err -> NewMigration fs root = Returns (inl err)) /\
  (forall m, NewMigration fs root = Returns (inr m) ->
     parse_version name = inr (Version m) /\ Migration_Name m = name).
Proof.
  intros name. split; [apply parse_version_accepts|]. split; [split|].
  - (* the bad-name error comes from no other name *)
    intros H. destruct (version_name_cases name) as [(lit & Hne & Hname)|Hbad].
    + exfalso. rewrite Hname in H. rewrite parse_version_literal in H by done.
      unfold Strconv.Atoi in H. destruct (Strconv.ParseInt lit) as [k|v]; [done|].
      by destruct (v =? 0).
    + destruct (GoString.strip_prefix "version_" name) as [lit|] eqn:Hp; [|by right].
      left. apply strip_prefix_Some in Hp. rewrite (Hbad _ Hp) in Hp.
      rewrite Hp. unfold GoString.len. simpl. lia.
  - intros H. apply parse_version_bad_name. intros lit Hname.
    destruct H as [Hlen|Hp].
    + rewrite Hname in Hlen. unfold GoString.len in Hlen.
      rewrite length_append in Hlen. simpl in Hlen. destruct lit; [done|]. simpl in Hlen. lia.
    + apply strip_prefix_Some in Hname. congruence.
  - split; [|split; [|split; [|split]]].
    + intros lit -> Hne Hl. by apply parse_version_no_literal.
    + intros lit v -> Hl Hi. rewrite (parse_version_value _ _ Hl).
      destruct (GoInt.is_intb v) eqn:Hb; [|done]. by apply is_intb_spec in Hb.
    + intros lit -> Hl. by rewrite (parse_version_value _ _ Hl).
    + apply NewMigration_name.
    + intros m Hm. destruct (proj2 (NewMigration_name fs root) m Hm) as (? & ? & _).
      done.
Qed.

(** C9, the claim as written fails: the name version_+5 has a leading '+',
    and the name check passes it with version 5; NewMigration returns the
    migration. *)
Lemma new_migration_accepts_plus_sign :
  plain_version_name "version_+5" = false /\
  parse_version "version_+5" = inr 5 /\
  NewMigration
    (Sim.fs [("version_+5", [Sim.file "a.sql"])]
            [("version_+5/a.sql", Sim.part_file "U" "D")])
    "version_+5"
  = Returns (inr {| Migration_Name := "version_+5"; Migration_Path := "version_+5";
                    Version := 5;
                    Parts := [{| Part_Name := "a.sql"; Part_Path := "version_+5/a.sql";
                                 Up := "U"; Down := "D" |}] |}).
Proof. repeat split; vm_compute; reflexivity. Qed.

(** ** The gap check of NewInstance *)

Lemma sorted_keys_Permutation (migs : gmap Z Migration) :
  sorted_keys migs ≡ₚ (map_to_list migs).*1.
Proof. unfold sorted_keys. apply merge_sort_Permutation. Qed.

Lemma elem_of_sorted_keys (migs : gmap Z Migration) k :
  k ∈ sorted_keys migs <-> is_Some (migs !! k).
Proof.
  rewrite sorted_keys_Permutation, list_elem_of_fmap. split.
  - intros ([k' m] & -> & Hin). apply elem_of_map_to_list in Hin. by eexists.
  - intros [m Hm]. exists (k, m). split; [done|]. by apply elem_of_map_to_list.
Qed.

Lemma StronglySorted_le_lt (l : list Z) :
  StronglySorted Z.le l -> NoDup l -> StronglySorted Z.lt l.
Proof.
  induction 1 as [|x l Hs IH Hx]; intros Hnd; [constructor|].
  apply NoDup_cons in Hnd as [Hnotin Hnd]. constructor; [by apply IH|].
  rewrite Forall_forall in Hx |- *. intros y Hy. specialize (Hx y Hy).
  assert (x <> y) by (intros ->; done). lia.
Qed.

Lemma sorted_keys_sorted (migs : gmap Z Migration) :
  StronglySorted Z.lt (sorted_keys migs).
Proof.
  apply StronglySorted_le_lt.
  - unfold sorted_keys. apply (StronglySorted_merge_sort Z.le).
  - rewrite sorted_keys_Permutation. apply NoDup_fst_map_to_list.
Qed.

Lemma length_sorted_keys (migs : gmap Z Migration) :
  length (sorted_keys migs) = size migs.
Proof.
  rewrite sorted_keys_Permutation, length_fmap. apply length_map_to_list.
Qed.

Lemma add_one_no_wrap last :
  GoInt.is_int last -> last < GoInt.max_int -> GoInt.add last 1 = last + 1.
Proof.
  intros Hl Hlt. unfold GoInt.add. apply wrap_id. int_arith.
Qed.

(** The walk stops at the first key that is not its predecessor plus one,
    the predecessor of the first key being [last]. *)
Lemma check_gaps_violation pre : forall last key post,
  GoInt.is_int last -> last < GoInt.max_int ->
  StronglySorted Z.lt (pre ++ key :: post) ->
  Forall GoInt.is_int (pre ++ key :: post) ->
  pre = countup (last + 1) (length pre) ->
  key <> last + Z.of_nat (length pre) + 1 ->
  check_gaps (pre ++ key :: post) last
  = Some (InstanceGap (last + Z.of_nat (length pre)) key).
Proof.
  induction pre as [|p pre IH]; intros last key post Hl Hmax Hs HF Hpre Hkey; simpl in *.
  - rewrite (add_one_no_wrap last) by done.
    destruct (Z.eqb_spec key (last + 1)); [lia|]. simpl. by rewrite Z.add_0_r.
  - apply Forall_cons in HF as [Hp HF]. injection Hpre as Hp1 Hpre.
    apply StronglySorted_cons in Hs as [Hgt Hs].
    rewrite (add_one_no_wrap last) by done.
    destruct (Z.eqb_spec p (last + 1)); [|lia]. simpl.
    assert (p < key /\ GoInt.is_int key) as [Hpk Hk].
    { rewrite Forall_forall in HF, Hgt. split; [apply Hgt|apply HF];
        apply elem_of_app; right; apply list_elem_of_here. }
    rewrite (IH (last + 1) key post).
    + do 2 f_equal. lia.
    + subst p. done.
    + int_arith.
    + done.
    + done.
    + done.
    + lia.
Qed.

Lemma check_gaps_spec keys : forall last,
  GoInt.is_int last -> keys = [] \/ last < GoInt.max_int ->
  StronglySorted Z.lt keys ->
  Forall GoInt.is_int keys ->
  match check_gaps keys last with
  | None => keys = countup (last + 1) (length keys)
  | Some err =>
    exists pre key post,
      keys = pre ++ key :: post /\ pre = countup (last + 1) (length pre) /\
      key <> last + Z.of_nat (length pre) + 1 /\
      err = InstanceGap (last + Z.of_nat (length pre)) key
  end.
Proof.
  induction keys as [|key keys IH]; intros last Hl Hmax Hs HF; simpl; [done|].
  destruct Hmax as [|Hmax]; [done|].
  apply Forall_cons in HF as [Hk HF].
  apply StronglySorted_cons in Hs as [Hgt Hs].
  rewrite (add_one_no_wrap last) by done.
  destruct (Z.eqb_spec key (last + 1)) as [->|Hne]; simpl.
  - assert (Hmax' : keys = [] \/ last + 1 < GoInt.max_int).
    { destruct keys as [|k2 keys]; [by left|right].
      apply Forall_cons in HF as [Hk2 _]. apply Forall_cons in Hgt as [Hlt _].
      int_arith. }
    specialize (IH (last + 1) Hk Hmax' Hs HF).
    destruct (check_gaps keys (last + 1)) as [err|].
    + destruct IH as (pre & k & post & -> & Hpre & Hkne & ->).
      exists ((last + 1) :: pre), k, post. simpl.
      split; [done|]. split; [by rewrite <- Hpre|]. split; [lia|].
      f_equal. lia.
    + by rewrite <- IH.
  - exists [], key, keys. simpl. rewrite Z.add_0_r. done.
Qed.

(** Every discovered migration is filed under its own version, an int
    other than 0. *)
Lemma discover_keys fs root directories : forall migs0 migs,
  discover fs root directories migs0 = Returns (inr migs) ->
  (forall k m, migs0 !! k = Some m -> Version m = k /\ GoInt.is_int k /\ k <> 0) ->
  forall k m, migs !! k = Some m -> Version m = k /\ GoInt.is_int k /\ k <> 0.
Proof.
  induction directories as [|d ds IH]; intros migs0 migs H H0; simpl in H.
  - by simplify_eq.
  - destruct (entry_IsDir d); simpl in H; [|by eapply IH].
    destruct (NewMigration fs (Join fs root (entry_Name d))) as [[e|mig]|p] eqn:HN;
      try done.
    eapply IH; [exact H|].
    intros k m [[<- <-]|[_ Hk]]%lookup_insert_Some; [|by eauto].
    destruct (proj2 (NewMigration_name fs (Join fs root (entry_Name d))) _ HN)
      as (Hv & _).
    apply parse_version_accepts in Hv as (lit & _ & _ & ? & ?). done.
Qed.

Lemma discovered_keys_int fs root directories (migs : gmap Z Migration) :
  discover fs root directories ∅ = Returns (inr migs) ->
  Forall GoInt.is_int (sorted_keys migs).
Proof.
  intros Hdisc. apply Forall_forall. intros k [m Hm]%elem_of_sorted_keys.
  destruct (discover_keys _ _ _ _ _ Hdisc) with (k := k) (m := m)
    as (_ & Hi & _); [by intros ? ? ?%lookup_empty_Some|done|done].
Qed.

(** What NewInstance returns once discovery has found some migrations. *)
Lemma NewInstance_discovered {DB Tx} (drv : Driver DB Tx) fs st st' root directories
    (migs : gmap Z Migration) :
  meta_New drv st = (st', None) ->
  fs_ReadDir fs root = inr directories ->
  discover fs root directories ∅ = Returns (inr migs) ->
  migs <> ∅ ->
  NewInstance drv fs (Some st) root
  = (Some st', Returns (match check_gaps (sorted_keys migs) 0 with
                        | Some err => inl err
                        | None => inr {| migrations := migs |}
                        end)).
Proof.
  intros Hmeta Hread Hdisc Hne. unfold NewInstance. rewrite Hmeta, Hread, Hdisc.
  destruct (Nat.eqb_spec (size migs) 0) as [Hz|_].
  { by apply map_size_empty_iff in Hz. }
  by destruct (check_gaps (sorted_keys migs) 0).
Qed.

Lemma zero_is_int : GoInt.is_int 0.
Proof. int_arith. Qed.

Lemma zero_below_max_int : 0 < GoInt.max_int.
Proof. int_arith. Qed.

#[export] Hint Resolve zero_is_int zero_below_max_int : migrate.

(** The walk from 0 over ascending int keys passes exactly the lists
    1, 2, ..., n. *)
Lemma check_gaps_pass keys :
  StronglySorted Z.lt keys -> Forall GoInt.is_int keys ->
  check_gaps keys 0 = None <-> keys = countup 1 (length keys).
Proof.
  intros Hsorted Hints.
  pose proof (check_gaps_spec keys 0 zero_is_int (or_intror zero_below_max_int)
                Hsorted Hints) as Hspec.
  split.
  - intros Hnone. by rewrite Hnone in Hspec.
  - intros Hall. destruct (check_gaps keys 0) as [err|]; [|done].
    destruct Hspec as (pre & key & post & Hk & Hpre & Hkey & _). exfalso.
    assert (Hl : keys !! length pre = Some key).
    { rewrite Hk. by rewrite list_lookup_middle. }
    rewrite Hall, lookup_countup in Hl.
    + simplify_eq. lia.
    + rewrite Hk, length_app. simpl. lia.
Qed.

(** C8.  After discovery NewInstance sorts the versions in ascending order
    and walks them from an implicit version 0; the result is the instance
    when each version is its predecessor plus one, and otherwise the gap
    error for the first version that is not, naming the predecessor and that
    version; in particular a smallest version other than 1 gives the gap
    between 0 and that version. *)
Theorem new_instance_gap_check {DB Tx} (drv : Driver DB Tx) (fs : Filesystem)
    (st st' : DB) (root : string) (directories : list DirEntry)
    (migs : gmap Z Migration) :
  meta_New drv st = (st', None) ->
  fs_ReadDir fs root = inr directories ->
  discover fs root directories ∅ = Returns (inr migs) ->
  migs <> ∅ ->
  let keys := sorted_keys migs in
  StronglySorted Z.lt keys /\
  (forall k, k ∈ keys <-> is_Some (migs !! k)) /\
  NewInstance drv fs (Some st) root
  = (Some st', Returns (match check_gaps keys 0 with
                        | Some err => inl err
                        | None => inr {| migrations := migs |}
                        end)) /\
  (forall err, check_gaps keys 0 = Some err <->
     exists pre key post,
       keys = pre ++ key :: post /\ pre = countup 1 (length pre) /\
       key <> Z.of_nat (length pre) + 1 /\
       err = InstanceGap (Z.of_nat (length pre)) key) /\
  (check_gaps keys 0 = None <-> keys = countup 1 (length keys)) /\
  (forall k rest, keys = k :: rest -> k <> 1 ->
     check_gaps keys 0 = Some (InstanceGap 0 k)).
Proof.
  intros Hmeta Hread Hdisc Hne keys.
  assert (Hsorted : StronglySorted Z.lt keys) by apply sorted_keys_sorted.
  assert (Hints : Forall GoInt.is_int keys) by (by eapply discovered_keys_int).
  split; [done|]. split; [apply elem_of_sorted_keys|].
  split; [by apply (NewInstance_discovered _ _ _ _ _ directories)|]. split; [|split].
  - intros err. split.
    + intros Herr.
      pose proof (check_gaps_spec keys 0 zero_is_int (or_intror zero_below_max_int)
                    Hsorted Hints) as Hspec.
      rewrite Herr in Hspec.
      destruct Hspec as (pre & key & post & ? & ? & ? & ?). eauto 10.
    + intros (pre & key & post & Hk & Hpre & Hkey & ->).
      rewrite Hk in Hsorted, Hints |- *.
      apply (check_gaps_violation pre 0 key post);
        auto with migrate.
  - by apply check_gaps_pass.
  - intros k rest Hk Hk1.
    rewrite Hk in Hsorted, Hints |- *.
    apply (check_gaps_violation [] 0 k rest);
      auto with migrate.
Qed.

Lemma new_instance_gap_check_witness :
  NewInstance Sim.good_driver Sim.gap (Some Sim.empty_db) "migrate"
  = (Some Sim.empty_db, Returns (inl (InstanceGap 2 4))).
Proof.
  set (dirs := [Sim.dir "version_1"; Sim.dir "version_2"; Sim.dir "version_4"]).
  set (migs := match discover Sim.gap "migrate" dirs ∅ with
               | Returns (inr m) => m
               | _ => ∅
               end).
  assert (Hd : discover Sim.gap "migrate" dirs ∅ = Returns (inr migs))
    by (vm_compute; reflexivity).
  assert (Hne : migs <> ∅).
  { intros H. apply (f_equal size) in H. vm_compute in H. discriminate. }
  assert (Hc : check_gaps (sorted_keys migs) 0 = Some (InstanceGap 2 4))
    by (vm_compute; reflexivity).
  destruct (new_instance_gap_check Sim.good_driver Sim.gap Sim.empty_db Sim.empty_db
              "migrate" dirs migs eq_refl eq_refl Hd Hne) as (_ & _ & HN & _).
  rewrite Hc in HN. exact HN.
Defined.

(** ** Latest *)

Lemma latest_version_spec inst :
  0 <= latest_version inst /\
  (forall k m, migrations inst !! k = Some m -> Version m <= latest_version inst) /\
  (latest_version inst = 0 \/
   exists k m, migrations inst !! k = Some m /\ Version m = latest_version inst).
Proof.
  unfold latest_version.
  apply (map_fold_weak_ind
           (fun r (ms : gmap Z Migration) =>
              0 <= r /\
              (forall k m, ms !! k = Some m -> Version m <= r) /\
              (r = 0 \/ exists k m, ms !! k = Some m /\ Version m = r))).
  - split; [lia|]. split; [|by left]. intros k m H. by rewrite lookup_empty in H.
  - intros i x ms r Hi (Hr & Hle & Hmax).
    destruct (Z.gtb_spec (Version x) r) as [Hgt|Hngt].
    + split; [lia|]. split.
      * intros k m [[-> ->]|[_ Hk]]%lookup_insert_Some; [lia|].
        specialize (Hle _ _ Hk). lia.
      * right. exists i, x. by rewrite lookup_insert_eq.
    + split; [lia|]. split.
      * intros k m [[-> ->]|[_ Hk]]%lookup_insert_Some; [lia|]. eauto.
      * destruct Hmax as [->|(k & m & Hk & Hm)]; [by left|].
        right. exists k, m. split; [|done].
        rewrite lookup_insert_ne; [done|]. intros ->. congruence.
Qed.

(** What NewInstance lets through: the versions are 1..n for the number n
    of migrations, which is not 0, and each migration is filed under its
    own version. *)
Lemma NewInstance_versions {DB Tx} (drv : Driver DB Tx) fs db root st' inst :
  NewInstance drv fs db root = (st', Returns (inr inst)) ->
  (0 < size (migrations inst))%nat /\
  sorted_keys (migrations inst) = countup 1 (size (migrations inst)) /\
  (forall k m, migrations inst !! k = Some m -> Version m = k).
Proof.
  intros HN. destruct db as [st|]; [|by simplify_eq].
  destruct (meta_New drv st) as [st1 [e|]] eqn:Hmeta;
    [by unfold NewInstance in HN; rewrite Hmeta in HN; simplify_eq|].
  destruct (fs_ReadDir fs root) as [e|dirs] eqn:Hread;
    [by unfold NewInstance in HN; rewrite Hmeta, Hread in HN; simplify_eq|].
  destruct (discover fs root dirs ∅) as [[e|migs]|p] eqn:Hdisc;
    try (by unfold NewInstance in HN; rewrite Hmeta, Hread, Hdisc in HN; simplify_eq).
  destruct (decide (migs = ∅)) as [->|Hne].
  { unfold NewInstance in HN. rewrite Hmeta, Hread, Hdisc in HN.
    rewrite map_size_empty in HN. simpl in HN. by simplify_eq. }
  rewrite (NewInstance_discovered drv fs st st1 root dirs migs Hmeta Hread Hdisc Hne)
    in HN.
  destruct (check_gaps (sorted_keys migs) 0) as [err|] eqn:Hc; [by simplify_eq|].
  simplify_eq. simpl. split; [|split].
  - apply map_size_non_empty_iff in Hne. lia.
  - rewrite <- length_sorted_keys.
    apply check_gaps_pass; [apply sorted_keys_sorted| |done].
    by apply (discovered_keys_int fs root dirs).
  - intros k m Hk.
    destruct (discover_keys _ _ _ _ _ Hdisc) with (k := k) (m := m) as (? & _);
      [by intros ? ? ?%lookup_empty_Some|done|done].
Qed.

(** C10.  Latest takes as target the greatest Version among the migrations
    of the instance (counted from 0, so it is attained as soon as some
    version is positive, as in every instance NewInstance returns, where it
    is the number of migrations); when the target is not above the current
    version it returns ErrNoMigrations and leaves the world untouched,
    otherwise its result is the result of Goto(target). *)
Theorem latest_delegates {DB Tx} (drv : Driver DB Tx) (fuel : nat)
    (inst : Instance) (w : World DB) (currentVersion : Z) :
  Version_of drv (state w) = Returns currentVersion ->
  let target := latest_version inst in
  ((forall k m, migrations inst !! k = Some m -> Version m <= target) /\
   ((exists k m, migrations inst !! k = Some m /\ 0 < Version m) ->
    exists k m, migrations inst !! k = Some m /\ Version m = target) /\
   (forall fs db root st',
      NewInstance drv fs db root = (st', Returns (inr inst)) ->
      target = Z.of_nat (size (migrations inst)) /\
      exists m, migrations inst !! target = Some m /\ Version m = target)) /\
  (target <= currentVersion ->
   Latest drv fuel inst w
   = Some (w, Returns (Some (ErrNoMigrations (IsTheLatest currentVersion))))) /\
  (currentVersion < target ->
   Latest drv fuel inst w = Goto drv fuel inst target w).
Proof.
  intros HV target.
  destruct (latest_version_spec inst) as (H0 & Hle & Hmax). fold target in H0, Hle, Hmax.
  assert (Hattained : (exists k m, migrations inst !! k = Some m /\ 0 < Version m) ->
                      exists k m, migrations inst !! k = Some m /\ Version m = target).
  { intros (k & m & Hk & Hpos). destruct Hmax as [Hz|?]; [|done].
    specialize (Hle _ _ Hk). lia. }
  split; [split; [done|split; [done|]]|split].
  - intros fs db root st' HN.
    destruct (NewInstance_versions _ _ _ _ _ _ HN) as (Hsize & Hkeys & Hver).
    set (n := size (migrations inst)) in *.
    assert (Hin : forall k, is_Some (migrations inst !! k) <-> 1 <= k <= Z.of_nat n).
    { intros k. rewrite <- elem_of_sorted_keys, Hkeys. split.
      - intros ?%elem_of_countup. lia.
      - intros Hk. apply list_elem_of_lookup. exists (Z.to_nat (k - 1)).
        rewrite lookup_countup by lia. f_equal. lia. }
    destruct (proj2 (Hin 1) ltac:(lia)) as [m1 Hm1].
    destruct Hattained as (k & m & Hk & Hm).
    { exists 1, m1. split; [done|]. rewrite (Hver _ _ Hm1). lia. }
    pose proof (Hver _ _ Hk) as Hkv.
    assert (1 <= k <= Z.of_nat n) by (apply Hin; eauto).
    destruct (proj2 (Hin (Z.of_nat n)) ltac:(lia)) as [mn Hmn].
    pose proof (Hle _ _ Hmn) as Hn. rewrite (Hver _ _ Hmn) in Hn.
    assert (target = Z.of_nat n) by lia.
    split; [done|]. exists m. split; [|done]. by rewrite <- Hm, Hkv.
  - intros Hcur. unfold Latest. rewrite HV. fold target.
    by destruct (Z.leb_spec target currentVersion); [|lia].
  - intros Hcur. unfold Latest. rewrite HV. fold target.
    by destruct (Z.leb_spec target currentVersion); [lia|].
Qed.

Lemma latest_delegates_witness :
  latest_version Sim.inst3 = 3 /\
  Latest Sim.good_driver 4 Sim.inst3 (Sim.world_at 3)
  = Some (Sim.world_at 3, Returns (Some (ErrNoMigrations (IsTheLatest 3)))) /\
  Latest Sim.good_driver 4 Sim.inst3 (Sim.world_at 1)
  = Goto Sim.good_driver 4 Sim.inst3 3 (Sim.world_at 1).
Proof.
  assert (Hl : latest_version Sim.inst3 = 3) by (vm_compute; reflexivity).
  split; [exact Hl|]. split.
  - destruct (latest_delegates Sim.good_driver 4 Sim.inst3 (Sim.world_at 3) 3 eq_refl)
      as (_ & H & _).
    apply H. rewrite Hl. lia.
  - destruct (latest_delegates Sim.good_driver 4 Sim.inst3 (Sim.world_at 1) 1 eq_refl)
      as (_ & _ & H).
    rewrite Hl in H. apply H. lia.
Defined.

(** ** Part files *)

Lemma append_nil_r s : s +:+ EmptyString = s.
Proof. induction s as [|a s IH]; [done|]. by rewrite append_cons, IH. Qed.

Lemma append_assoc s1 s2 s3 : (s1 +:+ s2) +:+ s3 = s1 +:+ (s2 +:+ s3).
Proof.
  induction s1 as [|a s1 IH]; [by rewrite !append_nil_l|].
  by rewrite !append_cons, IH.
Qed.

Lemma submatch_shape text :
  regexPartDir_FindStringSubmatch text = []
  \/ regexPartDir_FindStringSubmatch text = [text; "up"]
  \/ regexPartDir_FindStringSubmatch text = [text; "down"].
Proof.
  unfold regexPartDir_FindStringSubmatch.
  destruct (GoString.strip_prefix "--" text) as [r|]; [|by left].
  destruct (GoString.strip_prefix "@migrate/" _) as [g|]; [|by left].
  destruct (String.eqb_spec g "up") as [->|_]; [by right; left|].
  destruct (String.eqb_spec g "down") as [->|_]; [by right; right|by left].
Qed.

Lemma scan_step_cases path st line :
  match marker line with
  | Some d =>
    scan_step path st line
    = inr {| upSQL := upSQL st; downSQL := downSQL st; which := d |}
  | None =>
    if is_content line then
      scan_step path st line
      = match which st with
        | 0 => inr {| upSQL := upSQL st +:+ GoString.TrimSpace line;
                      downSQL := downSQL st; which := which st |}
        | 1 => inr {| upSQL := upSQL st;
                      downSQL := downSQL st +:+ GoString.TrimSpace line;
                      which := which st |}
        | _ => inl (PartNoMarker path)
        end
    else scan_step path st line = inr st
  end.
Proof.
  unfold is_content, marker, scan_step.
  destruct (submatch_shape (GoString.TrimSpace line)) as [->|[->| ->]]; simpl; try done.
  by destruct (String.eqb _ "").
Qed.

Lemma contributions_cons target pre line rest :
  contributions target pre (line :: rest)
  = contribution target (last (omap marker pre)) line
    :: contributions target (pre ++ [line]) rest.
Proof.
  unfold contributions. rewrite imap_cons. simpl. rewrite app_nil_r. f_equal.
  apply imap_ext. intros i x _. simpl. by rewrite <- app_assoc.
Qed.

Lemma last_marker_snoc pre line :
  last (omap marker (pre ++ [line]))
  = match marker line with
    | Some d => Some d
    | None => last (omap marker pre)
    end.
Proof.
  rewrite omap_app, last_app. simpl. by destruct (marker line).
Qed.

Lemma marker_target line d : marker line = Some d -> d = TargetUp \/ d = TargetDown.
Proof.
  unfold marker.
  destruct (submatch_shape (GoString.TrimSpace line)) as [->|[->| ->]]; simpl;
    intros; simplify_eq; auto.
Qed.

(** The scan loop, started after the lines [pre] in a state that agrees
    with them, appends to each body the contributions of the lines it
    reads and ends on the target of the last marker. *)
Lemma scan_loop_accumulates path suf : forall pre st st',
  scan_loop path suf st = inr st' ->
  which st = default (-1) (last (omap marker pre)) ->
  upSQL st' = upSQL st +:+ concat_strings (contributions TargetUp pre suf) /\
  downSQL st' = downSQL st +:+ concat_strings (contributions TargetDown pre suf) /\
  which st' = default (-1) (last (omap marker (pre ++ suf))).
Proof.
  induction suf as [|line rest IH]; intros pre st st' Hloop Hwhich; simpl in Hloop.
  - simplify_eq. simpl. by rewrite !append_nil_r, app_nil_r.
  - destruct (scan_step path st line) as [e|st1] eqn:Hstep; [done|].
    rewrite !contributions_cons. simpl.
    replace (pre ++ line :: rest) with ((pre ++ [line]) ++ rest)
      by (by rewrite <- app_assoc).
    pose proof (scan_step_cases path st line) as Hcases.
    pose proof (last_marker_snoc pre line) as Hlast.
    unfold contribution.
    destruct (marker line) as [d|] eqn:Hm.
    + rewrite Hstep in Hcases. simplify_eq.
      destruct (IH (pre ++ [line]) _ _ Hloop) as (Hu & Hd & Hw); [by rewrite Hlast|].
      unfold is_content. rewrite Hm. simpl in *. by rewrite !append_nil_l.
    + destruct (is_content line) eqn:Hc; rewrite Hstep in Hcases.
      * destruct (last (omap marker pre)) as [a|] eqn:Hact; simpl in Hwhich.
        -- assert (a = TargetUp \/ a = TargetDown) as [-> | ->].
           { apply last_Some_elem_of in Hact. apply list_elem_of_omap in Hact
               as (l & _ & Hl). by eapply marker_target. }
           all: unfold TargetUp, TargetDown in *.
           ++ rewrite Hwhich in Hcases. simplify_eq.
              destruct (IH (pre ++ [line]) _ _ Hloop) as (Hu & Hd & Hw);
                [by rewrite Hlast|].
              simpl in *. rewrite Hu, Hd, Hw.
              by rewrite ?append_assoc, ?append_nil_l.
           ++ rewrite Hwhich in Hcases. simplify_eq.
              destruct (IH (pre ++ [line]) _ _ Hloop) as (Hu & Hd & Hw);
                [by rewrite Hlast|].
              simpl in *. rewrite Hu, Hd, Hw.
              by rewrite ?append_assoc, ?append_nil_l.
        -- rewrite Hwhich in Hcases. done.
      * simplify_eq.
        destruct (IH (pre ++ [line]) _ _ Hloop) as (Hu & Hd & Hw);
          [by rewrite Hlast|].
        simpl. by rewrite !append_nil_l.
Qed.

Lemma scan_step_error path st line err :
  scan_step path st line = inl err -> err = PartNoMarker path.
Proof.
  intros H. pose proof (scan_step_cases path st line) as Hc.
  destruct (marker line); [congruence|].
  destruct (is_content line); [|congruence].
  rewrite H in Hc. destruct (which st) as [|[| |]|]; congruence.
Qed.

(** The loop gets through exactly when every content line comes after a
    marker. *)
Lemma scan_loop_succeeds path suf : forall pre st,
  which st = default (-1) (last (omap marker pre)) ->
  (exists st', scan_loop path suf st = inr st') <->
  (forall i line, suf !! i = Some line -> is_content line = true ->
     is_Some (last (omap marker (pre ++ take i suf)))).
Proof.
  induction suf as [|line rest IH]; intros pre st Hwhich; simpl.
  - split; [by intros _ i line ?|eauto].
  - pose proof (scan_step_cases path st line) as Hcases.
    pose proof (last_marker_snoc pre line) as Hlast.
    assert (Hshift : forall P : nat -> string -> Prop,
              (forall i l, (line :: rest) !! i = Some l -> P i l)
              <-> P 0%nat line /\ forall i l, rest !! i = Some l -> P (S i) l).
    { intros P. split.
      - intros H. split; [by apply H|]. intros i l Hl. by apply H.
      - intros [H0 HS] [|i] l Hl; simpl in Hl; [by simplify_eq|by apply HS]. }
    rewrite (Hshift (fun i l => is_content l = true ->
                       is_Some (last (omap marker (pre ++ take i (line :: rest)))))).
    simpl. rewrite app_nil_r.
    assert (Hrest : forall st1,
              which st1 = default (-1) (last (omap marker (pre ++ [line]))) ->
              (exists st', scan_loop path rest st1 = inr st') <->
              (forall i l, rest !! i = Some l -> is_content l = true ->
                 is_Some (last (omap marker (pre ++ line :: take i rest))))).
    { intros st1 H1. rewrite (IH (pre ++ [line]) st1 H1).
      split; intros H i l Hl Hc; specialize (H i l Hl Hc);
        by rewrite <- app_assoc in *. }
    destruct (marker line) as [d|] eqn:Hm.
    + assert (Hnc : is_content line = false) by (unfold is_content; by rewrite Hm).
      rewrite Hcases. rewrite Hrest by (by rewrite Hlast).
      rewrite Hnc. split; [intros H; split; [done|exact H]|by intros [_ H]].
    + destruct (is_content line) eqn:Hc.
      * destruct (last (omap marker pre)) as [a|] eqn:Hact; simpl in Hwhich.
        -- assert (a = TargetUp \/ a = TargetDown) as [-> | ->].
           { apply last_Some_elem_of in Hact. apply list_elem_of_omap in Hact
               as (l & _ & Hl). by eapply marker_target. }
           all: unfold TargetUp, TargetDown in *; rewrite Hwhich in Hcases;
             rewrite Hcases; rewrite Hrest by (by rewrite Hlast);
             (split; [intros H; split; [by eauto|exact H]|by intros [_ H]]).
        -- rewrite Hwhich in Hcases. rewrite Hcases. split.
           ++ by intros [st' ?].
           ++ intros [H _]. by destruct (H eq_refl).
      * rewrite Hcases. rewrite Hrest by (by rewrite Hlast, Hwhich).
        split; [intros H; split; [done|exact H]|by intros [_ H]].
Qed.

Lemma active_after pre line rest :
  active (pre ++ line :: rest) (S (length pre))
  = match marker line with
    | Some d => Some d
    | None => active (pre ++ line :: rest) (length pre)
    end.
Proof.
  unfold active. rewrite take_app_length.
  replace (take (S (length pre)) (pre ++ line :: rest)) with (pre ++ [line]).
  - apply last_marker_snoc.
  - change (line :: rest) with ([line] ++ rest). rewrite app_assoc.
    rewrite take_app_length'; [done|]. rewrite length_app. simpl. lia.
Qed.

Lemma concat_strings_app l1 l2 :
  concat_strings (l1 ++ l2) = concat_strings l1 +:+ concat_strings l2.
Proof.
  induction l1 as [|s l1 IH]; simpl; [by rewrite append_nil_l|].
  by rewrite IH, append_assoc.
Qed.

Lemma accumulated_snoc target lines line :
  accumulated target (lines ++ [line])
  = accumulated target lines
    +:+ contribution target (active (lines ++ [line]) (length lines)) line.
Proof.
  unfold accumulated. rewrite imap_app, concat_strings_app. simpl.
  rewrite Nat.add_0_r, append_nil_r. f_equal. f_equal.
  apply imap_ext. intros i l Hl. unfold active.
  rewrite take_app_le; [done|]. apply lookup_lt_Some in Hl. lia.
Qed.

(** C7.  Parsing a part accumulates per direction: a marker line, wherever
    and however often it comes, selects the target for the lines after it;
    each further line appends its contribution to what the body already
    holds; the bodies of the part NewPart returns are the trimmed content
    lines under the up, respectively down, target, joined with nothing in
    between; and the file of the example parses to the bodies AB and C. *)
Theorem part_accumulation :
  (forall pre line rest,
     active (pre ++ line :: rest) (S (length pre))
     = match marker line with
       | Some d => Some d
       | None => active (pre ++ line :: rest) (length pre)
       end) /\
  (forall target lines line,
     accumulated target (lines ++ [line])
     = accumulated target lines
       +:+ contribution target (active (lines ++ [line]) (length lines)) line) /\
  (forall path lines,
     (exists st, scan_loop path lines scan_init = inr st) <->
     (forall i line, lines !! i = Some line -> is_content line = true ->
        is_Some (active lines i))) /\
  (forall path lines st,
     scan_loop path lines scan_init = inr st ->
     upSQL st = accumulated TargetUp lines /\
     downSQL st = accumulated TargetDown lines) /\
  (forall fs path p,
     NewPart fs path = Returns (inr p) ->
     exists f, fs_Open fs path = inr f /\
       Up p = accumulated TargetUp (Scanner.scan f).1 /\
       Down p = accumulated TargetDown (Scanner.scan f).1) /\
  (forall fs parts path parts',
     AddPart fs parts path = Returns (None, parts') ->
     exists f p, fs_Open fs path = inr f /\ parts' = parts ++ [p] /\
       Up p = accumulated TargetUp (Scanner.scan f).1 /\
       Down p = accumulated TargetDown (Scanner.scan f).1) /\
  (forall fs path,
     fs_Open fs path = inr {| file_bytes := marker_example; file_read_err := None;
                              file_close_err := None |} ->
     NewPart fs path
     = Returns (inr {| Part_Name := (GoString.Split path).2; Part_Path := path;
                       Up := "AB"; Down := "C" |})).
Proof.
  assert (Hacc : forall path lines st,
            scan_loop path lines scan_init = inr st ->
            upSQL st = accumulated TargetUp lines /\
            downSQL st = accumulated TargetDown lines).
  { intros path lines st H.
    destruct (scan_loop_accumulates path lines [] scan_init st H eq_refl)
      as (Hu & Hd & _).
    simpl in Hu, Hd. rewrite append_nil_l in Hu, Hd. done. }
  assert (Hnew : forall fs path p,
            NewPart fs path = Returns (inr p) ->
            exists f, fs_Open fs path = inr f /\
              Up p = accumulated TargetUp (Scanner.scan f).1 /\
              Down p = accumulated TargetDown (Scanner.scan f).1); last first.
  { split; [apply active_after|]. split; [apply accumulated_snoc|].
    split; [|split; [done|split; [done|split]]].
    - intros path lines. apply (scan_loop_succeeds path lines [] scan_init eq_refl).
    - intros fs parts path parts' H. unfold AddPart in H.
      destruct (NewPart fs path) as [[e|p]|pn] eqn:HN; simplify_eq.
      destruct (Hnew _ _ _ HN) as (f & ? & ? & ?). eauto 10.
    - intros fs path Hopen. unfold NewPart. rewrite Hopen. simpl.
      f_equal. }
  - intros fs path p H. unfold NewPart in H.
    destruct (fs_Open fs path) as [e|f]; [by simplify_eq|].
    exists f. split; [done|].
    destruct (file_close_err f); [done|]. simplify_eq.
    unfold parse_part in H. destruct (Scanner.scan f) as [lines serr]. simpl.
    destruct (scan_loop path lines scan_init) as [e|st] eqn:Hloop; [done|].
    destruct serr; [done|].
    destruct (which st =? -1); [done|].
    destruct (String.eqb (upSQL st) ""); [done|].
    destruct (String.eqb (downSQL st) ""); [done|].
    simplify_eq. simpl. by apply (Hacc path).
Qed.

(** * Further properties of the package *)

(** ** Output and calls of a run *)

Section Outputs.
Context {DB Tx : Type} (drv : Driver DB Tx).

Lemma part_count_cons ok r rs :
  part_count ok (r :: rs)
  = (if Bool.eqb (is_ok r.2) ok then 1 else 0) + part_count ok rs.
Proof.
  unfold part_count. simpl. destruct (Bool.eqb (is_ok r.2) ok); simpl; lia.
Qed.

Lemma part_count_total rs :
  part_count true rs + part_count false rs = Z.of_nat (length rs).
Proof.
  induction rs as [|[p [e|]] rs IH]; [done|..]; rewrite !part_count_cons; simpl; lia.
Qed.

Lemma part_count_succeeded rs :
  Forall succeeded rs -> part_count true rs = Z.of_nat (length rs).
Proof.
  induction 1 as [|[p e] rs Hr _ IH]; [done|]. unfold succeeded in Hr. simpl in Hr.
  subst e. rewrite part_count_cons, IH. simpl. lia.
Qed.

Lemma result_msg_succeeded rs :
  Forall succeeded rs ->
  map result_msg rs = map (fun p => MsgApplied (Part_Name p)) (map fst rs).
Proof.
  induction 1 as [|[p e] rs Hr _ IH]; [done|]. unfold succeeded in Hr. simpl in Hr.
  subst e. simpl. by rewrite IH.
Qed.

(** The two lists of the inner loop grow by the parts that applied and by
    those that failed. *)
Lemma apply_parts_counts direction parts : forall key applied failed_keys w,
  Z.of_nat (length (apply_parts drv direction parts key applied failed_keys w).1.1)
  = Z.of_nat (length applied)
    + part_count true (part_results drv direction parts (state w)).1 /\
  Z.of_nat (length (apply_parts drv direction parts key applied failed_keys w).1.2)
  = Z.of_nat (length failed_keys)
    + part_count false (part_results drv direction parts (state w)).1.
Proof.
  induction parts as [|p ps IH]; intros key applied failed_keys w; simpl.
  - unfold part_count. simpl. lia.
  - fold (body direction p).
    destruct (tx_Exec drv (state w) (body direction p)) as [tx' e] eqn:He.
    destruct e as [err|].
    + specialize (IH (key + 1) applied (failed_keys ++ [key])
                    (emit (MsgFailed (Part_Name p) err)
                       {| state := tx'; output := output w;
                          calls := calls w ++ [CallExec (body direction p) (is_ok (Some err))] |})).
      simpl in IH.
      destruct (part_results drv direction ps tx') as [rs tx'']. simpl in *.
      rewrite part_count_cons, part_count_cons. simpl.
      rewrite length_app in IH. simpl in IH. lia.
    + specialize (IH (key + 1) (applied ++ [key]) failed_keys
                    (emit (MsgApplied (Part_Name p))
                       {| state := tx'; output := output w;
                          calls := calls w ++ [CallExec (body direction p) (is_ok None)] |})).
      simpl in IH.
      destruct (part_results drv direction ps tx') as [rs tx'']. simpl in *.
      rewrite part_count_cons, part_count_cons. simpl.
      rewrite length_app in IH. simpl in IH. lia.
Qed.

Lemma todo_messages_cons direction cur key m todo :
  todo_messages direction cur key (m :: todo)
  = applied_messages direction (GoInt.add cur key) m
    ++ todo_messages direction cur (key + 1) todo.
Proof.
  unfold todo_messages. rewrite imap_cons. cbn [concat].
  change (Z.of_nat 0) with 0. rewrite Z.add_0_r. do 2 f_equal.
  apply imap_ext. intros k x _. simpl. do 2 f_equal. lia.
Qed.

#[local] Arguments todo_messages : simpl never.

(** The outer loop, in full: the world it leaves in either case. *)
Lemma apply_todo_full direction cur todo : forall key w,
  match apply_todo drv direction cur todo key w with
  | inl w' =>
    Forall succeeded (part_results drv direction (all_parts todo) (state w)).1 /\
    w' = {| state := (part_results drv direction (all_parts todo) (state w)).2;
            output := output w ++ todo_messages direction cur key todo;
            calls := calls w
                     ++ map (result_call direction)
                          (part_results drv direction (all_parts todo) (state w)).1 |}
  | inr w' =>
    exists pre m post,
      todo = pre ++ m :: post /\
      let before := part_results drv direction (all_parts pre) (state w) in
      let during := part_results drv direction (Parts m) before.2 in
      Forall succeeded before.1 /\ Exists failed during.1 /\
      w' = {| state := tx_Rollback drv during.2;
              output := output w ++ todo_messages direction cur key pre
                        ++ MsgBeginning direction
                             (GoInt.add cur (key + Z.of_nat (length pre))) (Version m)
                           :: map result_msg during.1
                        ++ [MsgPartsFailed (part_count false during.1)
                              (part_count true during.1)];
              calls := calls w ++ map (result_call direction) (before.1 ++ during.1)
                       ++ [CallRollback] |}
  end.
Proof.
  induction todo as [|m todo IH]; intros key w; simpl.
  - split; [constructor|]. unfold todo_messages, all_parts. simpl.
    rewrite !app_nil_r. by destruct w.
  - set (w1 := emit _ w).
    destruct (apply_parts_spec drv direction (Parts m) 0 [] [] w1)
      as (a' & f' & Heq & Hlen & _).
    pose proof (apply_parts_counts direction (Parts m) 0 [] [] w1) as [Ha Hf].
    rewrite Heq in Ha, Hf |- *. clear Heq. simpl in Hlen, Ha, Hf.
    destruct (Nat.ltb_spec 0 (length f')) as [Hpos|Hzero].
    + exists [], m, todo. simpl. split; [done|]. split; [constructor|]. split.
      * apply not_Forall_Exists; [intros r; unfold succeeded; apply _|].
        intros HF. apply Hlen in HF. lia.
      * unfold todo_messages. simpl. rewrite Z.add_0_r, Ha, Hf.
        f_equal; rewrite <- !app_assoc; simpl; try done.
    + assert (Hok : Forall succeeded (part_results drv direction (Parts m) (state w)).1)
        by (apply Hlen; lia).
      match goal with |- context [apply_todo _ _ _ _ ?k ?w2] =>
        specialize (IH k w2); destruct (apply_todo drv direction cur todo k w2)
          as [w'|w'] end; simpl in IH.
      * destruct IH as (HF & ->).
        unfold all_parts. simpl. fold (all_parts todo).
        rewrite part_results_app.
        pose proof (part_results_fst drv direction (Parts m) (state w)) as Hfst.
        destruct (part_results drv direction (Parts m) (state w)) as [rs1 tx1]; simpl in *.
        destruct (part_results drv direction (all_parts todo) tx1) as [rs2 tx2]; simpl in *.
        split; [by apply Forall_app|].
        rewrite todo_messages_cons. unfold applied_messages.
        rewrite Ha, (part_count_succeeded _ Hok), (result_msg_succeeded _ Hok), Hfst.
        rewrite <- Hfst at 3. rewrite length_map.
        f_equal; rewrite ?map_app, <- ?app_assoc; simpl; rewrite <- ?app_assoc; done.
      * destruct IH as (pre & m' & post & -> & HF & HE & ->).
        exists (m :: pre), m', post. rewrite todo_messages_cons.
        simpl. split; [done|].
        unfold all_parts. simpl. fold (all_parts pre).
        rewrite part_results_app.
        pose proof (part_results_fst drv direction (Parts m) (state w)) as Hfst.
        destruct (part_results drv direction (Parts m) (state w)) as [rs1 tx1]; simpl in *.
        destruct (part_results drv direction (all_parts pre) tx1) as [rs2 tx2]; simpl in *.
        split; [by apply Forall_app|]. split; [done|].
        unfold applied_messages.
        rewrite Ha, (part_count_succeeded _ Hok), (result_msg_succeeded _ Hok), Hfst.
        rewrite <- Hfst at 3. rewrite length_map.
        replace (key + 1 + Z.of_nat (length pre)) with (key + Z.of_nat (S (length pre)))
          by lia.
        f_equal; rewrite ?map_app, <- ?app_assoc; simpl; rewrite <- ?app_assoc; done.
Qed.

End Outputs.

(** ** Every call of Goto, in full *)

Lemma preparing_world {S} jump (w : World S) :
  (if jump >? 1 then emit (MsgPreparing jump) w else w)
  = {| state := state w; output := output w ++ preparing jump; calls := calls w |}.
Proof.
  unfold preparing. destruct (jump >? 1); [done|]. rewrite app_nil_r. by destruct w.
Qed.

(** The errors of planning: the target is the current version, or a
    migration on the way is missing. *)
Lemma todo_up_error fuel inst version : forall i todo err,
  todo_up fuel inst version i todo = Some (inl err) ->
  exists j, err = ErrNoVersion j version /\ migrations inst !! j = None.
Proof.
  induction fuel as [|fuel IH]; intros i todo err H; simpl in H; [done|].
  destruct (i <=? version); [|done]. unfold addToTodo in H.
  destruct (migrations inst !! i) as [m|] eqn:Hm; [by eapply IH|].
  simplify_eq. eauto.
Qed.

Lemma todo_down_error fuel inst version : forall i todo err,
  todo_down fuel inst version i todo = Some (inl err) ->
  exists j, err = ErrNoVersion j version /\ migrations inst !! j = None.
Proof.
  induction fuel as [|fuel IH]; intros i todo err H; simpl in H; [done|].
  destruct (i >? version); [|done]. unfold addToTodo in H.
  destruct (migrations inst !! i) as [m|] eqn:Hm; [by eapply IH|].
  simplify_eq. eauto.
Qed.

Lemma plan_error fuel inst currentVersion version err :
  plan fuel inst currentVersion version = Some (inl err) ->
  (version = currentVersion /\ err = ErrNoMigrations (AlreadyOnVersion version))
  \/ (version <> currentVersion /\
      exists j, err = ErrNoVersion j version /\ migrations inst !! j = None).
Proof.
  unfold plan. intros H.
  destruct (Z.gtb_spec version currentVersion).
  - right. split; [lia|].
    destruct (todo_up fuel inst version _ []) as [[e|t]|] eqn:Hup; simplify_eq.
    by eapply todo_up_error.
  - destruct (Z.ltb_spec version currentVersion).
    + right. split; [lia|].
      destruct (todo_down fuel inst version _ []) as [[e|t]|] eqn:Hdown; simplify_eq.
      by eapply todo_down_error.
    + left. simplify_eq. split; [lia|done].
Qed.


Section GotoWorlds.
Context {DB Tx : Type} (drv : Driver DB Tx).

(** The world and the result of a call whose plan is made, by what Begin,
    the statements, Commit and Set answer. *)
Lemma Goto_planned fuel inst version w currentVersion todo direction jump :
  Version_of drv (state w) = Returns currentVersion ->
  plan fuel inst currentVersion version = Some (inr (todo, direction, jump)) ->
  exists w' r,
    Goto drv fuel inst version w = Some (w', r) /\
    planned_run drv direction todo version currentVersion jump w w' r.
Proof.
  intros HV Hplan. unfold planned_run, Goto. rewrite HV, Hplan, preparing_world. simpl.
  destruct (db_Begin drv (state w)) as [err|tx] eqn:Hbegin.
  { eexists _, _. split; [reflexivity|]. done. }
  match goal with |- context [apply_todo drv direction currentVersion todo 0 ?w2] =>
    pose proof (apply_todo_full drv direction currentVersion todo 0 w2) as Hfull;
    destruct (apply_todo drv direction currentVersion todo 0 w2) as [w3|w3] end;
    simpl in Hfull.
  - destruct Hfull as (HF & ->). simpl.
    destruct (tx_Commit drv (part_results drv direction (all_parts todo) tx).2)
      as [db [cerr|]] eqn:Hcommit; simpl.
    + eexists _, _. split; [reflexivity|]. left. split; [done|].
      exists [], db. rewrite !app_nil_r, <- !app_assoc. done.
    + destruct (meta_Set drv db "migrateVersion" version) as [db' [serr|]] eqn:Hset; simpl.
      * eexists _, _. split; [reflexivity|]. left. split; [done|].
        exists [], db'. rewrite !app_nil_r, <- !app_assoc. simpl. done.
      * eexists _, _. split; [reflexivity|]. left. split; [done|].
        exists [MsgSuccess], db'. unfold emit. simpl. rewrite <- !app_assoc. simpl. done.
  - destruct Hfull as (pre & m & post & -> & HF & HE & ->).
    eexists _, _. split; [reflexivity|]. right. split; [done|].
    exists pre, m, post. split; [done|]. simpl. split; [done|]. split; [done|].
    rewrite <- !app_assoc. simpl. done.
Qed.

End GotoWorlds.

Lemma Goto_inv_planned {DB Tx} (drv : Driver DB Tx) fuel inst version w w' r :
  Goto drv fuel inst version w = Some (w', r) ->
  (w' = w /\ exists p, Version_of drv (state w) = Panics p /\ r = Panics p)
  \/ (exists currentVersion,
        Version_of drv (state w) = Returns currentVersion /\
        ((w' = w /\ exists err,
            plan fuel inst currentVersion version = Some (inl err) /\
            r = Returns (Some err))
         \/ (exists todo direction jump,
               plan fuel inst currentVersion version = Some (inr (todo, direction, jump)) /\
               planned_run drv direction todo version currentVersion jump w w' r))).
Proof.
  intros HG.
  destruct (Version_of drv (state w)) as [cur|p] eqn:HV.
  - right. exists cur. split; [done|].
    destruct (plan fuel inst cur version) as [[err|[[todo direction] jump]]|] eqn:Hplan.
    + left. rewrite (Goto_planned_error _ _ _ _ _ _ _ HV Hplan) in HG. simplify_eq. eauto.
    + right. destruct (Goto_planned drv _ _ _ _ _ _ _ _ HV Hplan) as (w2 & r2 & HG2 & Hrun).
      rewrite HG2 in HG. simplify_eq. eauto 10.
    + unfold Goto in HG. by rewrite HV, Hplan in HG.
  - left. unfold Goto in HG. rewrite HV in HG. simplify_eq. eauto.
Qed.

Lemma after_begin_results version direction rs : forall all_ok tail,
  after_begin version all_ok (map (result_call direction) rs ++ tail)
  = after_begin version (all_ok && forallb (fun r => is_ok r.2) rs) tail.
Proof.
  induction rs as [|r rs IH]; intros all_ok tail; simpl.
  - by rewrite andb_true_r.
  - rewrite IH. by rewrite andb_assoc.
Qed.

Lemma forallb_succeeded (rs : list (Part * option error)) :
  Forall succeeded rs -> forallb (fun r => is_ok r.2) rs = true.
Proof.
  induction 1 as [|[p e] rs Hr _ IH]; [done|]. unfold succeeded in Hr. simpl in *.
  by subst e.
Qed.

Lemma forallb_failed (rs : list (Part * option error)) :
  Exists failed rs -> forallb (fun r => is_ok r.2) rs = false.
Proof.
  induction 1 as [[p e] rs Hr|[p e] rs _ IH]; simpl.
  - unfold failed in Hr. simpl in Hr. by destruct e.
  - rewrite IH. apply andb_false_r.
Qed.

Lemma part_count_failed rs : Exists failed rs -> 0 < part_count false rs.
Proof.
  induction 1 as [[p e] rs Hr|[p e] rs _ IH]; rewrite part_count_cons.
  - unfold failed in Hr. simpl in Hr. destruct e; [|done]. simpl.
    unfold part_count. lia.
  - destruct (Bool.eqb _ _); lia.
Qed.

Lemma last_run {A} (x : A) l y : last (x :: l ++ [y]) = Some y.
Proof. change (x :: l ++ [y]) with ((x :: l) ++ [y]). apply last_snoc. Qed.

Lemma last_run2 {A} (x : A) l y z : last (x :: l ++ [y; z]) = Some z.
Proof.
  change (x :: l ++ [y; z]) with ((x :: l) ++ [y] ++ [z]).
  rewrite app_assoc. apply last_snoc.
Qed.

(** ** The calls Goto makes *)

(** X1. Every call of Goto only adds to the log and to the output; what it
    adds to the log is nothing, or a failed Begin, or one transaction: Begin,
    statements, then Rollback after a failed statement or Commit after none,
    and the Set of the target after a successful Commit only. It returns nil
    exactly when that Set succeeded, and the applying error exactly when it
    rolled back; when it made no call it changed nothing. *)
Theorem goto_call_protocol {DB Tx} (drv : Driver DB Tx) (fuel : nat)
    (inst : Instance) (version : Z) (w w' : World DB) (r : outcome (option error)) :
  Goto drv fuel inst version w = Some (w', r) ->
  exists cs out,
    calls w' = calls w ++ cs /\ output w' = output w ++ out /\
    protocol version cs = true /\
    (cs = [] -> w' = w) /\
    (r = Returns None <-> last cs = Some (CallSet "migrateVersion" version true)) /\
    (r = Returns (Some GotoApplying) <-> last cs = Some CallRollback).
Proof.
  intros HG.
  destruct (Goto_inv_planned drv _ _ _ _ _ _ HG)
    as [[-> (p & _ & ->)]
       |(cur & HV & [[-> (err & Hplan & ->)]|(todo & direction & jump & Hplan & Hrun)])].
  - exists [], []. rewrite !app_nil_r. repeat split; try done.
  - exists [], []. rewrite !app_nil_r. repeat split; try done.
    intros [= ->]. apply plan_error in Hplan as [[_ ?]|[_ (j & ? & _)]]; done.
  - unfold planned_run in Hrun.
    destruct (db_Begin drv (state w)) as [err|tx].
    { destruct Hrun as [-> ->]. eexists _, _. simpl. repeat split; try done. }
    destruct Hrun as [(HF & tail & db & -> & Hr)|(-> & pre & m & post & -> & HF & HE & ->)];
      simpl in *.
    + eexists _, _. split; [reflexivity|]. split; [reflexivity|].
      unfold protocol.
      rewrite after_begin_results, (forallb_succeeded _ HF). simpl.
      destruct (tx_Commit drv _) as [db1 [cerr|]]; simpl in *.
      * destruct Hr as (-> & -> & ->). rewrite last_run.
        repeat split; try done.
      * destruct Hr as (-> & Hr).
        destruct (meta_Set drv db1 "migrateVersion" version) as [db2 [serr|]]; simpl in *;
          destruct Hr as (-> & ->); rewrite last_run2;
          rewrite Z.eqb_refl; repeat split; try done.
    + eexists _, _. split; [reflexivity|]. split; [reflexivity|].
      unfold protocol.
      rewrite after_begin_results, forallb_app, (forallb_succeeded _ HF),
        (forallb_failed _ HE). simpl.
      rewrite last_run. repeat split; try done.
Qed.

(** ** Results that leave the world untouched *)

Lemma Goto_same {DB Tx} (drv : Driver DB Tx) fuel inst w currentVersion :
  Version_of drv (state w) = Returns currentVersion ->
  Goto drv fuel inst currentVersion w
  = Some (w, Returns (Some (ErrNoMigrations (AlreadyOnVersion currentVersion)))).
Proof.
  intros HV. apply (Goto_planned_error drv _ _ _ _ currentVersion); [done|].
  unfold plan. destruct (Z.gtb_spec currentVersion currentVersion); [lia|].
  destruct (Z.ltb_spec currentVersion currentVersion); [lia|done].
Qed.

(** X2. Goto onto the current version returns ErrNoMigrations and does
    nothing, and that is the only way Goto returns ErrNoMigrations. *)
Theorem goto_same_version {DB Tx} (drv : Driver DB Tx) (fuel : nat)
    (inst : Instance) (w : World DB) (currentVersion : Z) :
  Version_of drv (state w) = Returns currentVersion ->
  Goto drv fuel inst currentVersion w
  = Some (w, Returns (Some (ErrNoMigrations (AlreadyOnVersion currentVersion)))) /\
  (forall version w' msg,
     Goto drv fuel inst version w = Some (w', Returns (Some (ErrNoMigrations msg))) ->
     version = currentVersion /\ w' = w /\ msg = AlreadyOnVersion currentVersion).
Proof.
  intros HV. split; [by apply Goto_same|].
  intros version w' msg HG.
  destruct (Goto_inv_planned drv _ _ _ _ _ _ HG)
    as [[_ (p & _ & ?)]
       |(cur & HV' & [[-> (err & Hplan & Herr)]|(todo & direction & jump & Hplan & Hrun)])];
    [done| |].
  - rewrite HV in HV'. simplify_eq.
    apply plan_error in Hplan as [[-> [= ->]]|[_ (j & ? & _)]]; done.
  - exfalso. unfold planned_run in Hrun.
    destruct (db_Begin drv (state w)) as [err|tx]; [by destruct Hrun|].
    destruct Hrun as [(_ & tail & db & _ & Hr)|(? & _)]; [|done].
    destruct (tx_Commit drv _).2; [by destruct Hr|]. destruct Hr as [_ Hr].
    destruct (meta_Set drv _ _ _).2; by destruct Hr.
Qed.

Lemma goto_same_version_witness :
  Goto Sim.good_driver 0 Sim.inst3 3 (Sim.world_at 3)
  = Some (Sim.world_at 3, Returns (Some (ErrNoMigrations (AlreadyOnVersion 3)))).
Proof.
  exact (proj1 (goto_same_version Sim.good_driver 0 Sim.inst3 (Sim.world_at 3) 3 eq_refl)).
Defined.

(** X3. Version returns the int the ledger holds under "migrateVersion", and 0
    when it holds none. Goto and Latest panic exactly when Version does: the
    ledger cannot be read, or holds something that is no int. The panic is
    that of Version and nothing has been planned, begun or written. *)
Theorem goto_panics_with_version {DB Tx} (drv : Driver DB Tx) (fuel : nat)
    (inst : Instance) (version : Z) (w : World DB) :
  (forall w' p,
     Goto drv fuel inst version w = Some (w', Panics p) <->
     Version_of drv (state w) = Panics p /\ w' = w) /\
  (forall w' p,
     Latest drv fuel inst w = Some (w', Panics p) <->
     Version_of drv (state w) = Panics p /\ w' = w) /\
  (forall p, Version_of drv (state w) = Panics p <->
     match meta_Get drv (state w) "migrateVersion" with
     | GetError err => p = PanicVersion err
     | GetOther => p = PanicTypeAssertion
     | _ => False
     end) /\
  (forall v, Version_of drv (state w) = Returns v <->
     match meta_Get drv (state w) "migrateVersion" with
     | GetInt u => v = u
     | GetNoEntry => v = 0
     | _ => False
     end).
Proof.
  assert (HGoto : forall version w' p,
            Goto drv fuel inst version w = Some (w', Panics p) <->
            Version_of drv (state w) = Panics p /\ w' = w).
  { intros v w' p. split.
    - intros HG.
      destruct (Goto_inv_planned drv _ _ _ _ _ _ HG)
        as [[-> (p' & HV & [= ->])]
           |(cur & HV & [[_ (err & _ & ?)]|(todo & direction & jump & Hplan & Hrun)])];
        [done|done|].
      exfalso. unfold planned_run in Hrun.
      destruct (db_Begin drv (state w)) as [err|tx]; [by destruct Hrun|].
      destruct Hrun as [(_ & tail & db & _ & Hr)|(? & _)]; [|done].
      destruct (tx_Commit drv _).2; [by destruct Hr|]. destruct Hr as [_ Hr].
      destruct (meta_Set drv _ _ _).2; by destruct Hr.
    - intros [HV ->]. unfold Goto. by rewrite HV. }
  split; [apply HGoto|]. split; [|split].
  - intros w' p. unfold Latest.
    destruct (Version_of drv (state w)) as [cur|p'] eqn:HV.
    + destruct (latest_version inst <=? cur); [by split; [|intros []]|].
      apply HGoto.
    + split; [by intros [= -> ->]|by intros [[= ->] ->]].
  - intros p. unfold Version_of.
    destruct (meta_Get drv (state w) "migrateVersion"); split; intros H;
      try done; congruence.
  - intros v. unfold Version_of.
    destruct (meta_Get drv (state w) "migrateVersion"); split; intros H;
      try done; congruence.
Qed.

Lemma goto_call_protocol_witness :
  exists w' cs,
    Goto Sim.good_driver 4 Sim.inst3 3 (Sim.world Sim.empty_db) = Some (w', Returns None) /\
    calls w' = cs /\ protocol 3 cs = true /\
    last cs = Some (CallSet "migrateVersion" 3 true).
Proof.
  set (w := Sim.world Sim.empty_db).
  set (w' := match Goto Sim.good_driver 4 Sim.inst3 3 w with
             | Some (w', _) => w'
             | None => w
             end).
  assert (HG : Goto Sim.good_driver 4 Sim.inst3 3 w = Some (w', Returns None))
    by (vm_compute; reflexivity).
  destruct (goto_call_protocol Sim.good_driver 4 Sim.inst3 3 w w' (Returns None) HG)
    as (cs & out & Hc & _ & Hp & _ & Hr & _).
  exists w', cs. split; [exact HG|]. split; [exact Hc|]. split; [exact Hp|].
  exact (proj1 Hr eq_refl).
Defined.

(** ** What Goto writes *)

Lemma plan_jump fuel inst currentVersion version todo direction jump :
  plan fuel inst currentVersion version = Some (inr (todo, direction, jump)) ->
  jump = GoInt.sub (Z.max version currentVersion) (Z.min version currentVersion).
Proof.
  unfold plan. intros H.
  destruct (Z.gtb_spec version currentVersion).
  - destruct (todo_up fuel inst version _ []) as [[e|t]|]; simplify_eq.
    by rewrite Z.max_l, Z.min_r by lia.
  - destruct (Z.ltb_spec version currentVersion); [|done].
    destruct (todo_down fuel inst version _ []) as [[e|t]|]; simplify_eq.
    by rewrite Z.max_r, Z.min_l by lia.
Qed.

(** X4. A call of Goto that returns nil has written: the Preparing line when
    the distance to the target exceeds 1; then for each migration of the plan,
    in plan order, a Beginning line whose "from" is the current version plus
    the index of the migration in the plan (also when the direction is down)
    and whose "to" is the version of the migration, an Applied line for each
    of its parts, and the number of its parts; then the closing line. *)
Theorem goto_success_output {DB Tx} (drv : Driver DB Tx) (fuel : nat)
    (inst : Instance) (version currentVersion : Z) (w w' : World DB)
    (todo : list Migration) (direction : string) (jump : Z) :
  Version_of drv (state w) = Returns currentVersion ->
  plan fuel inst currentVersion version = Some (inr (todo, direction, jump)) ->
  Goto drv fuel inst version w = Some (w', Returns None) ->
  jump = GoInt.sub (Z.max version currentVersion) (Z.min version currentVersion) /\
  output w'
  = output w
    ++ (if jump >? 1 then [MsgPreparing jump] else [])
    ++ concat (imap (fun k m =>
                       MsgBeginning direction
                         (GoInt.add currentVersion (Z.of_nat k)) (Version m)
                       :: map (fun p => MsgApplied (Part_Name p)) (Parts m)
                       ++ [MsgSuccessParts (Z.of_nat (length (Parts m)))]) todo)
    ++ [MsgSuccess].
Proof.
  intros HV Hplan HG. split; [by eapply plan_jump|].
  destruct (Goto_planned drv _ _ _ _ _ _ _ _ HV Hplan) as (w2 & r2 & HG2 & Hrun).
  rewrite HG2 in HG. simplify_eq. unfold planned_run in Hrun.
  destruct (db_Begin drv (state w)) as [err|tx]; [by destruct Hrun|].
  destruct Hrun as [(_ & tail & db & -> & Hr)|(? & _)]; [|done].
  destruct (tx_Commit drv _).2; [by destruct Hr|]. destruct Hr as [_ Hr].
  destruct (meta_Set drv _ _ _).2; destruct Hr as [? ->]; [done|]. simpl.
  done.
Qed.

Lemma goto_success_output_witness :
  exists w',
    Goto Sim.good_driver 4 Sim.inst3 0 (Sim.world_at 3) = Some (w', Returns None) /\
    output w'
    = [MsgPreparing 3;
       MsgBeginning "down" 3 2; MsgApplied "a.sql"; MsgApplied "b.sql"; MsgSuccessParts 2;
       MsgBeginning "down" 4 1; MsgApplied "a.sql"; MsgSuccessParts 1;
       MsgSuccess].
Proof.
  set (w := Sim.world_at 3).
  set (w' := match Goto Sim.good_driver 4 Sim.inst3 0 w with
             | Some (w', _) => w'
             | None => w
             end).
  assert (HG : Goto Sim.good_driver 4 Sim.inst3 0 w = Some (w', Returns None))
    by (vm_compute; reflexivity).
  assert (Hplan : plan 4 Sim.inst3 3 0 = Some (inr ([Sim.m2; Sim.m1], "down", 3)))
    by (vm_compute; reflexivity).
  exists w'. split; [exact HG|].
  destruct (goto_success_output Sim.good_driver 4 Sim.inst3 0 3 w w' [Sim.m2; Sim.m1]
              "down" 3 eq_refl Hplan HG) as [_ Hout].
  rewrite Hout. vm_compute. reflexivity.
Defined.

(** X5. A call of Goto that returns the applying error has written the lines
    of the migrations that applied, then for the migration with the failed
    part its Beginning line, one line for each of its parts, applied or
    failed, and the summary, whose two counts are the failed and the applied
    parts of this migration alone: they add up to the number of its parts, and
    the parts of the migrations before it, which the rollback undoes as well,
    are not among them. *)
Theorem goto_failure_output {DB Tx} (drv : Driver DB Tx) (fuel : nat)
    (inst : Instance) (version currentVersion : Z) (w w' : World DB)
    (todo : list Migration) (direction : string) (jump : Z) :
  Version_of drv (state w) = Returns currentVersion ->
  plan fuel inst currentVersion version = Some (inr (todo, direction, jump)) ->
  Goto drv fuel inst version w = Some (w', Returns (Some GotoApplying)) ->
  exists tx pre m post,
    db_Begin drv (state w) = inr tx /\ todo = pre ++ m :: post /\
    let before := part_results drv direction (all_parts pre) tx in
    let during := part_results drv direction (Parts m) before.2 in
    Forall succeeded before.1 /\ Exists failed during.1 /\
    output w'
    = output w ++ preparing jump ++ todo_messages direction currentVersion 0 pre
      ++ MsgBeginning direction (GoInt.add currentVersion (Z.of_nat (length pre)))
           (Version m)
         :: map result_msg during.1
      ++ [MsgPartsFailed (part_count false during.1) (part_count true during.1)] /\
    0 < part_count false during.1 /\
    part_count false during.1 + part_count true during.1 = Z.of_nat (length (Parts m)).
Proof.
  intros HV Hplan HG.
  destruct (Goto_planned drv _ _ _ _ _ _ _ _ HV Hplan) as (w2 & r2 & HG2 & Hrun).
  rewrite HG2 in HG. simplify_eq. unfold planned_run in Hrun.
  destruct (db_Begin drv (state w)) as [err|tx]; [by destruct Hrun|].
  destruct Hrun as [(_ & tail & db & _ & Hr)|(_ & pre & m & post & -> & HF & HE & ->)].
  { exfalso. destruct (tx_Commit drv _).2; [by destruct Hr|]. destruct Hr as [_ Hr].
    destruct (meta_Set drv _ _ _).2; by destruct Hr. }
  exists tx, pre, m, post. split; [done|]. split; [done|]. simpl.
  split; [done|]. split; [done|]. split; [done|]. split; [by apply part_count_failed|].
  pose proof (part_count_total
                (part_results drv direction (Parts m)
                   (part_results drv direction (all_parts pre) tx).2).1) as Ht.
  rewrite <- (part_results_fst drv direction (Parts m)
                (part_results drv direction (all_parts pre) tx).2) at 3.
  rewrite length_map. lia.
Qed.

Lemma goto_failure_output_witness :
  exists w' pre m post,
    Goto (Sim.driver (String.eqb "U2b") None None None) 4 Sim.inst3 3
      (Sim.world Sim.empty_db)
    = Some (w', Returns (Some GotoApplying)) /\
    [Sim.m1; Sim.m2; Sim.m3] = pre ++ m :: post /\
    output w'
    = [MsgPreparing 3;
       MsgBeginning "up" 0 1; MsgApplied "a.sql"; MsgSuccessParts 1;
       MsgBeginning "up" 1 2; MsgApplied "a.sql";
       MsgFailed "b.sql" (External "statement refused");
       MsgPartsFailed 1 1].
Proof.
  set (drv := Sim.driver (String.eqb "U2b") None None None).
  set (w := Sim.world Sim.empty_db).
  set (w' := match Goto drv 4 Sim.inst3 3 w with
             | Some (w', _) => w'
             | None => w
             end).
  assert (HG : Goto drv 4 Sim.inst3 3 w = Some (w', Returns (Some GotoApplying)))
    by (vm_compute; reflexivity).
  assert (Hplan : plan 4 Sim.inst3 0 3 = Some (inr ([Sim.m1; Sim.m2; Sim.m3], "up", 3)))
    by (vm_compute; reflexivity).
  destruct (goto_failure_output drv 4 Sim.inst3 3 0 w w' [Sim.m1; Sim.m2; Sim.m3]
              "up" 3 eq_refl Hplan HG) as (tx & pre & m & post & _ & Htodo & _).
  exists w', pre, m, post. split; [exact HG|]. split; [exact Htodo|].
  vm_compute. reflexivity.
Defined.

(** ** A successful call, repeated *)

Lemma planned_run_nil {DB Tx} (drv : Driver DB Tx) direction todo version
    currentVersion jump w w' :
  planned_run drv direction todo version currentVersion jump w w' (Returns None) ->
  exists db, meta_Set drv db "migrateVersion" version = (state w', None).
Proof.
  unfold planned_run. intros Hrun.
  destruct (db_Begin drv (state w)) as [err|tx]; [by destruct Hrun|].
  destruct Hrun as [(_ & tail & db & -> & Hr)|(? & _)]; [|done].
  destruct (tx_Commit drv _) as [db1 [cerr|]]; simpl in *; [by destruct Hr|].
  destruct Hr as [-> Hr]. exists db1.
  destruct (meta_Set drv db1 "migrateVersion" version) as [db2 [serr|]]; simpl in *;
    by destruct Hr.
Qed.

Lemma Goto_nil_recorded {DB Tx} (drv : Driver DB Tx) fuel inst version w w' :
  LedgerKeeps drv ->
  Goto drv fuel inst version w = Some (w', Returns None) ->
  Version_of drv (state w') = Returns version.
Proof.
  intros HK HG.
  destruct (Goto_inv_planned drv _ _ _ _ _ _ HG)
    as [[_ (p & _ & ?)]
       |(cur & HV & [[_ (err & _ & ?)]|(todo & direction & jump & Hplan & Hrun)])];
    [done|done|].
  apply planned_run_nil in Hrun as [db Hset].
  unfold Version_of. by rewrite (HK _ _ _ _ Hset).
Qed.

(** X6. On a ledger that keeps what is set, a call of Goto or Latest that
    returned nil has recorded its target: Version returns it, and the same
    call made again returns ErrNoMigrations and changes nothing. *)
Theorem successful_call_repeated {DB Tx} (drv : Driver DB Tx) (fuel : nat)
    (inst : Instance) (w w' : World DB) :
  LedgerKeeps drv ->
  (forall version,
     Goto drv fuel inst version w = Some (w', Returns None) ->
     Version_of drv (state w') = Returns version /\
     forall fuel',
       Goto drv fuel' inst version w'
       = Some (w', Returns (Some (ErrNoMigrations (AlreadyOnVersion version))))) /\
  (Latest drv fuel inst w = Some (w', Returns None) ->
   Version_of drv (state w') = Returns (latest_version inst) /\
   forall fuel',
     Latest drv fuel' inst w'
     = Some (w', Returns (Some (ErrNoMigrations (IsTheLatest (latest_version inst)))))).
Proof.
  intros HK. split.
  - intros version HG. pose proof (Goto_nil_recorded drv _ _ _ _ _ HK HG) as HV.
    split; [done|]. intros fuel'. by apply Goto_same.
  - intros HL. unfold Latest in HL.
    destruct (Version_of drv (state w)) as [cur|p]; [|done].
    destruct (latest_version inst <=? cur); [done|].
    pose proof (Goto_nil_recorded drv _ _ _ _ _ HK HL) as HV.
    split; [done|]. intros fuel'. unfold Latest. rewrite HV.
    by rewrite Z.leb_refl.
Qed.

Lemma successful_call_repeated_witness :
  exists w',
    Latest Sim.good_driver 4 Sim.inst3 (Sim.world Sim.empty_db) = Some (w', Returns None) /\
    Version_of Sim.good_driver (state w') = Returns 3 /\
    Latest Sim.good_driver 0 Sim.inst3 w'
    = Some (w', Returns (Some (ErrNoMigrations (IsTheLatest 3)))).
Proof.
  set (w := Sim.world Sim.empty_db).
  set (w' := match Latest Sim.good_driver 4 Sim.inst3 w with
             | Some (w', _) => w'
             | None => w
             end).
  assert (HL : Latest Sim.good_driver 4 Sim.inst3 w = Some (w', Returns None))
    by (vm_compute; reflexivity).
  exists w'. split; [exact HL|].
  destruct (successful_call_repeated Sim.good_driver 4 Sim.inst3 w w'
              (sim_ledger_keeps _ _ _ _)) as [_ H].
  destruct (H HL) as [HV Hagain].
  assert (Hl : latest_version Sim.inst3 = 3) by (vm_compute; reflexivity).
  rewrite Hl in HV, Hagain. split; [exact HV|apply Hagain].
Defined.

(** ** Commit and the ledger are two steps *)

Lemma planned_run_statements {DB Tx} (drv : Driver DB Tx) direction todo version
    currentVersion jump w w' r :
  planned_run drv direction todo version currentVersion jump w w' r ->
  exists n, (n <= length todo)%nat /\
    statements (new_calls w w') = map (body direction) (all_parts (take n todo)) /\
    (r = Returns None -> n = length todo) /\
    (forall tx, db_Begin drv (state w) = inr tx -> todo <> [] -> (0 < n)%nat).
Proof.
  unfold planned_run. intros Hrun.
  destruct (db_Begin drv (state w)) as [err|tx].
  { destruct Hrun as [-> ->]. exists 0%nat. split; [lia|].
    rewrite (new_calls_app _ _ [CallBegin false]) by done. done. }
  destruct Hrun as [(_ & tail & db & -> & Hr)|(-> & pre & m & post & -> & HF & HE & ->)].
  - exists (length todo). split; [lia|]. rewrite firstn_all. split; [|split; [done|]].
    + erewrite new_calls_app by reflexivity.
      rewrite statements_run; [by rewrite part_results_fst|].
      by destruct (tx_Commit drv _).2.
    + intros _ _ Hne. destruct todo; [done|simpl; lia].
  - exists (S (length pre)). split; [rewrite length_app; simpl; lia|].
    split; [|split; [done|intros; lia]].
    erewrite new_calls_app by reflexivity. rewrite statements_run by done.
    replace (take (S (length pre)) (pre ++ m :: post)) with (pre ++ [m]).
    + by rewrite all_parts_snoc, map_app, !part_results_fst.
    + change (m :: post) with ([m] ++ post). rewrite app_assoc.
      rewrite take_app_length'; [done|]. rewrite length_app. simpl. lia.
Qed.

(** X7. When every statement applied and the Commit succeeded but the Set of
    the version fails, Goto returns the error of the Set with the transaction
    committed: there is nothing left to roll back. If the ledger then still
    holds the old version, the next Goto to the same target makes the same
    plan and sends its statements again, from the first one on. *)
Theorem goto_set_failure_after_commit {DB Tx} (drv : Driver DB Tx) (fuel : nat)
    (inst : Instance) (version currentVersion : Z) (w : World DB)
    (todo : list Migration) (direction : string) (jump : Z)
    (tx : Tx) (db db' : DB) (err : error) :
  Version_of drv (state w) = Returns currentVersion ->
  plan fuel inst currentVersion version = Some (inr (todo, direction, jump)) ->
  db_Begin drv (state w) = inr tx ->
  Forall succeeded (part_results drv direction (all_parts todo) tx).1 ->
  tx_Commit drv (part_results drv direction (all_parts todo) tx).2 = (db, None) ->
  meta_Set drv db "migrateVersion" version = (db', Some err) ->
  exists w',
    Goto drv fuel inst version w = Some (w', Returns (Some (GotoSetVersion err))) /\
    state w' = db' /\
    new_calls w w'
    = [CallBegin true]
      ++ map (result_call direction) (part_results drv direction (all_parts todo) tx).1
      ++ [CallCommit true; CallSet "migrateVersion" version false] /\
    statements (new_calls w w') = map (body direction) (all_parts todo) /\
    (Version_of drv db' = Returns currentVersion ->
     exists w'' r n,
       Goto drv fuel inst version w' = Some (w'', r) /\
       (n <= length todo)%nat /\
       statements (new_calls w' w'') = map (body direction) (all_parts (take n todo)) /\
       (r = Returns None -> n = length todo) /\
       (forall tx2, db_Begin drv db' = inr tx2 -> todo <> [] -> (0 < n)%nat)).
Proof.
  intros HV Hplan Hbegin HF Hcommit Hset.
  destruct (Goto_planned drv _ _ _ _ _ _ _ _ HV Hplan) as (w' & r & HG & Hrun).
  unfold planned_run in Hrun. rewrite Hbegin in Hrun.
  destruct Hrun as [(_ & tail & db1 & -> & Hr)|(_ & pre & m & post & -> & _ & HE & _)].
  - rewrite Hcommit in Hr, HG. simpl in Hr, HG. rewrite Hset in Hr, HG. simpl in Hr, HG.
    destruct Hr as (-> & -> & ->).
    match type of HG with _ = Some (?w1, _) => set (w1' := w1) in * end.
    exists w1'. split; [exact HG|]. split; [done|].
    assert (Hcalls : calls w1'
                     = calls w ++ [CallBegin true]
                       ++ map (result_call direction)
                            (part_results drv direction (all_parts todo) tx).1
                       ++ [CallCommit true; CallSet "migrateVersion" version false])
      by done.
    rewrite (new_calls_app _ _ _ Hcalls). split; [done|].
    split; [rewrite statements_run by done; by rewrite part_results_fst|].
    intros HV'.
    destruct (Goto_planned drv fuel inst version w1' currentVersion todo direction jump
                HV' Hplan) as (w'' & r & HG' & Hrun').
    destruct (planned_run_statements _ _ _ _ _ _ _ _ _ Hrun')
      as (n & Hn & Hst & Hnil & Hpos).
    exists w'', r, n. done.
  - exfalso. rewrite part_results_split in HF.
    apply Forall_app in HF as [_ [HF _]%Forall_app].
    by eapply Exists_failed_not_all.
Qed.

Lemma goto_set_failure_after_commit_witness :
  exists w' w'',
    Goto (Sim.driver (fun _ => false) None None (Some (External "read-only ledger"))) 4
      Sim.inst3 2 (Sim.world Sim.empty_db)
    = Some (w', Returns (Some (GotoSetVersion (External "read-only ledger")))) /\
    Sim.executed (state w') = ["U1"; "U2a"; "U2b"] /\
    Goto Sim.good_driver 4 Sim.inst3 2 w' = Some (w'', Returns None) /\
    Sim.executed (state w'') = ["U1"; "U2a"; "U2b"; "U1"; "U2a"; "U2b"].
Proof.
  set (drv := Sim.driver (fun _ => false) None None (Some (External "read-only ledger"))).
  set (w := Sim.world Sim.empty_db).
  assert (Hplan : plan 4 Sim.inst3 0 2 = Some (inr ([Sim.m1; Sim.m2], "up", 2)))
    by (vm_compute; reflexivity).
  destruct (goto_set_failure_after_commit drv 4 Sim.inst3 2 0 w [Sim.m1; Sim.m2] "up" 2
              {| Sim.base := Sim.empty_db; Sim.pending := [] |}
              {| Sim.executed := ["U1"; "U2a"; "U2b"]; Sim.ledger := ∅ |}
              {| Sim.executed := ["U1"; "U2a"; "U2b"]; Sim.ledger := ∅ |}
              (External "read-only ledger")
              eq_refl Hplan eq_refl ltac:(repeat constructor) eq_refl eq_refl)
    as (w' & HG & Hst & _).
  exists w'.
  eexists. split; [exact HG|]. rewrite Hst. split; [reflexivity|].
  vm_compute in HG. injection HG as <-. split; vm_compute; reflexivity.
Defined.

(** ** Instances that NewInstance returns *)

Lemma NewInstance_inv {DB Tx} (drv : Driver DB Tx) fs db root st' inst :
  NewInstance drv fs db root = (st', Returns (inr inst)) ->
  exists st st1 directories,
    db = Some st /\ meta_New drv st = (st1, None) /\ st' = Some st1 /\
    fs_ReadDir fs root = inr directories /\
    discover fs root directories ∅ = Returns (inr (migrations inst)) /\
    migrations inst <> ∅ /\
    check_gaps (sorted_keys (migrations inst)) 0 = None.
Proof.
  intros HN. destruct db as [st|]; [|by simplify_eq].
  destruct (meta_New drv st) as [st1 [e|]] eqn:Hmeta;
    [by unfold NewInstance in HN; rewrite Hmeta in HN; simplify_eq|].
  destruct (fs_ReadDir fs root) as [e|dirs] eqn:Hread;
    [by unfold NewInstance in HN; rewrite Hmeta, Hread in HN; simplify_eq|].
  destruct (discover fs root dirs ∅) as [[e|migs]|p] eqn:Hdisc;
    try (by unfold NewInstance in HN; rewrite Hmeta, Hread, Hdisc in HN; simplify_eq).
  destruct (decide (migs = ∅)) as [->|Hne].
  { unfold NewInstance in HN. rewrite Hmeta, Hread, Hdisc in HN.
    rewrite map_size_empty in HN. simpl in HN. by simplify_eq. }
  rewrite (NewInstance_discovered drv fs st st1 root dirs migs Hmeta Hread Hdisc Hne)
    in HN.
  destruct (check_gaps (sorted_keys migs) 0) as [err|] eqn:Hc; [by simplify_eq|].
  simplify_eq. simpl. exists st, st1, dirs. done.
Qed.

(** Its versions are 1, ..., n for the number n of its migrations, each
    filed under its own version. *)
Lemma instance_range {DB Tx} (drv : Driver DB Tx) fs db root st' inst :
  NewInstance drv fs db root = (st', Returns (inr inst)) ->
  let n := Z.of_nat (size (migrations inst)) in
  1 <= n /\ GoInt.is_int n /\
  (forall k, is_Some (migrations inst !! k) <-> 1 <= k <= n) /\
  (forall k m, migrations inst !! k = Some m -> Version m = k).
Proof.
  intros HN n.
  destruct (NewInstance_versions _ _ _ _ _ _ HN) as (Hsize & Hkeys & Hver).
  destruct (NewInstance_inv _ _ _ _ _ _ HN)
    as (st & st1 & dirs & _ & _ & _ & _ & Hdisc & _ & _).
  assert (Hin : forall k, is_Some (migrations inst !! k) <-> 1 <= k <= n).
  { intros k. rewrite <- elem_of_sorted_keys, Hkeys. split.
    - intros ?%elem_of_countup. lia.
    - intros Hk. apply list_elem_of_lookup. exists (Z.to_nat (k - 1)).
      rewrite lookup_countup by lia. f_equal. lia. }
  split; [lia|]. split; [|done].
  destruct (proj2 (Hin n) ltac:(lia)) as [m Hm].
  destruct (discover_keys _ _ _ _ _ Hdisc) with (k := n) (m := m) as (_ & Hi & _);
    [by intros ? ? ?%lookup_empty_Some|done|done].
Qed.

Lemma lookup_all_present inst target versions :
  Forall (fun v => is_Some (migrations inst !! v)) versions ->
  exists todo, lookup_all inst target versions = inr todo /\
    length todo = length versions.
Proof.
  induction 1 as [|v vs [m Hm] _ (todo & IH & Hlen)]; simpl; [by exists []|].
  rewrite Hm, IH. exists (m :: todo). simpl. by rewrite Hlen.
Qed.

Lemma Forall_countup (P : Z -> Prop) i n :
  (forall v, i <= v < i + Z.of_nat n -> P v) -> Forall P (countup i n).
Proof. intros H. apply Forall_forall. intros v Hv%elem_of_countup. auto. Qed.

Lemma Forall_countdown (P : Z -> Prop) i n :
  (forall v, i - Z.of_nat n < v <= i -> P v) -> Forall P (countdown i n).
Proof. intros H. apply Forall_forall. intros v Hv%elem_of_countdown. auto. Qed.

(** X8. Between the versions 0 and n of an instance NewInstance returned (with
    fewer migrations than the greatest int), planning cannot fail: for a
    current version and a different target in this range Goto finds every
    migration on the way, so it returns neither ErrNoVersion nor
    ErrNoMigrations and goes on to Begin. *)
Theorem goto_within_range_plans {DB Tx} (drv : Driver DB Tx) (fs : Filesystem)
    (db st' : option DB) (root : string) (inst : Instance) (fuel : nat)
    (current target : Z) (w : World DB) :
  NewInstance drv fs db root = (st', Returns (inr inst)) ->
  Version_of drv (state w) = Returns current ->
  let n := Z.of_nat (size (migrations inst)) in
  n < GoInt.max_int ->
  0 <= current <= n -> 0 <= target <= n -> target <> current ->
  (Z.to_nat (Z.abs (target - current)) < fuel)%nat ->
  let versions := if current <? target then up_versions current target
                  else down_versions current target in
  exists todo,
    plan fuel inst current target
    = Some (inr (todo, if current <? target then "up" else "down",
                 Z.abs (target - current))) /\
    Forall2 (fun v m => migrations inst !! v = Some m /\ Version m = v) versions todo /\
    exists w' r,
      Goto drv fuel inst target w = Some (w', r) /\
      (exists ok, new_calls w w' !! 0%nat = Some (CallBegin ok)) /\
      (forall err, r = Returns (Some err) ->
         match err with
         | ErrNoVersion _ _ | ErrNoMigrations _ => False
         | _ => True
         end).
Proof.
  intros HN HV n Hmax Hc Ht Hne Hfuel versions.
  destruct (instance_range _ _ _ _ _ _ HN) as (Hn1 & Hni & Hin & Hver).
  fold n in Hn1, Hni, Hin.
  assert (Hci : GoInt.is_int current) by int_arith.
  assert (Hti : GoInt.is_int target) by int_arith.
  assert (Hnomax : migrations inst !! GoInt.max_int = None).
  { apply eq_None_not_Some. rewrite Hin. lia. }
  assert (Hplan : exists todo,
            plan fuel inst current target
            = Some (inr (todo, if current <? target then "up" else "down",
                         Z.abs (target - current))) /\
            lookup_all inst target versions = inr todo).
  { subst versions. destruct (Z.ltb_spec current target) as [Hlt|Hge].
    - rewrite plan_up; try done; [|lia].
      destruct (lookup_all_present inst target (up_versions current target))
        as (todo & Hl & _).
      { apply Forall_countup. intros v Hv. apply Hin. lia. }
      rewrite Hl. exists todo. simpl. split; [|done].
      unfold GoInt.sub. rewrite wrap_id by int_arith. do 4 f_equal. lia.
    - rewrite plan_down; try done; try lia.
      destruct (lookup_all_present inst target (down_versions current target))
        as (todo & Hl & _).
      { apply Forall_countdown. intros v Hv. apply Hin. lia. }
      rewrite Hl. exists todo. simpl. split; [|done].
      unfold GoInt.sub. rewrite wrap_id by int_arith. do 4 f_equal. lia. }
  destruct Hplan as (todo & Hplan & Hl). exists todo. split; [done|]. split.
  { apply lookup_all_inr in Hl. eapply Forall2_impl; [exact Hl|].
    intros v m Hm. split; [done|by apply Hver]. }
  destruct (Goto_planned drv _ _ _ _ _ _ _ _ HV Hplan) as (w' & r & HG & Hrun).
  exists w', r. split; [done|]. unfold planned_run in Hrun.
  destruct (db_Begin drv (state w)) as [e|tx].
  { destruct Hrun as [-> ->]. erewrite new_calls_app by reflexivity.
    split; [by eexists|]. by intros err [= <-]. }
  destruct Hrun as [(_ & tail & db1 & -> & Hr)|(-> & pre & m & post & _ & _ & _ & ->)].
  - erewrite new_calls_app by reflexivity. split; [by eexists|].
    destruct (tx_Commit drv _).2; [destruct Hr as (-> & _); by intros err [= <-]|].
    destruct Hr as [_ Hr].
    destruct (meta_Set drv _ _ _).2; destruct Hr as (-> & _); by intros err [= <-].
  - erewrite new_calls_app by reflexivity. split; [by eexists|]. by intros err [= <-].
Qed.

Lemma goto_within_range_plans_witness :
  exists inst todo,
    NewInstance Sim.good_driver Sim.working (Some Sim.empty_db) "migrate"
    = (Some Sim.empty_db, Returns (inr inst)) /\
    plan 4 inst 3 1 = Some (inr (todo, "down", 2)) /\
    Forall2 (fun v m => migrations inst !! v = Some m /\ Version m = v) [2] todo.
Proof.
  set (inst := match NewInstance Sim.good_driver Sim.working (Some Sim.empty_db) "migrate"
               with
               | (_, Returns (inr i)) => i
               | _ => {| migrations := ∅ |}
               end).
  assert (HN : NewInstance Sim.good_driver Sim.working (Some Sim.empty_db) "migrate"
               = (Some Sim.empty_db, Returns (inr inst)))
    by (vm_compute; reflexivity).
  assert (Hsize : Z.of_nat (size (migrations inst)) = 3) by (vm_compute; reflexivity).
  destruct (goto_within_range_plans Sim.good_driver Sim.working (Some Sim.empty_db)
              (Some Sim.empty_db) "migrate" inst 4 3 1 (Sim.world_at 3) HN eq_refl)
    as (todo & Hplan & Hall & _);
    try (rewrite Hsize); try (unfold GoInt.max_int); try lia.
  exists inst, todo. split; [exact HN|]. split; [exact Hplan|exact Hall].
Defined.

(** X9. A target outside the versions of an instance NewInstance returned is
    refused before anything is begun: above the newest migration n, Goto
    returns ErrNoVersion for n+1; below 0, from a current version of at least
    1, it returns ErrNoVersion for 0. The world stays as it was. *)
Theorem goto_outside_range_fails {DB Tx} (drv : Driver DB Tx) (fs : Filesystem)
    (db st' : option DB) (root : string) (inst : Instance) (fuel : nat)
    (current target : Z) (w : World DB) :
  NewInstance drv fs db root = (st', Returns (inr inst)) ->
  Version_of drv (state w) = Returns current ->
  let n := Z.of_nat (size (migrations inst)) in
  n < GoInt.max_int -> GoInt.is_int target ->
  0 <= current <= n ->
  (Z.to_nat (Z.abs (target - current)) < fuel)%nat ->
  (n < target ->
   Goto drv fuel inst target w = Some (w, Returns (Some (ErrNoVersion (n + 1) target)))) /\
  (target < 0 -> 1 <= current ->
   Goto drv fuel inst target w = Some (w, Returns (Some (ErrNoVersion 0 target)))).
Proof.
  intros HN HV n Hmax Hti Hc Hfuel.
  destruct (instance_range _ _ _ _ _ _ HN) as (Hn1 & Hni & Hin & Hver).
  fold n in Hn1, Hni, Hin.
  assert (Hci : GoInt.is_int current) by int_arith.
  assert (Hnomax : migrations inst !! GoInt.max_int = None).
  { apply eq_None_not_Some. rewrite Hin. lia. }
  split.
  - intros Hlt. eapply Goto_planned_error; [done|].
    rewrite plan_up; try done; try lia.
    destruct (lookup_all inst target (up_versions current target)) as [err|todo] eqn:Hl.
    + apply lookup_all_inl in Hl as (pre & v & post & Hvs & -> & Hv & Hpre).
      simpl. do 4 f_equal.
      assert (Hvin : v ∈ up_versions current target)
        by (rewrite Hvs; apply elem_of_app; right; left).
      apply elem_of_countup in Hvin.
      assert (~ 1 <= v <= n) by (rewrite <- Hin, Hv; by intros [? ?]).
      destruct (decide (v = n + 1)) as [|Hne]; [done|]. exfalso.
      assert (Hlook : up_versions current target !! Z.to_nat (n - current)
                      = Some (n + 1)).
      { unfold up_versions. rewrite lookup_countup by lia. f_equal. lia. }
      assert (Hlen : length pre = Z.to_nat (v - current - 1)).
      { assert (Hk : up_versions current target !! length pre = Some v)
          by (rewrite Hvs; by rewrite list_lookup_middle).
        unfold up_versions in Hk.
        rewrite lookup_countup in Hk.
        - simplify_eq. lia.
        - apply lookup_lt_Some in Hk. by rewrite length_countup in Hk. }
      assert (Hn1in : n + 1 ∈ pre).
      { apply list_elem_of_lookup. exists (Z.to_nat (n - current)).
        rewrite Hvs in Hlook. rewrite lookup_app_l in Hlook; [done|]. lia. }
      rewrite Forall_forall in Hpre. apply Hpre in Hn1in. apply Hin in Hn1in. lia.
    + exfalso. apply lookup_all_inr in Hl.
      assert (Hlook : up_versions current target !! Z.to_nat (n - current)
                      = Some (n + 1)).
      { unfold up_versions. rewrite lookup_countup by lia. f_equal. lia. }
      destruct (Forall2_lookup_l _ _ _ _ _ Hl Hlook) as (m & _ & Hm).
      assert (Hs : is_Some (migrations inst !! (n + 1))) by eauto.
      apply Hin in Hs. lia.
  - intros Hneg Hpos. eapply Goto_planned_error; [done|].
    rewrite plan_down; try done; try lia.
    destruct (lookup_all inst target (down_versions current target)) as [err|todo] eqn:Hl.
    + apply lookup_all_inl in Hl as (pre & v & post & Hvs & -> & Hv & Hpre).
      simpl. do 4 f_equal.
      assert (Hvin : v ∈ down_versions current target)
        by (rewrite Hvs; apply elem_of_app; right; left).
      apply elem_of_countdown in Hvin.
      assert (~ 1 <= v <= n) by (rewrite <- Hin, Hv; by intros [? ?]).
      destruct (decide (v = 0)) as [|Hne]; [done|]. exfalso.
      assert (Hlook : down_versions current target !! Z.to_nat (current - 1)
                      = Some 0).
      { unfold down_versions. rewrite lookup_countdown by lia. f_equal. lia. }
      assert (Hlen : length pre = Z.to_nat (current - 1 - v)).
      { assert (Hk : down_versions current target !! length pre = Some v)
          by (rewrite Hvs; by rewrite list_lookup_middle).
        unfold down_versions in Hk.
        rewrite lookup_countdown in Hk.
        - simplify_eq. lia.
        - apply lookup_lt_Some in Hk. by rewrite length_countdown in Hk. }
      assert (H0in : 0 ∈ pre).
      { apply list_elem_of_lookup. exists (Z.to_nat (current - 1)).
        rewrite Hvs in Hlook. rewrite lookup_app_l in Hlook; [done|]. lia. }
      rewrite Forall_forall in Hpre. apply Hpre in H0in. apply Hin in H0in. lia.
    + exfalso. apply lookup_all_inr in Hl.
      assert (Hlook : down_versions current target !! Z.to_nat (current - 1)
                      = Some 0).
      { unfold down_versions. rewrite lookup_countdown by lia. f_equal. lia. }
      destruct (Forall2_lookup_l _ _ _ _ _ Hl Hlook) as (m & _ & Hm).
      assert (Hs : is_Some (migrations inst !! 0)) by eauto.
      apply Hin in Hs. lia.
Qed.

Lemma goto_outside_range_fails_witness :
  exists inst,
    NewInstance Sim.good_driver Sim.working (Some Sim.empty_db) "migrate"
    = (Some Sim.empty_db, Returns (inr inst)) /\
    Goto Sim.good_driver 98 inst 100 (Sim.world_at 3)
    = Some (Sim.world_at 3, Returns (Some (ErrNoVersion 4 100))) /\
    Goto Sim.good_driver 5 inst (-1) (Sim.world_at 3)
    = Some (Sim.world_at 3, Returns (Some (ErrNoVersion 0 (-1)))).
Proof.
  set (inst := match NewInstance Sim.good_driver Sim.working (Some Sim.empty_db) "migrate"
               with
               | (_, Returns (inr i)) => i
               | _ => {| migrations := ∅ |}
               end).
  assert (HN : NewInstance Sim.good_driver Sim.working (Some Sim.empty_db) "migrate"
               = (Some Sim.empty_db, Returns (inr inst)))
    by (vm_compute; reflexivity).
  assert (Hsize : Z.of_nat (size (migrations inst)) = 3) by (vm_compute; reflexivity).
  exists inst. split; [exact HN|]. split.
  - destruct (goto_outside_range_fails Sim.good_driver Sim.working (Some Sim.empty_db)
                (Some Sim.empty_db) "migrate" inst 98 3 100 (Sim.world_at 3) HN eq_refl)
      as [Hup _];
      try (rewrite Hsize); try int_arith; try (simpl; lia).
    rewrite Hsize in Hup. apply Hup. lia.
  - destruct (goto_outside_range_fails Sim.good_driver Sim.working (Some Sim.empty_db)
                (Some Sim.empty_db) "migrate" inst 5 3 (-1) (Sim.world_at 3) HN eq_refl)
      as [_ Hdown];
      try (rewrite Hsize); try int_arith; try (simpl; lia).
    apply Hdown; lia.
Defined.

Lemma latest_is_size {DB Tx} (drv : Driver DB Tx) fs db root st' inst :
  NewInstance drv fs db root = (st', Returns (inr inst)) ->
  latest_version inst = Z.of_nat (size (migrations inst)).
Proof.
  intros HN. destruct (instance_range _ _ _ _ _ _ HN) as (Hn1 & Hni & Hin & Hver).
  set (n := Z.of_nat (size (migrations inst))) in *.
  destruct (latest_version_spec inst) as (H0 & Hle & Hmax).
  assert (Hs : is_Some (migrations inst !! n)) by (apply Hin; lia).
  destruct Hs as [mn Hmn].
  pose proof (Hle _ _ Hmn) as Hn. rewrite (Hver _ _ Hmn) in Hn.
  destruct Hmax as [Hz|(k & m & Hk & Hm)]; [lia|].
  pose proof (Hver _ _ Hk) as Hkv.
  assert (1 <= k <= n) by (apply Hin; eauto).
  lia.
Qed.

(** ** Below version 0 *)

(** X10. Once the ledger holds a negative version (Goto(-1) on a database
    never migrated stores one), no call can raise it again on an instance that
    NewInstance returned: every Goto to a higher target, and Latest, return
    ErrNoVersion for the version just above the current one and change
    nothing; a Goto further down than one step is refused likewise. *)
Theorem goto_negative_version_is_final {DB Tx} (drv : Driver DB Tx) (fs : Filesystem)
    (db st' : option DB) (root : string) (inst : Instance) (fuel : nat)
    (current : Z) (w : World DB) :
  NewInstance drv fs db root = (st', Returns (inr inst)) ->
  Version_of drv (state w) = Returns current ->
  GoInt.is_int current -> current < 0 -> (0 < fuel)%nat ->
  (forall target, current < target ->
     Goto drv fuel inst target w
     = Some (w, Returns (Some (ErrNoVersion (current + 1) target)))) /\
  Latest drv fuel inst w
  = Some (w, Returns (Some (ErrNoVersion (current + 1)
                              (Z.of_nat (size (migrations inst)))))) /\
  (forall target, target < current - 1 -> GoInt.min_int < current ->
     Goto drv fuel inst target w
     = Some (w, Returns (Some (ErrNoVersion (current - 1) target)))).
Proof.
  intros HN HV Hci Hneg Hfuel.
  destruct (instance_range _ _ _ _ _ _ HN) as (Hn1 & Hni & Hin & Hver).
  assert (Hup : forall target, current < target ->
            Goto drv fuel inst target w
            = Some (w, Returns (Some (ErrNoVersion (current + 1) target)))).
  { intros target Hlt. eapply Goto_planned_error; [done|]. unfold plan.
    destruct (Z.gtb_spec target current); [|lia].
    unfold GoInt.add. rewrite wrap_id by int_arith.
    destruct fuel as [|fuel]; [lia|]. simpl.
    destruct (Z.leb_spec (current + 1) target); [|lia].
    unfold addToTodo.
    destruct (migrations inst !! (current + 1)) as [m|] eqn:Hm; [|done].
    assert (Hs : is_Some (migrations inst !! (current + 1))) by eauto.
    apply Hin in Hs. lia. }
  split; [done|]. split.
  - pose proof (latest_is_size _ _ _ _ _ _ HN) as Hlatest.
    unfold Latest. rewrite HV, Hlatest.
    destruct (Z.leb_spec (Z.of_nat (size (migrations inst))) current); [lia|].
    apply Hup. lia.
  - intros target Hlt Hmin. eapply Goto_planned_error; [done|]. unfold plan.
    destruct (Z.gtb_spec target current); [lia|].
    destruct (Z.ltb_spec target current); [|lia].
    unfold GoInt.sub. rewrite wrap_id by int_arith.
    destruct fuel as [|fuel]; [lia|]. simpl.
    destruct (Z.gtb_spec (current - 1) target); [|lia].
    unfold addToTodo.
    destruct (migrations inst !! (current - 1)) as [m|] eqn:Hm; [|done].
    assert (Hs : is_Some (migrations inst !! (current - 1))) by eauto.
    apply Hin in Hs. lia.
Qed.

Lemma goto_negative_version_is_final_witness :
  exists inst w1,
    NewInstance Sim.good_driver Sim.working (Some Sim.empty_db) "migrate"
    = (Some Sim.empty_db, Returns (inr inst)) /\
    Goto Sim.good_driver 1 inst (-1) (Sim.world Sim.empty_db) = Some (w1, Returns None) /\
    Goto Sim.good_driver 1 inst 1 w1 = Some (w1, Returns (Some (ErrNoVersion 0 1))) /\
    Goto Sim.good_driver 1 inst 0 w1 = Some (w1, Returns (Some (ErrNoVersion 0 0))) /\
    Latest Sim.good_driver 1 inst w1 = Some (w1, Returns (Some (ErrNoVersion 0 3))).
Proof.
  set (inst := match NewInstance Sim.good_driver Sim.working (Some Sim.empty_db) "migrate"
               with
               | (_, Returns (inr i)) => i
               | _ => {| migrations := ∅ |}
               end).
  assert (HN : NewInstance Sim.good_driver Sim.working (Some Sim.empty_db) "migrate"
               = (Some Sim.empty_db, Returns (inr inst)))
    by (vm_compute; reflexivity).
  assert (Hsize : Z.of_nat (size (migrations inst)) = 3) by (vm_compute; reflexivity).
  set (w := Sim.world Sim.empty_db).
  set (w1 := match Goto Sim.good_driver 1 inst (-1) w with
             | Some (w', _) => w'
             | None => w
             end).
  assert (HG : Goto Sim.good_driver 1 inst (-1) w = Some (w1, Returns None))
    by (vm_compute; reflexivity).
  assert (HV : Version_of Sim.good_driver (state w1) = Returns (-1))
    by (vm_compute; reflexivity).
  destruct (goto_negative_version_is_final Sim.good_driver Sim.working (Some Sim.empty_db)
              (Some Sim.empty_db) "migrate" inst 1 (-1) w1 HN HV)
    as (Hup & Hlatest & _); try int_arith; try lia.
  rewrite Hsize in Hlatest.
  exists inst, w1. split; [exact HN|]. split; [exact HG|].
  split; [apply (Hup 1); lia|]. split; [apply (Hup 0); lia|exact Hlatest].
Defined.

(** ** Latest on a database never migrated, and its direction *)

(** X11. On a database at version 0, Latest of an instance NewInstance
    returned plans all its n migrations, in the order 1, ..., n; when Begin,
    every statement, Commit and Set succeed, it has sent the up-bodies of all
    of them in this order, returns nil and has stored n. *)
Theorem latest_from_scratch {DB Tx} (drv : Driver DB Tx) (fs : Filesystem)
    (db st' : option DB) (root : string) (inst : Instance) (fuel : nat)
    (w : World DB) :
  NewInstance drv fs db root = (st', Returns (inr inst)) ->
  Version_of drv (state w) = Returns 0 ->
  let n := Z.of_nat (size (migrations inst)) in
  n < GoInt.max_int -> (size (migrations inst) < fuel)%nat ->
  exists todo,
    plan fuel inst 0 n = Some (inr (todo, "up", n)) /\
    Forall2 (fun v m => migrations inst !! v = Some m /\ Version m = v)
      (countup 1 (size (migrations inst))) todo /\
    Latest drv fuel inst w = Goto drv fuel inst n w /\
    forall tx db1 db2,
      db_Begin drv (state w) = inr tx ->
      Forall succeeded (part_results drv "up" (all_parts todo) tx).1 ->
      tx_Commit drv (part_results drv "up" (all_parts todo) tx).2 = (db1, None) ->
      meta_Set drv db1 "migrateVersion" n = (db2, None) ->
      exists w',
        Latest drv fuel inst w = Some (w', Returns None) /\
        statements (new_calls w w') = up_bodies todo /\
        state w' = db2 /\
        (LedgerKeeps drv -> Version_of drv (state w') = Returns n).
Proof.
  intros HN HV n Hmax Hfuel.
  destruct (instance_range _ _ _ _ _ _ HN) as (Hn1 & Hni & Hin & Hver).
  fold n in Hn1, Hni, Hin.
  assert (Hnomax : migrations inst !! GoInt.max_int = None).
  { apply eq_None_not_Some. rewrite Hin. lia. }
  assert (Hversions : up_versions 0 n = countup 1 (size (migrations inst))).
  { unfold up_versions. f_equal. subst n. lia. }
  destruct (lookup_all_present inst n (countup 1 (size (migrations inst))))
    as (todo & Hl & _).
  { apply Forall_countup. intros v Hv. apply Hin. lia. }
  assert (Hplan : plan fuel inst 0 n = Some (inr (todo, "up", n))).
  { rewrite plan_up; try done; try lia.
    rewrite Hversions, Hl. simpl. unfold GoInt.sub. rewrite wrap_id by int_arith.
    do 4 f_equal. lia. }
  assert (HL : Latest drv fuel inst w = Goto drv fuel inst n w).
  { unfold Latest. rewrite HV, (latest_is_size _ _ _ _ _ _ HN). fold n.
    by destruct (Z.leb_spec n 0); [lia|]. }
  exists todo. split; [done|]. split.
  { apply lookup_all_inr in Hl. eapply Forall2_impl; [exact Hl|].
    intros v m Hm. split; [done|by apply Hver]. }
  split; [done|].
  intros tx db1 db2 Hbegin HF Hcommit Hset.
  destruct (Goto_planned drv _ _ _ _ _ _ _ _ HV Hplan) as (w' & r & HG & Hrun).
  unfold planned_run in Hrun. rewrite Hbegin in Hrun.
  destruct Hrun as [(_ & tail & db3 & -> & Hr)|(_ & pre & m & post & -> & _ & HE & _)].
  - rewrite Hcommit in Hr, HG. simpl in Hr, HG. rewrite Hset in Hr, HG. simpl in Hr, HG.
    destruct Hr as (-> & -> & ->).
    match type of HG with _ = Some (?w1, _) => set (w1' := w1) in * end.
    exists w1'. rewrite HL. split; [exact HG|].
    assert (Hcalls : calls w1'
                     = calls w ++ [CallBegin true]
                       ++ map (result_call "up")
                            (part_results drv "up" (all_parts todo) tx).1
                       ++ [CallCommit true; CallSet "migrateVersion" n true])
      by done.
    rewrite (new_calls_app _ _ _ Hcalls). split; [|split; [done|]].
    + rewrite statements_run by done. by rewrite part_results_fst, body_up_all.
    + intros HK. unfold Version_of. simpl. by rewrite (HK _ _ _ _ Hset).
  - exfalso. rewrite part_results_split in HF.
    apply Forall_app in HF as [_ [HF _]%Forall_app].
    by eapply Exists_failed_not_all.
Qed.

Lemma sim_good_results direction parts tx :
  Forall succeeded (part_results Sim.good_driver direction parts tx).1.
Proof.
  revert tx. induction parts as [|p ps IH]; intros tx; simpl; [constructor|].
  match goal with |- context [part_results _ _ ps ?tx1] => specialize (IH tx1);
    destruct (part_results Sim.good_driver direction ps tx1) as [rs tx2] end.
  simpl in *. constructor; [reflexivity|done].
Qed.

Lemma latest_from_scratch_witness :
  exists inst w',
    NewInstance Sim.good_driver Sim.working (Some Sim.empty_db) "migrate"
    = (Some Sim.empty_db, Returns (inr inst)) /\
    Latest Sim.good_driver 4 inst (Sim.world Sim.empty_db) = Some (w', Returns None) /\
    statements (new_calls (Sim.world Sim.empty_db) w') = ["U1"; "U2"; "U3"] /\
    Version_of Sim.good_driver (state w') = Returns 3.
Proof.
  set (inst := match NewInstance Sim.good_driver Sim.working (Some Sim.empty_db) "migrate"
               with
               | (_, Returns (inr i)) => i
               | _ => {| migrations := ∅ |}
               end).
  assert (HN : NewInstance Sim.good_driver Sim.working (Some Sim.empty_db) "migrate"
               = (Some Sim.empty_db, Returns (inr inst)))
    by (vm_compute; reflexivity).
  assert (Hsize : size (migrations inst) = 3%nat) by (vm_compute; reflexivity).
  set (w := Sim.world Sim.empty_db).
  destruct (latest_from_scratch Sim.good_driver Sim.working (Some Sim.empty_db)
              (Some Sim.empty_db) "migrate" inst 4 w HN eq_refl)
    as (todo & Hplan & _ & _ & Hrun).
  { rewrite Hsize. int_arith. }
  { rewrite Hsize. lia. }
  rewrite Hsize in Hrun.
  set (tx := {| Sim.base := Sim.empty_db; Sim.pending := [] |}).
  set (applied := (part_results Sim.good_driver "up" (all_parts todo) tx).2).
  destruct (Hrun tx (tx_Commit Sim.good_driver applied).1
              (meta_Set Sim.good_driver (tx_Commit Sim.good_driver applied).1
                 "migrateVersion" 3).1
              eq_refl (sim_good_results _ _ _) eq_refl eq_refl)
    as (w' & HL & Hst & _ & HV).
  exists inst, w'. split; [exact HN|]. split; [exact HL|]. split.
  - rewrite Hst.
    assert (Hp : plan 4 inst 0 3
                 = Some (inr (match plan 4 inst 0 3 with
                              | Some (inr (t, _, _)) => t
                              | _ => []
                              end, "up", 3)))
      by (vm_compute; reflexivity).
    rewrite Hsize in Hplan. change (Z.of_nat 3) with 3 in Hplan.
    rewrite Hp in Hplan. injection Hplan as <-.
    vm_compute. reflexivity.
  - exact (HV (sim_ledger_keeps _ _ _ _)).
Defined.




(** ** Marker lines *)

Lemma submatch_marker group text :
  group = "up" \/ group = "down" ->
  marker_text group text ->
  regexPartDir_FindStringSubmatch text = [text; group].
Proof.
  intros Hg [->|(c & Hc & ->)]; unfold regexPartDir_FindStringSubmatch.
  - destruct Hg as [-> | ->]; vm_compute; reflexivity.
  - rewrite (proj2 (strip_prefix_Some "--" _ (String c ("@migrate/" +:+ group))) eq_refl).
    rewrite Hc.
    rewrite (proj2 (strip_prefix_Some "@migrate/" _ group) eq_refl).
    by destruct Hg as [-> | ->].
Qed.

Lemma marker_submatch group text :
  regexPartDir_FindStringSubmatch text = [text; group] ->
  (group = "up" \/ group = "down") /\ marker_text group text.
Proof.
  unfold regexPartDir_FindStringSubmatch.
  destruct (GoString.strip_prefix "--" text) as [r|] eqn:H1; [|done].
  apply strip_prefix_Some in H1.
  destruct (GoString.strip_prefix "@migrate/" _) as [g|] eqn:H2; [|done].
  apply strip_prefix_Some in H2.
  intros H.
  assert (Hg : (g = "up" \/ g = "down") /\ g = group).
  { destruct (String.eqb_spec g "up") as [->|_]; [simpl in H; by simplify_eq; auto|].
    destruct (String.eqb_spec g "down") as [->|_]; [simpl in H; by simplify_eq; auto|].
    done. }
  destruct Hg as [Hg <-]. split; [done|].
  destruct r as [|c r1].
  - by rewrite append_cons in H2.
  - destruct (regex_space c) eqn:Hc.
    + right. exists c. split; [done|]. by rewrite H1, H2.
    + left. by rewrite H1, H2.
Qed.

(** X13. A line directs the lines after it to the up-body, respectively the
    down-body, exactly when, trimmed, it is "--", at most one character of the
    class \s (tab, LF, FF, CR or space), and "@migrate/up", respectively
    "@migrate/down", with nothing before or after; any other line is no
    marker. *)
Theorem marker_lines (line : string) :
  (marker line = Some TargetUp <-> marker_text "up" (GoString.TrimSpace line)) /\
  (marker line = Some TargetDown <-> marker_text "down" (GoString.TrimSpace line)) /\
  (forall group,
     regexPartDir_FindStringSubmatch (GoString.TrimSpace line)
     = [GoString.TrimSpace line; group]
     <-> (group = "up" \/ group = "down") /\ marker_text group (GoString.TrimSpace line)) /\
  (regexPartDir_FindStringSubmatch (GoString.TrimSpace line) = []
   <-> ~ marker_text "up" (GoString.TrimSpace line) /\
       ~ marker_text "down" (GoString.TrimSpace line)).
Proof.
  set (text := GoString.TrimSpace line).
  assert (Hiff : forall group,
            regexPartDir_FindStringSubmatch text = [text; group]
            <-> (group = "up" \/ group = "down") /\ marker_text group text).
  { intros group. split; [apply marker_submatch|]. intros [? ?].
    by apply submatch_marker. }
  assert (Hup : marker line = Some TargetUp <-> marker_text "up" text).
  { unfold marker. fold text. split.
    - intros H. destruct (submatch_shape text) as [Hs|[Hs|Hs]]; rewrite Hs in H; try done.
      by apply Hiff in Hs as [_ ?].
    - intros H. by rewrite (submatch_marker "up" text (or_introl eq_refl) H). }
  assert (Hdown : marker line = Some TargetDown <-> marker_text "down" text).
  { unfold marker. fold text. split.
    - intros H. destruct (submatch_shape text) as [Hs|[Hs|Hs]]; rewrite Hs in H; try done.
      by apply Hiff in Hs as [_ ?].
    - intros H. by rewrite (submatch_marker "down" text (or_intror eq_refl) H). }
  split; [done|]. split; [done|]. split; [done|]. split.
  - intros Hnil. split; intros Hm.
    + rewrite (submatch_marker "up" text (or_introl eq_refl) Hm) in Hnil. done.
    + rewrite (submatch_marker "down" text (or_intror eq_refl) Hm) in Hnil. done.
  - intros [Hnu Hnd]. destruct (submatch_shape text) as [Hs|[Hs|Hs]]; [done|..].
    + by apply Hiff in Hs as [_ ?].
    + by apply Hiff in Hs as [_ ?].
Qed.

(** ** The file name of a path *)

Lemma Split_join path :
  (GoString.Split path).1 +:+ (GoString.Split path).2 = path.
Proof.
  induction path as [|c r IH]; [done|]. simpl.
  destruct (GoString.Split r) as [dir file]. simpl in IH.
  destruct (GoString.byte_is 47 c).
  - simpl. by rewrite append_cons, IH.
  - destruct dir as [|d dir]; simpl.
    + rewrite append_nil_l in IH |- *. by rewrite IH.
    + by rewrite append_cons, IH.
Qed.

Lemma Split_no_slash path a b :
  (GoString.Split path).2 <> a +:+ "/" +:+ b.
Proof.
  revert a. induction path as [|c r IH]; intros a; simpl.
  - destruct a; rewrite ?append_nil_l, ?append_cons; done.
  - destruct (GoString.Split r) as [dir file]. simpl in IH.
    destruct (GoString.byte_is 47 c) eqn:Hc; [apply IH|].
    destruct dir as [|d dir]; [|apply IH]. simpl.
    destruct a as [|a0 a]; rewrite ?append_nil_l, ?append_cons.
    + intros [= -> _]. done.
    + intros [= _ H]. by apply IH in H.
Qed.

Lemma Split_dir path :
  (GoString.Split path).1 = EmptyString
  \/ exists d, (GoString.Split path).1 = d +:+ "/".
Proof.
  induction path as [|c r IH]; [by left|]. simpl.
  destruct (GoString.Split r) as [dir file]. simpl in IH.
  destruct (GoString.byte_is 47 c) eqn:Hc.
  - right. simpl. destruct IH as [->|[d ->]].
    + exists EmptyString. rewrite append_nil_l.
      unfold GoString.byte_is in Hc. apply N.eqb_eq in Hc.
      f_equal. rewrite <- (ascii_N_embedding c), Hc. done.
    + exists (String c d). by rewrite append_cons.
  - destruct dir as [|d0 dir]; [by left|]. right. simpl.
    destruct IH as [?|[d ->]]; [done|]. exists (String c d). by rewrite append_cons.
Qed.

Lemma Split_last dir name :
  (forall a b, name <> a +:+ "/" +:+ b) ->
  GoString.Split (dir +:+ "/" +:+ name) = (dir +:+ "/", name).
Proof.
  intros Hname.
  pose proof (Split_join (dir +:+ "/" +:+ name)) as Hj.
  pose proof (Split_no_slash (dir +:+ "/" +:+ name)) as Hn.
  pose proof (Split_dir (dir +:+ "/" +:+ name)) as Hd.
  destruct (GoString.Split (dir +:+ "/" +:+ name)) as [d f]. simpl in *.
  assert (Hcases : forall d1 f1 d2 f2 : string,
            d1 +:+ "/" +:+ f1 = d2 +:+ f2 ->
            (forall a b, f1 <> a +:+ "/" +:+ b) ->
            (forall a b, f2 <> a +:+ "/" +:+ b) ->
            (d2 = EmptyString \/ exists e, d2 = e +:+ "/") ->
            d2 = d1 +:+ "/" /\ f2 = f1).
  { clear. induction d1 as [|x d1 IH]; intros f1 d2 f2 Heq H1 H2 Hd2.
    - rewrite append_nil_l in Heq. destruct d2 as [|y d2].
      + rewrite append_nil_l in Heq. subst f2. exfalso.
        apply (H2 EmptyString f1). by rewrite append_nil_l.
      + rewrite !append_cons in Heq. injection Heq as <- Heq.
        rewrite append_nil_l in Heq. destruct d2 as [|z d2].
        * rewrite append_nil_l in Heq. by subst.
        * exfalso. destruct Hd2 as [?|[e He]]; [done|].
          destruct e as [|e0 e]; [by rewrite append_nil_l in He|].
          rewrite append_cons in He. injection He as _ He.
          apply (H1 e f2). by rewrite Heq, He, append_assoc.
    - rewrite append_cons in Heq. destruct d2 as [|y d2].
      + rewrite append_nil_l in Heq. subst f2. exfalso.
        apply (H2 (String x d1) f1). by rewrite append_cons.
      + rewrite append_cons in Heq. injection Heq as <- Heq.
        assert (Hd2' : d2 = EmptyString \/ exists e, d2 = e +:+ "/").
        { destruct Hd2 as [?|[e He]]; [done|]. destruct e as [|e0 e].
          - rewrite append_nil_l in He. injection He as _ ->. by left.
          - rewrite append_cons in He. injection He as _ ->. right. eauto. }
        destruct (IH f1 d2 f2 Heq H1 H2 Hd2') as [-> ->].
        by rewrite append_cons. }
  destruct (Hcases dir name d f) as [-> ->]; done.
Qed.

(** ** What NewPart returns *)

Lemma scan_loop_error path lines : forall st err,
  scan_loop path lines st = inl err -> err = PartNoMarker path.
Proof.
  induction lines as [|line rest IH]; intros st err H; simpl in H; [done|].
  destruct (scan_step path st line) as [e|st1] eqn:Hs.
  - simplify_eq. by eapply scan_step_error.
  - by eapply IH.
Qed.

Lemma last_marker_none lines :
  default (-1) (last (omap marker lines)) = -1 <-> omap marker lines = [].
Proof.
  split.
  - destruct (last (omap marker lines)) as [d|] eqn:Hl; simpl.
    + intros ->. apply last_Some_elem_of, list_elem_of_omap in Hl as (l & _ & Hm).
      apply marker_target in Hm as [?|?]; done.
    + intros _. by apply last_None.
  - by intros ->.
Qed.

Lemma concat_strings_nonempty l :
  concat_strings l <> EmptyString -> exists s, s ∈ l /\ s <> EmptyString.
Proof.
  induction l as [|s l IH]; simpl; [done|]. intros H.
  destruct s as [|c s].
  - rewrite append_nil_l in H. destruct (IH H) as (t & Ht & Hne).
    exists t. split; [by right|done].
  - exists (String c s). split; [by left|done].
Qed.

(** A body that is not empty has a content line under its target. *)
Lemma accumulated_nonempty target lines :
  accumulated target lines <> EmptyString ->
  exists i line, lines !! i = Some line /\ is_content line = true /\
                 active lines i = Some target.
Proof.
  intros H. apply concat_strings_nonempty in H as (s & Hin & Hne).
  apply elem_of_lookup_imap in Hin as (i & line & -> & Hl).
  exists i, line. split; [done|]. unfold contribution in Hne.
  destruct (is_content line); [|done]. simpl in Hne.
  destruct (decide (active lines i = Some target)) as [He|Hn].
  - done.
  - rewrite bool_decide_false in Hne by done. done.
Qed.

(** What the parse of an opened file returns, case by case. *)
Lemma parse_part_cases path f :
  let lines := (Scanner.scan f).1 in
  ((exists i line, lines !! i = Some line /\ is_content line = true /\
                   active lines i = None) ->
   parse_part path f = inl (PartNoMarker path)) /\
  ((forall i line, lines !! i = Some line -> is_content line = true ->
                   is_Some (active lines i)) ->
   parse_part path f
   = match (Scanner.scan f).2 with
     | Some err => inl err
     | None =>
       if decide (omap marker lines = []) then inl (PartNoMarker path)
       else if decide (accumulated TargetUp lines = EmptyString)
            then inl (PartNoUpward path)
       else if decide (accumulated TargetDown lines = EmptyString)
            then inl (PartNoDownward path)
       else inr {| Part_Name := (GoString.Split path).2; Part_Path := path;
                   Up := accumulated TargetUp lines;
                   Down := accumulated TargetDown lines |}
     end).
Proof.
  unfold parse_part. destruct (Scanner.scan f) as [lines serr]. simpl.
  pose proof (scan_loop_succeeds path lines [] scan_init eq_refl) as Hiff.
  simpl in Hiff. split.
  - intros (i & line & Hl & Hc & Hact).
    destruct (scan_loop path lines scan_init) as [e|st] eqn:Hloop.
    + by rewrite (scan_loop_error _ _ _ _ Hloop).
    + exfalso. destruct (proj1 Hiff (ex_intro _ st eq_refl) i line Hl Hc) as [d Hd].
      unfold active in Hact. congruence.
  - intros Hall. destruct (proj2 Hiff Hall) as [st Hloop]. rewrite Hloop.
    destruct serr as [e|]; [done|].
    destruct (scan_loop_accumulates path lines [] scan_init st Hloop eq_refl)
      as (Hu & Hd & Hw).
    simpl in Hu, Hd, Hw. rewrite append_nil_l in Hu, Hd.
    change (concat_strings (contributions TargetUp [] lines))
      with (accumulated TargetUp lines) in Hu.
    change (concat_strings (contributions TargetDown [] lines))
      with (accumulated TargetDown lines) in Hd.
    rewrite Hu, Hd, Hw.
    destruct (decide (omap marker lines = [])) as [Hnil|Hsome].
    + by rewrite (proj2 (last_marker_none lines) Hnil).
    + destruct (Z.eqb_spec (default (-1) (last (omap marker lines))) (-1)) as [Heq|_].
      { by apply last_marker_none in Heq. }
      destruct (decide (accumulated TargetUp lines = EmptyString)) as [->|Hup]; [done|].
      destruct (String.eqb_spec (accumulated TargetUp lines) "") as [?|_]; [done|].
      destruct (decide (accumulated TargetDown lines = EmptyString)) as [->|Hdown];
        [done|].
      by destruct (String.eqb_spec (accumulated TargetDown lines) "") as [?|_].
Qed.

(** X14. NewPart, case by case. An error of Open is returned as it is. Once
    the file is open a failing Close panics, whatever the parse had found.
    Otherwise: a content line before any marker gives the no-marker error,
    even if the scanner failed further down; else an error of the scanner (a
    line too long for its buffer, or a failed read) is returned; else a file
    without any marker gives the no-marker error, one without up-content the
    no-upward error (also when it has no down-content either), one without
    down-content the no-downward error; and only then is the part returned,
    under the last element of the path as its name. *)
Theorem new_part_outcomes (fs : Filesystem) (path : string) :
  match fs_Open fs path with
  | inl err => NewPart fs path = Returns (inl err)
  | inr f =>
    match file_close_err f with
    | Some err => NewPart fs path = Panics (PanicClose err)
    | None =>
      let lines := (Scanner.scan f).1 in
      ((exists i line, lines !! i = Some line /\ is_content line = true /\
                       active lines i = None) ->
       NewPart fs path = Returns (inl (PartNoMarker path))) /\
      ((forall i line, lines !! i = Some line -> is_content line = true ->
                       is_Some (active lines i)) ->
       NewPart fs path
       = Returns
           match (Scanner.scan f).2 with
           | Some err => inl err
           | None =>
             if decide (omap marker lines = []) then inl (PartNoMarker path)
             else if decide (accumulated TargetUp lines = EmptyString)
                  then inl (PartNoUpward path)
             else if decide (accumulated TargetDown lines = EmptyString)
                  then inl (PartNoDownward path)
             else inr {| Part_Name := (GoString.Split path).2; Part_Path := path;
                         Up := accumulated TargetUp lines;
                         Down := accumulated TargetDown lines |}
           end)
    end
  end.
Proof.
  unfold NewPart. destruct (fs_Open fs path) as [err|f]; [done|].
  destruct (file_close_err f) as [err|]; [done|].
  destruct (parse_part_cases path f) as [H1 H2]. split.
  - intros H. by rewrite (H1 H).
  - intros H. by rewrite (H2 H).
Qed.

Lemma NewPart_inv fs path p :
  NewPart fs path = Returns (inr p) ->
  exists f,
    fs_Open fs path = inr f /\ file_close_err f = None /\
    (Scanner.scan f).2 = None /\
    Part_Path p = path /\ Part_Name p = (GoString.Split path).2 /\
    Up p = accumulated TargetUp (Scanner.scan f).1 /\
    Down p = accumulated TargetDown (Scanner.scan f).1 /\
    Up p <> EmptyString /\ Down p <> EmptyString /\
    (forall i line, (Scanner.scan f).1 !! i = Some line -> is_content line = true ->
                    is_Some (active (Scanner.scan f).1 i)).
Proof.
  unfold NewPart. intros H.
  destruct (fs_Open fs path) as [err|f]; [by simplify_eq|].
  destruct (file_close_err f) as [err|] eqn:Hclose; [done|]. simplify_eq.
  exists f. split; [done|]. split; [done|].
  destruct (parse_part path f) as [e|p'] eqn:Hparse; simplify_eq.
  destruct (parse_part_cases path f) as [H1 H2].
  set (lines := (Scanner.scan f).1) in *.
  assert (Hall : forall i line, lines !! i = Some line -> is_content line = true ->
                   is_Some (active lines i)).
  { intros i line Hl Hc. destruct (active lines i) as [d|] eqn:Hact; [by eexists|].
    rewrite H1 in Hparse by eauto. done. }
  rewrite (H2 Hall) in Hparse.
  destruct (Scanner.scan f).2; [done|]. split; [done|].
  destruct (decide (omap marker lines = [])); [done|].
  destruct (decide (accumulated TargetUp lines = EmptyString)); [done|].
  destruct (decide (accumulated TargetDown lines = EmptyString)); [done|].
  simplify_eq. done.
Qed.

(** X15. A part NewPart returns carries the path it was given, is named by the
    last element of that path (the path is some directory prefix, empty or
    ending in a slash, followed by the name, which holds no slash), and has an
    up-body and a down-body that are not empty: the file has a content line
    under an up marker and one under a down marker, and every content line of
    the file comes after a marker. *)
Theorem new_part_result (fs : Filesystem) (path : string) (p : Part) :
  NewPart fs path = Returns (inr p) ->
  Part_Path p = path /\
  (exists dir, path = dir +:+ Part_Name p /\
     (dir = EmptyString \/ exists d, dir = d +:+ "/")) /\
  (forall a b, Part_Name p <> a +:+ "/" +:+ b) /\
  Up p <> EmptyString /\ Down p <> EmptyString /\
  exists f,
    fs_Open fs path = inr f /\
    let lines := (Scanner.scan f).1 in
    (exists i line, lines !! i = Some line /\ is_content line = true /\
                    active lines i = Some TargetUp) /\
    (exists i line, lines !! i = Some line /\ is_content line = true /\
                    active lines i = Some TargetDown) /\
    (forall i line, lines !! i = Some line -> is_content line = true ->
                    is_Some (active lines i)).
Proof.
  intros H.
  destruct (NewPart_inv _ _ _ H)
    as (f & Hopen & Hclose & Hscan & Hpath & Hname & Hup & Hdown & Hune & Hdne & Hall).
  split; [done|]. split; [|split; [|split; [done|split; [done|]]]].
  - exists (GoString.Split path).1. rewrite Hname. split; [by rewrite Split_join|].
    apply Split_dir.
  - rewrite Hname. apply Split_no_slash.
  - exists f. split; [done|]. simpl.
    split; [apply accumulated_nonempty; congruence|].
    split; [apply accumulated_nonempty; congruence|done].
Qed.

Lemma new_part_result_witness :
  exists p,
    NewPart Sim.working "migrate/version_1/test.sql" = Returns (inr p) /\
    Part_Name p = "test.sql" /\ Part_Path p = "migrate/version_1/test.sql" /\
    Up p <> EmptyString /\ Down p <> EmptyString.
Proof.
  set (p := match NewPart Sim.working "migrate/version_1/test.sql" with
            | Returns (inr p) => p
            | _ => Sim.part "" "" ""
            end).
  assert (HN : NewPart Sim.working "migrate/version_1/test.sql" = Returns (inr p))
    by (vm_compute; reflexivity).
  destruct (new_part_result Sim.working "migrate/version_1/test.sql" p HN)
    as (Hpath & _ & _ & Hup & Hdown & _).
  exists p. split; [exact HN|]. split; [vm_compute; reflexivity|].
  split; [exact Hpath|]. split; [exact Hup|exact Hdown].
Defined.

(** ** The files NewMigration parses *)

Lemma Ext_go_sql stem : forall ext found,
  GoString.Ext_go (stem +:+ ".sql") ext found = ".sql".
Proof.
  induction stem as [|c stem IH]; intros ext found.
  - reflexivity.
  - rewrite append_cons. simpl.
    destruct (GoString.byte_is 47 c); [apply IH|].
    destruct (GoString.byte_is 46 c); apply IH.
Qed.

Lemma Ext_go_suffix s : forall ext found,
  GoString.Ext_go s ext found <> EmptyString ->
  (exists stem, s = stem +:+ GoString.Ext_go s ext found)
  \/ (found = true /\ GoString.Ext_go s ext found = ext +:+ s).
Proof.
  induction s as [|c s IH]; intros ext found Hne; simpl in *.
  - destruct found; [|done]. right. by rewrite append_nil_r.
  - destruct (GoString.byte_is 47 c).
    + destruct (IH _ _ Hne) as [[stem Hs]|[? _]]; [|done].
      left. exists (String c stem). rewrite append_cons. by f_equal.
    + destruct (GoString.byte_is 46 c).
      * destruct (IH _ _ Hne) as [[stem Hs]|[_ Hs]].
        -- left. exists (String c stem). rewrite append_cons. by f_equal.
        -- left. exists EmptyString. rewrite append_nil_l, Hs.
           by rewrite append_cons, append_nil_l.
      * destruct (IH _ _ Hne) as [[stem Hs]|[Hf Hs]].
        -- left. exists (String c stem). rewrite append_cons. by f_equal.
        -- right. split; [done|]. rewrite Hs, Hf, append_assoc.
           by rewrite append_cons, append_nil_l.
Qed.

(** X16. An entry of a migration directory is parsed as a part exactly when it
    is not a directory and its name ends in ".sql", in lower case; a name that
    is just ".sql" counts, and a sub-directory never does. *)
Theorem part_files_by_extension (file : DirEntry) :
  is_part_file file = true
  <-> entry_IsDir file = false /\ exists stem, entry_Name file = stem +:+ ".sql".
Proof.
  unfold is_part_file. rewrite andb_true_iff, negb_true_iff. split.
  - intros [Hd He]. split; [done|]. apply String.eqb_eq in He. unfold GoString.Ext in He.
    destruct (Ext_go_suffix (entry_Name file) EmptyString false) as [[stem Hs]|[? _]];
      [by rewrite He| |done].
    exists stem. by rewrite He in Hs.
  - intros [Hd [stem Hs]]. split; [done|]. apply String.eqb_eq.
    unfold GoString.Ext. rewrite Hs. apply Ext_go_sql.
Qed.

Lemma filter_part_file_cons file files :
  List.filter is_part_file (file :: files)
  = if is_part_file file then file :: List.filter is_part_file files
    else List.filter is_part_file files.
Proof. done. Qed.

Lemma collect_parts_cons fs root file rest parts :
  collect_parts fs root (file :: rest) parts
  = if is_part_file file then
      match NewPart fs (Join fs root (entry_Name file)) with
      | Panics p => Panics p
      | Returns (inl err) => Returns (inl err)
      | Returns (inr part) => collect_parts fs root rest (parts ++ [part])
      end
    else collect_parts fs root rest parts.
Proof. done. Qed.

(** The loop over the listing, read off its result. *)
Lemma collect_parts_spec fs root files : forall parts,
  match collect_parts fs root files parts with
  | Returns (inr parts') =>
    exists new, parts' = parts ++ new /\
      Forall2 (parses_to fs root) (List.filter is_part_file files) new
  | Returns (inl err) =>
    exists pre file post new,
      List.filter is_part_file files = pre ++ file :: post /\
      Forall2 (parses_to fs root) pre new /\
      NewPart fs (Join fs root (entry_Name file)) = Returns (inl err)
  | Panics p =>
    exists pre file post new,
      List.filter is_part_file files = pre ++ file :: post /\
      Forall2 (parses_to fs root) pre new /\
      NewPart fs (Join fs root (entry_Name file)) = Panics p
  end.
Proof.
  induction files as [|file rest IH]; intros parts.
  - simpl. exists []. by rewrite app_nil_r.
  - rewrite collect_parts_cons, filter_part_file_cons.
    destruct (is_part_file file) eqn:Hf; [|apply IH].
    destruct (NewPart fs (Join fs root (entry_Name file))) as [[err|part]|p] eqn:HN.
    + exists [], file, (List.filter is_part_file rest), []. by repeat split.
    + specialize (IH (parts ++ [part])).
      destruct (collect_parts fs root rest (parts ++ [part])) as [[err|parts']|p].
      * destruct IH as (pre & f & post & new & Hfl & Hpre & Hf').
        exists (file :: pre), f, post, (part :: new). rewrite Hfl.
        split; [done|]. split; [by constructor|done].
      * destruct IH as (new & -> & Hnew). exists (part :: new).
        rewrite <- app_assoc. split; [done|]. by constructor.
      * destruct IH as (pre & f & post & new & Hfl & Hpre & Hf').
        exists (file :: pre), f, post, (part :: new). rewrite Hfl.
        split; [done|]. split; [by constructor|done].
    + exists [], file, (List.filter is_part_file rest), []. by repeat split.
Qed.

(** And its result from what NewPart answers on the part files. *)
Lemma collect_parts_ok fs root files : forall parts new,
  Forall2 (parses_to fs root) (List.filter is_part_file files) new ->
  collect_parts fs root files parts = Returns (inr (parts ++ new)).
Proof.
  induction files as [|file rest IH]; intros parts new H.
  - simpl in *. apply Forall2_nil_inv_l in H as ->. by rewrite app_nil_r.
  - rewrite collect_parts_cons. rewrite filter_part_file_cons in H.
    destruct (is_part_file file); [|by apply IH].
    apply Forall2_cons_inv_l in H as (part & new' & Hp & Hrest & ->).
    unfold parses_to in Hp. rewrite Hp, (IH _ _ Hrest), <- app_assoc. done.
Qed.

Lemma collect_parts_stops fs root files : forall parts pre file post new,
  List.filter is_part_file files = pre ++ file :: post ->
  Forall2 (parses_to fs root) pre new ->
  collect_parts fs root files parts
  = match NewPart fs (Join fs root (entry_Name file)) with
    | Panics p => Panics p
    | Returns (inl err) => Returns (inl err)
    | Returns (inr part) =>
      collect_parts fs root (post) (parts ++ new ++ [part])
    end
  \/ exists part, NewPart fs (Join fs root (entry_Name file)) = Returns (inr part).
Proof.
  induction files as [|file0 rest IH]; intros parts pre file post new Hfl Hpre.
  - simpl in Hfl. by destruct pre.
  - rewrite collect_parts_cons. rewrite filter_part_file_cons in Hfl.
    destruct (is_part_file file0); [|by eapply IH].
    destruct pre as [|f0 pre]; simpl in Hfl; injection Hfl as <- Hfl.
    + destruct (NewPart fs (Join fs root (entry_Name file0))) as [[err|part]|p];
        [by left|right; eauto|by left].
    + apply Forall2_cons_inv_l in Hpre as (part & new' & Hp & Hrest & ->).
      unfold parses_to in Hp. rewrite Hp.
      destruct (IH (parts ++ [part]) pre file post new' Hfl Hrest) as [->|?]; [|by right].
      destruct (NewPart fs (Join fs root (entry_Name file))) as [[err|part']|p];
        [by left|right; eauto|by left].
Qed.

Lemma NewMigration_inv fs root m :
  NewMigration fs root = Returns (inr m) ->
  Migration_Name m = (GoString.Split root).2 /\
  Migration_Path m = fs_Clean fs root /\
  parse_version (GoString.Split root).2 = inr (Version m) /\
  exists files,
    fs_ReadDir fs (fs_Clean fs root) = inr files /\
    Forall2 (parses_to fs (fs_Clean fs root)) (List.filter is_part_file files) (Parts m) /\
    Parts m <> [].
Proof.
  unfold NewMigration. intros H.
  destruct (parse_version (GoString.Split root).2) as [e|v]; [done|].
  destruct (fs_ReadDir fs (fs_Clean fs root)) as [e|files]; [done|].
  pose proof (collect_parts_spec fs (fs_Clean fs root) files []) as Hspec.
  destruct (collect_parts fs (fs_Clean fs root) files []) as [[e|parts]|p]; try done.
  destruct Hspec as (new & -> & Hnew). simpl in *.
  destruct new as [|p ps]; simpl in H; [done|]. simplify_eq. simpl.
  repeat split; try done. exists files. done.
Qed.

Lemma parts_nonempty fs root files parts :
  Forall2 (parses_to fs root) files parts ->
  Forall (fun p => Up p <> EmptyString /\ Down p <> EmptyString) parts.
Proof.
  induction 1 as [|file p files parts Hp _ IH]; constructor; [|done].
  destruct (NewPart_inv _ _ _ Hp) as (f & _ & _ & _ & _ & _ & _ & _ & ? & ? & _). done.
Qed.

(** X17. A migration NewMigration returns is named by the last element of the
    path, which passes the name check with the migration's version (an int
    other than 0); its path is the cleaned path; its parts are, in the order
    of the directory listing, what NewPart returns for each entry that is no
    directory and ends in .sql, one part per such file; there is at least one,
    and each has an up-body and a down-body that are not empty. *)
Theorem new_migration_result (fs : Filesystem) (root : string) (m : Migration) :
  NewMigration fs root = Returns (inr m) ->
  Migration_Name m = (GoString.Split root).2 /\
  Migration_Path m = fs_Clean fs root /\
  parse_version (Migration_Name m) = inr (Version m) /\
  GoInt.is_int (Version m) /\ Version m <> 0 /\
  (exists files,
     fs_ReadDir fs (fs_Clean fs root) = inr files /\
     Forall2 (fun file part =>
                NewPart fs (Join fs (fs_Clean fs root) (entry_Name file))
                = Returns (inr part))
       (List.filter is_part_file files) (Parts m)) /\
  Parts m <> [] /\
  Forall (fun p => Up p <> EmptyString /\ Down p <> EmptyString) (Parts m).
Proof.
  intros H.
  destruct (NewMigration_inv _ _ _ H) as (Hname & Hpath & Hv & files & Hread & Hparts & Hne).
  rewrite Hname. split; [done|]. split; [done|]. split; [done|].
  apply parse_version_accepts in Hv as Hlit.
  destruct Hlit as (lit & _ & _ & Hint & Hnz).
  split; [done|]. split; [done|]. split; [by exists files|]. split; [done|].
  by eapply parts_nonempty.
Qed.

Lemma new_migration_result_witness :
  exists m,
    NewMigration Sim.working "migrate/version_2" = Returns (inr m) /\
    Migration_Name m = "version_2" /\ Version m = 2 /\
    map Part_Path (Parts m) = ["migrate/version_2/test.sql"].
Proof.
  set (m := match NewMigration Sim.working "migrate/version_2" with
            | Returns (inr m) => m
            | _ => Sim.migration 0 []
            end).
  assert (HN : NewMigration Sim.working "migrate/version_2" = Returns (inr m))
    by (vm_compute; reflexivity).
  destruct (new_migration_result Sim.working "migrate/version_2" m HN)
    as (Hname & _ & Hv & _).
  exists m. split; [exact HN|]. split; [rewrite Hname; vm_compute; reflexivity|].
  split; vm_compute; reflexivity.
Defined.

(** X18. Once the name is accepted, NewMigration fails in these ways: an error
    of ReadDir is returned as it is; a directory without any part file (empty,
    or holding only sub-directories and files that do not end in .sql) gives
    the no-parts error with the cleaned path; and the first part file, in
    listing order, that NewPart does not accept ends the call with NewPart's
    error (or panic), whatever the files after it hold. *)
Theorem new_migration_failures (fs : Filesystem) (root : string) (version : Z) :
  parse_version (GoString.Split root).2 = inr version ->
  match fs_ReadDir fs (fs_Clean fs root) with
  | inl err => NewMigration fs root = Returns (inl err)
  | inr files =>
    (List.filter is_part_file files = [] ->
     NewMigration fs root = Returns (inl (MigrationNoParts (fs_Clean fs root)))) /\
    (forall pre file post new,
       List.filter is_part_file files = pre ++ file :: post ->
       Forall2 (parses_to fs (fs_Clean fs root)) pre new ->
       (forall err,
          NewPart fs (Join fs (fs_Clean fs root) (entry_Name file)) = Returns (inl err) ->
          NewMigration fs root = Returns (inl err)) /\
       (forall p,
          NewPart fs (Join fs (fs_Clean fs root) (entry_Name file)) = Panics p ->
          NewMigration fs root = Panics p))
  end.
Proof.
  intros Hv. unfold NewMigration. rewrite Hv.
  destruct (fs_ReadDir fs (fs_Clean fs root)) as [err|files]; [done|]. split.
  - intros Hnil.
    rewrite (collect_parts_ok fs (fs_Clean fs root) files [] []); [done|].
    rewrite Hnil. constructor.
  - intros pre file post new Hfl Hpre.
    destruct (collect_parts_stops fs (fs_Clean fs root) files [] pre file post new
                Hfl Hpre) as [Heq|[part Hpart]].
    + rewrite Heq. split.
      * intros err ->. done.
      * intros p ->. done.
    + split; intros ? ?; congruence.
Qed.

Lemma new_migration_failures_witness :
  NewMigration
    (Sim.fs [("m/version_1", [Sim.file "README.md"; Sim.dir "old.sql";
                              Sim.file "schema.SQL"])] [])
    "m/version_1"
  = Returns (inl (MigrationNoParts "m/version_1")).
Proof.
  exact (proj1 (new_migration_failures
                  (Sim.fs [("m/version_1", [Sim.file "README.md"; Sim.dir "old.sql";
                                            Sim.file "schema.SQL"])] [])
                  "m/version_1" 1 eq_refl) eq_refl).
Defined.

(** X19. NewMigration reads name and version from the last element of the path
    alone, whatever directories come before it; a path that ends in a slash
    has the empty last element and is refused with the bad-name error. *)
Theorem new_migration_last_element (fs : Filesystem) (dir name : string) :
  (forall a b, name <> a +:+ "/" +:+ b) ->
  (forall err, parse_version name = inl err ->
     NewMigration fs (dir +:+ "/" +:+ name) = Returns (inl err)) /\
  (forall m, NewMigration fs (dir +:+ "/" +:+ name) = Returns (inr m) ->
     Migration_Name m = name /\ parse_version name = inr (Version m)) /\
  NewMigration fs (dir +:+ "/") = Returns (inl (MigrationBadName EmptyString)).
Proof.
  intros Hname. pose proof (Split_last dir name Hname) as Hs. split; [|split].
  - intros err Herr. apply NewMigration_name. by rewrite Hs.
  - intros m Hm. destruct (NewMigration_inv _ _ _ Hm) as (Hn & _ & Hv & _).
    rewrite Hs in Hn, Hv. done.
  - assert (Hs0 : GoString.Split (dir +:+ "/") = (dir +:+ "/", EmptyString)).
    { rewrite <- (append_nil_r "/") at 1. apply Split_last.
      intros a b. destruct a; rewrite ?append_nil_l, ?append_cons; done. }
    apply NewMigration_name. by rewrite Hs0.
Qed.

Lemma new_migration_last_element_witness :
  NewMigration Sim.working "migrate/v1" = Returns (inl (MigrationBadName "v1")) /\
  NewMigration Sim.working "migrate/version_1/"
  = Returns (inl (MigrationBadName EmptyString)).
Proof.
  destruct (new_migration_last_element Sim.working "migrate" "v1" (Split_no_slash "v1"))
    as (Herr & _ & _).
  destruct (new_migration_last_element Sim.working "migrate/version_1" "v1"
              (Split_no_slash "v1")) as (_ & _ & Hslash).
  split; [exact (Herr _ eq_refl)|exact Hslash].
Defined.

(** ** The older NewMigration *)



(** ** The directories NewInstance loads *)

Lemma discover_cons fs root directory rest migs :
  discover fs root (directory :: rest) migs
  = if entry_IsDir directory then
      match NewMigration fs (Join fs root (entry_Name directory)) with
      | Panics p => Panics p
      | Returns (inl err) => Returns (inl err)
      | Returns (inr migration) =>
        discover fs root rest (<[Version migration := migration]> migs)
      end
    else discover fs root rest migs.
Proof. simpl. by destruct (entry_IsDir directory). Qed.

Lemma filter_dir_cons directory rest :
  List.filter entry_IsDir (directory :: rest)
  = if entry_IsDir directory then directory :: List.filter entry_IsDir rest
    else List.filter entry_IsDir rest.
Proof. done. Qed.

Lemma discover_spec fs root directories : forall migs,
  match discover fs root directories migs with
  | Returns (inr migs') =>
    exists ms, Forall2 (loads_to fs root) (List.filter entry_IsDir directories) ms /\
               migs' = file_all migs ms
  | Returns (inl err) =>
    exists pre d post ms,
      List.filter entry_IsDir directories = pre ++ d :: post /\
      Forall2 (loads_to fs root) pre ms /\
      NewMigration fs (Join fs root (entry_Name d)) = Returns (inl err)
  | Panics p =>
    exists pre d post ms,
      List.filter entry_IsDir directories = pre ++ d :: post /\
      Forall2 (loads_to fs root) pre ms /\
      NewMigration fs (Join fs root (entry_Name d)) = Panics p
  end.
Proof.
  induction directories as [|d rest IH]; intros migs.
  - simpl. exists []. split; [constructor|done].
  - rewrite discover_cons, filter_dir_cons.
    destruct (entry_IsDir d) eqn:Hd; [|apply IH].
    destruct (NewMigration fs (Join fs root (entry_Name d))) as [[err|m]|p] eqn:HN.
    + exists [], d, (List.filter entry_IsDir rest), []. by repeat split.
    + specialize (IH (<[Version m := m]> migs)).
      destruct (discover fs root rest (<[Version m := m]> migs)) as [[err|migs']|p].
      * destruct IH as (pre & d' & post & ms & Hfl & Hpre & Hf').
        exists (d :: pre), d', post, (m :: ms). rewrite Hfl.
        split; [done|]. split; [by constructor|done].
      * destruct IH as (ms & Hms & ->). exists (m :: ms). split; [by constructor|done].
      * destruct IH as (pre & d' & post & ms & Hfl & Hpre & Hf').
        exists (d :: pre), d', post, (m :: ms). rewrite Hfl.
        split; [done|]. split; [by constructor|done].
    + exists [], d, (List.filter entry_IsDir rest), []. by repeat split.
Qed.

Lemma discover_ok fs root directories : forall migs ms,
  Forall2 (loads_to fs root) (List.filter entry_IsDir directories) ms ->
  discover fs root directories migs = Returns (inr (file_all migs ms)).
Proof.
  induction directories as [|d rest IH]; intros migs ms H.
  - simpl in *. by apply Forall2_nil_inv_l in H as ->.
  - rewrite discover_cons. rewrite filter_dir_cons in H.
    destruct (entry_IsDir d); [|by apply IH].
    apply Forall2_cons_inv_l in H as (m & ms' & Hm & Hrest & ->).
    unfold loads_to in Hm. rewrite Hm. by rewrite (IH _ _ Hrest).
Qed.

Lemma discover_stops fs root directories : forall migs pre d post ms,
  List.filter entry_IsDir directories = pre ++ d :: post ->
  Forall2 (loads_to fs root) pre ms ->
  (forall err, NewMigration fs (Join fs root (entry_Name d)) = Returns (inl err) ->
     discover fs root directories migs = Returns (inl err)) /\
  (forall p, NewMigration fs (Join fs root (entry_Name d)) = Panics p ->
     discover fs root directories migs = Panics p).
Proof.
  induction directories as [|d0 rest IH]; intros migs pre d post ms Hfl Hpre.
  - simpl in Hfl. by destruct pre.
  - rewrite discover_cons. rewrite filter_dir_cons in Hfl.
    destruct (entry_IsDir d0); [|by eapply IH].
    destruct pre as [|f0 pre]; simpl in Hfl; injection Hfl as <- Hfl.
    + split; intros ? ->; done.
    + apply Forall2_cons_inv_l in Hpre as (m & ms' & Hm & Hrest & ->).
      unfold loads_to in Hm. rewrite Hm. by eapply IH.
Qed.

Lemma with_version_cons v m ms :
  with_version v (m :: ms)
  = if Version m =? v then m :: with_version v ms else with_version v ms.
Proof. done. Qed.

(** Of the migrations filed under one version the last one stays. *)
Lemma file_all_lookup ms : forall migs v,
  file_all migs ms !! v
  = match last (with_version v ms) with
    | Some m => Some m
    | None => migs !! v
    end.
Proof.
  induction ms as [|m ms IH]; intros migs v; [done|].
  unfold file_all in *. cbn [foldl]. rewrite IH, with_version_cons.
  destruct (Z.eqb_spec (Version m) v) as [->|Hne].
  - rewrite lookup_insert_eq.
    rewrite (last_cons m). by destruct (last (with_version v ms)).
  - by rewrite lookup_insert_ne.
Qed.

Lemma loaded_migration fs root directories ms m :
  Forall2 (loads_to fs root) directories ms -> m ∈ ms ->
  exists d, d ∈ directories /\ loads_to fs root d m.
Proof.
  intros H [i Hi]%list_elem_of_lookup.
  destruct (Forall2_lookup_r _ _ _ _ _ H Hi) as (d & Hd & Hl).
  exists d. split; [|done]. by eapply list_elem_of_lookup_2.
Qed.

(** X21. An instance NewInstance returns. Its versions are exactly 1, ..., n
    for the number n of its migrations, which is at least 1; the migration
    under a version k has that version, a name "version_" followed by a
    literal of value k, and at least one part, each with bodies that are not
    empty. Every sub-directory of the root was loaded by NewMigration (plain
    files are skipped), and under each version the instance holds the
    migration of the last directory, in listing order, that carries this
    version: an earlier directory with the same version is dropped without a
    word. The database handle has gone through metadb's NewInstance and
    nothing else. *)
Theorem new_instance_result {DB Tx} (drv : Driver DB Tx) (fs : Filesystem)
    (db st' : option DB) (root : string) (inst : Instance) :
  NewInstance drv fs db root = (st', Returns (inr inst)) ->
  let n := Z.of_nat (size (migrations inst)) in
  1 <= n /\
  (forall k, is_Some (migrations inst !! k) <-> 1 <= k <= n) /\
  (forall k m, migrations inst !! k = Some m ->
     Version m = k /\
     (exists lit, Migration_Name m = "version_" +:+ lit /\ literal_value lit = Some k) /\
     Parts m <> [] /\
     Forall (fun p => Up p <> EmptyString /\ Down p <> EmptyString) (Parts m)) /\
  exists st directories ms,
    db = Some st /\ st' = Some (meta_New drv st).1 /\
    fs_ReadDir fs root = inr directories /\
    Forall2 (fun d m => NewMigration fs (Join fs root (entry_Name d)) = Returns (inr m))
      (List.filter entry_IsDir directories) ms /\
    forall v, migrations inst !! v = last (with_version v ms).
Proof.
  intros HN n.
  destruct (instance_range _ _ _ _ _ _ HN) as (Hn1 & _ & Hin & Hver).
  destruct (NewInstance_inv _ _ _ _ _ _ HN)
    as (st & st1 & dirs & -> & Hmeta & -> & Hread & Hdisc & _ & _).
  pose proof (discover_spec fs root dirs ∅) as Hspec. rewrite Hdisc in Hspec.
  destruct Hspec as (ms & Hms & Hall).
  assert (Hlook : forall v, migrations inst !! v = last (with_version v ms)).
  { intros v. rewrite Hall, file_all_lookup, lookup_empty.
    by destruct (last (with_version v ms)). }
  split; [done|]. split; [done|]. split.
  - intros k m Hk. split; [by apply Hver|].
    assert (Hm : m ∈ ms).
    { rewrite Hlook in Hk. apply last_Some_elem_of in Hk.
      apply list_elem_of_In, filter_In in Hk as [Hk _]. by apply list_elem_of_In. }
    destruct (loaded_migration _ _ _ _ _ Hms Hm) as (d & _ & Hd).
    destruct (NewMigration_inv _ _ _ Hd) as (Hname & _ & Hv & files & _ & Hparts & Hne).
    apply parse_version_accepts in Hv as (lit & Hlit & Hval & _ & _).
    rewrite (Hver _ _ Hk) in Hval. split; [|split; [done|by eapply parts_nonempty]].
    exists lit. by rewrite Hname.
  - exists st, dirs, ms. rewrite Hmeta. done.
Qed.

Lemma new_instance_result_witness :
  exists inst m,
    NewInstance Sim.good_driver SimDup.duplicate (Some Sim.empty_db) "migrate"
    = (Some Sim.empty_db, Returns (inr inst)) /\
    size (migrations inst) = 1%nat /\
    migrations inst !! 1 = Some m /\
    Migration_Name m = "version_1" /\ map Up (Parts m) = ["UB"].
Proof.
  set (inst := match NewInstance Sim.good_driver SimDup.duplicate (Some Sim.empty_db)
                       "migrate" with
               | (_, Returns (inr i)) => i
               | _ => {| migrations := ∅ |}
               end).
  assert (HN : NewInstance Sim.good_driver SimDup.duplicate (Some Sim.empty_db) "migrate"
               = (Some Sim.empty_db, Returns (inr inst)))
    by (vm_compute; reflexivity).
  destruct (new_instance_result Sim.good_driver SimDup.duplicate (Some Sim.empty_db)
              (Some Sim.empty_db) "migrate" inst HN) as (_ & Hin & _).
  destruct (proj2 (Hin 1)) as [m Hm].
  { assert (Hsize : size (migrations inst) = 1%nat) by (vm_compute; reflexivity).
    rewrite Hsize. lia. }
  exists inst, m. split; [exact HN|]. split; [vm_compute; reflexivity|].
  split; [exact Hm|].
  assert (Hc : migrations inst !! 1
               = Some (match migrations inst !! 1 with
                       | Some m => m
                       | None => Sim.migration 0 []
                       end)) by (vm_compute; reflexivity).
  rewrite Hc in Hm. injection Hm as <-. split; vm_compute; reflexivity.
Defined.

(** X22. How NewInstance fails. A nil handle is refused before anything is
    touched. Otherwise the handle goes through metadb's NewInstance, whose
    error is wrapped; then an error of ReadDir is returned as it is; a root
    without any sub-directory (empty, or holding plain files only) gives the
    no-migrations error; and the first sub-directory, in listing order, that
    NewMigration does not accept ends the call with NewMigration's error (or
    panic): a stray directory that is no migration makes the whole root
    unusable. *)
Theorem new_instance_failures {DB Tx} (drv : Driver DB Tx) (fs : Filesystem)
    (root : string) :
  NewInstance drv fs None root = (None, Returns (inl InstanceNilDB)) /\
  forall st,
    match (meta_New drv st).2 with
    | Some err =>
      NewInstance drv fs (Some st) root
      = (Some (meta_New drv st).1, Returns (inl (InstanceMetadb err)))
    | None =>
      match fs_ReadDir fs root with
      | inl err =>
        NewInstance drv fs (Some st) root = (Some (meta_New drv st).1, Returns (inl err))
      | inr directories =>
        (List.filter entry_IsDir directories = [] ->
         NewInstance drv fs (Some st) root
         = (Some (meta_New drv st).1, Returns (inl (InstanceNoMigrations root)))) /\
        (forall pre d post ms,
           List.filter entry_IsDir directories = pre ++ d :: post ->
           Forall2 (loads_to fs root) pre ms ->
           (forall err,
              NewMigration fs (Join fs root (entry_Name d)) = Returns (inl err) ->
              NewInstance drv fs (Some st) root
              = (Some (meta_New drv st).1, Returns (inl err))) /\
           (forall p,
              NewMigration fs (Join fs root (entry_Name d)) = Panics p ->
              NewInstance drv fs (Some st) root = (Some (meta_New drv st).1, Panics p)))
      end
    end.
Proof.
  split; [done|]. intros st. unfold NewInstance.
  destruct (meta_New drv st) as [st1 [err|]]; simpl; [done|].
  destruct (fs_ReadDir fs root) as [err|dirs]; [done|]. split.
  - intros Hnil. rewrite (discover_ok fs root dirs ∅ []); [done|].
    rewrite Hnil. constructor.
  - intros pre d post ms Hfl Hpre.
    destruct (discover_stops fs root dirs ∅ pre d post ms Hfl Hpre) as [Herr Hpanic].
    split.
    + intros err HN. by rewrite (Herr _ HN).
    + intros p HN. by rewrite (Hpanic _ HN).
Qed.

(** ** All or nothing *)

Lemma planned_run_atomic {DB Tx} (drv : Driver DB Tx) origin direction todo version
    currentVersion jump w w' r :
  Transactional drv origin ->
  planned_run drv direction todo version currentVersion jump w w' r ->
  state w' = state w
  \/ r = Returns None
  \/ exists err, r = Returns (Some (GotoSetVersion err)).
Proof.
  intros HT. unfold planned_run.
  destruct (db_Begin drv (state w)) as [err|tx] eqn:Hbegin.
  { intros [_ ->]. by left. }
  intros [(_ & tail & db & -> & Hr)|(_ & pre & m & post & _ & _ & _ & ->)].
  - destruct (tx_Commit drv _) as [db1 [cerr|]] eqn:Hcommit; simpl in *.
    + destruct Hr as (_ & _ & ->). left.
      rewrite (origin_commit_failed drv origin HT _ _ _ Hcommit).
      rewrite origin_part_results by done. by apply (origin_begin drv origin HT).
    + destruct Hr as [_ Hr]. right.
      destruct (meta_Set drv db1 "migrateVersion" version).2 as [serr|];
        destruct Hr as [-> _]; eauto.
  - left. simpl. rewrite (origin_rollback drv origin HT).
    rewrite !origin_part_results by done. by apply (origin_begin drv origin HT).
Qed.

(** X23. On a database whose transactions restore the state they began from
    when they are rolled back or fail to commit, a call of Goto or Latest that
    returns an error has left the database as it was, with the one exception
    of the error of the ledger Set, which comes after the Commit. The same
    holds when the call panics. *)
Theorem failed_call_changes_nothing {DB Tx} (drv : Driver DB Tx) (origin : Tx -> DB)
    (fuel : nat) (inst : Instance) (w w' : World DB) (r : outcome (option error)) :
  Transactional drv origin ->
  r <> Returns None ->
  (forall err, r <> Returns (Some (GotoSetVersion err))) ->
  (forall version, Goto drv fuel inst version w = Some (w', r) -> state w' = state w) /\
  (Latest drv fuel inst w = Some (w', r) -> state w' = state w).
Proof.
  intros HT Hnil Hset.
  assert (HGoto : forall version,
            Goto drv fuel inst version w = Some (w', r) -> state w' = state w).
  { intros version HG.
    destruct (Goto_inv_planned drv _ _ _ _ _ _ HG)
      as [[-> _]|(cur & _ & [[-> _]|(todo & direction & jump & _ & Hrun)])];
      [done|done|].
    destruct (planned_run_atomic _ _ _ _ _ _ _ _ _ _ HT Hrun) as [?|[?|[err ?]]];
      [done|done|]. by destruct (Hset err). }
  split; [done|]. unfold Latest. intros HL.
  destruct (Version_of drv (state w)) as [cur|p]; [|by simplify_eq].
  destruct (latest_version inst <=? cur); [by simplify_eq|]. by eapply HGoto.
Qed.

Lemma failed_call_changes_nothing_witness :
  exists w',
    Latest (Sim.driver (String.eqb "U3") None None None) 4 Sim.inst3
      (Sim.world Sim.empty_db)
    = Some (w', Returns (Some GotoApplying)) /\
    statements (new_calls (Sim.world Sim.empty_db) w') = ["U1"; "U2a"; "U2b"; "U3"] /\
    state w' = Sim.empty_db.
Proof.
  set (drv := Sim.driver (String.eqb "U3") None None None).
  set (w := Sim.world Sim.empty_db).
  set (w' := match Latest drv 4 Sim.inst3 w with
             | Some (w', _) => w'
             | None => w
             end).
  assert (HL : Latest drv 4 Sim.inst3 w = Some (w', Returns (Some GotoApplying)))
    by (vm_compute; reflexivity).
  destruct (failed_call_changes_nothing drv Sim.base 4 Sim.inst3 w w'
              (Returns (Some GotoApplying)) (sim_transactional _ _ _ _))
    as [_ H]; [done|done|].
  exists w'. split; [exact HL|]. split; [vm_compute; reflexivity|exact (H HL)].
Defined.

(** ** Layout of a part file *)

Lemma length_drop k : forall s,
  String.length (GoString.drop k s) = (String.length s - k)%nat.
Proof.
  induction k as [|k IH]; intros s; simpl; [lia|].
  destruct s as [|c s]; simpl; [done|]. apply IH.
Qed.

Lemma drop_append k : forall s t,
  (k <= String.length s)%nat ->
  GoString.drop k (s +:+ t) = GoString.drop k s +:+ t.
Proof.
  induction k as [|k IH]; intros s t Hk; simpl; [done|].
  destruct s as [|c s]; simpl in *; [lia|]. rewrite ?append_cons. apply IH. lia.
Qed.

(** More fuel than bytes changes nothing. *)
Lemma trim_with_fuel rune_len :
  rune_len EmptyString = O ->
  forall fuel s, (String.length s <= fuel)%nat ->
    GoString.trim_with rune_len fuel s
    = GoString.trim_with rune_len (String.length s) s.
Proof.
  intros Hnil fuel. induction fuel as [fuel IH] using lt_wf_ind. intros s Hlen.
  destruct s as [|c s].
  { destruct fuel; simpl; [done|]. by rewrite Hnil. }
  destruct fuel as [|fuel]; simpl in *; [lia|].
  destruct (rune_len (String c s)) as [|k]; [done|]. simpl.
  pose proof (length_drop k s) as Hd.
  rewrite (IH fuel) by lia. symmetry. apply (IH (String.length s)); lia.
Qed.

Lemma trim_with_blank rune_len pad : forall s,
  rune_len EmptyString = O ->
  (forall c r, GoString.asciiSpace c = true -> rune_len (String c r) = 1%nat) ->
  ascii_blank pad = true ->
  GoString.trim_with rune_len (String.length (pad +:+ s)) (pad +:+ s)
  = GoString.trim_with rune_len (String.length s) s.
Proof.
  intros s Hnil Hone. induction pad as [|c pad IH]; intros Hpad.
  - by rewrite append_nil_l.
  - simpl in Hpad. apply andb_true_iff in Hpad as [Hc Hpad].
    rewrite append_cons. simpl. rewrite (Hone _ _ Hc). simpl. by apply IH.
Qed.

Lemma rev_append_app s : forall acc,
  GoString.rev_append s acc = GoString.rev_append s EmptyString +:+ acc.
Proof.
  induction s as [|c s IH]; intros acc; simpl; [done|].
  rewrite IH, (IH (String c EmptyString)), append_assoc. done.
Qed.

Lemma rev_cons c s : GoString.rev (String c s) = GoString.rev s +:+ String c EmptyString.
Proof. unfold GoString.rev. simpl. apply rev_append_app. Qed.

Lemma rev_app s t : GoString.rev (s +:+ t) = GoString.rev t +:+ GoString.rev s.
Proof.
  induction s as [|c s IH].
  - rewrite append_nil_l. change (GoString.rev "") with EmptyString.
    by rewrite append_nil_r.
  - by rewrite append_cons, !rev_cons, IH, append_assoc.
Qed.

Lemma length_rev s : String.length (GoString.rev s) = String.length s.
Proof.
  induction s as [|c s IH]; [done|]. rewrite rev_cons, length_append, IH. simpl. lia.
Qed.

Lemma ascii_blank_app s t : ascii_blank (s +:+ t) = ascii_blank s && ascii_blank t.
Proof.
  induction s as [|c s IH]; [done|]. rewrite append_cons. simpl.
  by rewrite IH, andb_assoc.
Qed.

Lemma ascii_blank_rev s : ascii_blank (GoString.rev s) = ascii_blank s.
Proof.
  induction s as [|c s IH]; [done|]. rewrite rev_cons, ascii_blank_app, IH. simpl.
  rewrite andb_true_r. apply andb_comm.
Qed.

Lemma space_rune_len_nil : GoString.space_rune_len EmptyString = O.
Proof. done. Qed.

Lemma space_rune_len_rev_nil : GoString.space_rune_len_rev EmptyString = O.
Proof. done. Qed.

Lemma space_rune_len_blank c r :
  GoString.asciiSpace c = true -> GoString.space_rune_len (String c r) = 1%nat.
Proof. intros H. simpl. by rewrite H. Qed.

Lemma space_rune_len_rev_blank c r :
  GoString.asciiSpace c = true -> GoString.space_rune_len_rev (String c r) = 1%nat.
Proof. intros H. simpl. by rewrite H. Qed.

(** White space in front of a string is trimmed away. *)
Lemma TrimLeftSpace_blank pad s :
  ascii_blank pad = true ->
  GoString.TrimLeftSpace (pad +:+ s) = GoString.TrimLeftSpace s.
Proof.
  intros H. unfold GoString.TrimLeftSpace.
  apply trim_with_blank; auto using space_rune_len_nil, space_rune_len_blank.
Qed.

(** And so is white space behind it. *)
Lemma TrimRightSpace_blank s pad :
  ascii_blank pad = true ->
  GoString.TrimRightSpace (s +:+ pad) = GoString.TrimRightSpace s.
Proof.
  intros H. unfold GoString.TrimRightSpace. f_equal.
  rewrite rev_app, <- (length_rev (s +:+ pad)), rev_app, <- (length_rev s).
  apply trim_with_blank; auto using space_rune_len_rev_nil, space_rune_len_rev_blank.
  by rewrite ascii_blank_rev.
Qed.

Lemma blank_small p : GoString.asciiSpace p = true -> (N_of_ascii p <= 32)%N.
Proof.
  unfold GoString.asciiSpace. intros [H|H]%orb_true_iff.
  - apply andb_true_iff in H as [_ H]. apply N.leb_le in H. lia.
  - apply N.eqb_eq in H. lia.
Qed.

Lemma space_rune_len_app s t :
  s <> EmptyString -> ascii_blank t = true ->
  GoString.space_rune_len (s +:+ t) = GoString.space_rune_len s.
Proof.
  intros Hs Ht. destruct s as [|c s1]; [done|]. rewrite append_cons.
  unfold GoString.space_rune_len. destruct (GoString.asciiSpace c); [done|].
  assert (Hfacts : forall p, GoString.asciiSpace p = true ->
            (forall n, (32 < n)%N -> (N_of_ascii p =? n)%N = false) /\
            (128 <=? N_of_ascii p)%N = false).
  { intros p Hp. pose proof (blank_small p Hp).
    split; [intros; apply N.eqb_neq|apply N.leb_gt]; lia. }
  destruct c as [[] [] [] [] [] [] [] []]; try reflexivity.
  all: match goal with
       | |- context [N_of_ascii (Ascii ?a ?b ?c ?d ?e ?f ?g ?h)] =>
         let v := eval vm_compute in (N_of_ascii (Ascii a b c d e f g h)) in
         change (N_of_ascii (Ascii a b c d e f g h)) with v
       end; cbv beta iota.
  all: destruct s1 as [|d [|e s1']]; destruct t as [|p [|q t']];
       rewrite ?append_cons, ?append_nil_l, ?append_nil_r; try reflexivity.
  all: simpl in Ht;
       repeat match goal with
              | H : _ && _ = true |- _ => apply andb_true_iff in H as [? ?]
              end;
       repeat match goal with
              | H : GoString.asciiSpace ?p = true |- _ =>
                destruct (Hfacts p H) as [? ?]; clear H
              end.
  all: cbv beta iota; unfold GoString.byte_is;
       repeat match goal with
              | H : (128 <=? N_of_ascii ?p)%N = false |- _ => rewrite H; clear H
              end;
       repeat match goal with
              | Hb : forall n, _ -> N.eqb (N_of_ascii ?p) n = false
                |- context [N.eqb (N_of_ascii ?p) ?n] => rewrite (Hb n) by lia
              end;
       simpl; rewrite ?andb_false_r; reflexivity.
Qed.

Lemma space_rune_len_le s : (GoString.space_rune_len s <= String.length s)%nat.
Proof.
  destruct s as [|c s1]; [done|]. unfold GoString.space_rune_len.
  destruct (GoString.asciiSpace c); [simpl; lia|].
  destruct c as [[] [] [] [] [] [] [] []]; try (simpl; lia).
  all: match goal with
       | |- context [N_of_ascii (Ascii ?a ?b ?c ?d ?e ?f ?g ?h)] =>
         let v := eval vm_compute in (N_of_ascii (Ascii a b c d e f g h)) in
         change (N_of_ascii (Ascii a b c d e f g h)) with v
       end; cbv beta iota.
  all: destruct s1 as [|d [|e s1']]; try (simpl; lia).
  all: repeat match goal with
              | |- context [if ?b then _ else _] => destruct b
              end; simpl; lia.
Qed.

(** White space behind a string does not stop the trimming of its front. *)
Lemma TrimLeftSpace_app_blank pad : forall s,
  ascii_blank pad = true ->
  GoString.TrimLeftSpace (s +:+ pad)
  = if decide (GoString.TrimLeftSpace s = EmptyString) then EmptyString
    else GoString.TrimLeftSpace s +:+ pad.
Proof.
  intros s Hpad. remember (String.length s) as n eqn:Hn.
  revert s Hn. induction n as [n IH] using lt_wf_ind. intros s Hn.
  destruct s as [|c s1].
  { rewrite append_nil_l. rewrite <- (append_nil_r pad) at 1.
    rewrite TrimLeftSpace_blank by done. done. }
  unfold GoString.TrimLeftSpace in *.
  rewrite length_append. simpl String.length. cbn [GoString.trim_with Nat.add].
  rewrite space_rune_len_app by done.
  pose proof (space_rune_len_le (String c s1)) as Hle.
  destruct (GoString.space_rune_len (String c s1)) as [|k] eqn:Hk.
  - rewrite decide_False by done. done.
  - simpl in Hle, Hn.
    rewrite drop_append by (simpl; lia).
    change (GoString.drop (S k) (String c s1)) with (GoString.drop k s1).
    pose proof (length_drop k s1) as Hd.
    rewrite (trim_with_fuel _ space_rune_len_nil _ (GoString.drop k s1 +:+ pad))
      by (rewrite length_append; lia).
    rewrite (trim_with_fuel _ space_rune_len_nil (String.length s1)
               (GoString.drop k s1)) by lia.
    apply (IH (String.length (GoString.drop k s1))); [lia|done].
Qed.

(** ASCII white space around a line is trimmed away. *)
Lemma TrimSpace_blank pad line pad' :
  ascii_blank pad = true -> ascii_blank pad' = true ->
  GoString.TrimSpace (pad +:+ line +:+ pad') = GoString.TrimSpace line.
Proof.
  intros Hpad Hpad'. unfold GoString.TrimSpace.
  rewrite TrimLeftSpace_blank by done.
  rewrite TrimLeftSpace_app_blank by done.
  destruct (decide (GoString.TrimLeftSpace line = EmptyString)) as [->|_]; [done|].
  by apply TrimRightSpace_blank.
Qed.

Lemma scan_step_text path st line :
  scan_step path st line = text_step path st (GoString.TrimSpace line).
Proof. done. Qed.

Lemma text_step_empty path st : text_step path st EmptyString = inr st.
Proof. done. Qed.

Lemma scan_loop_significant path lines : forall st,
  scan_loop path lines st = text_loop path (significant lines) st.
Proof.
  induction lines as [|line rest IH]; intros st; [done|].
  unfold significant in *. simpl. rewrite scan_step_text.
  destruct (String.eqb_spec (GoString.TrimSpace line) "") as [->|Hne]; simpl.
  - apply IH.
  - destruct (text_step path st (GoString.TrimSpace line)); [done|apply IH].
Qed.

(** X24. The layout of a part file does not matter. ASCII white space before
    and after a line (indentation, trailing blanks, the CR of a CRLF line end)
    is not seen by the scan loop; a line that is empty once trimmed leaves the
    state of the loop as it is; and two files whose lines, trimmed and without
    the empty ones, are the same, and whose scanners end alike, parse to the
    same result. *)
Theorem part_layout (path : string) :
  (forall pad line pad' st,
     ascii_blank pad = true -> ascii_blank pad' = true ->
     GoString.TrimSpace (pad +:+ line +:+ pad') = GoString.TrimSpace line /\
     scan_step path st (pad +:+ line +:+ pad') = scan_step path st line) /\
  (forall line st, GoString.TrimSpace line = EmptyString ->
     scan_step path st line = inr st) /\
  (forall lines lines' st, significant lines = significant lines' ->
     scan_loop path lines st = scan_loop path lines' st) /\
  (forall f g,
     significant (Scanner.scan f).1 = significant (Scanner.scan g).1 ->
     (Scanner.scan f).2 = (Scanner.scan g).2 ->
     parse_part path f = parse_part path g) /\
  (forall line st,
     scan_step path st (Scanner.dropCR line) = scan_step path st line /\
     scan_step path st (line +:+ String (ascii_of_nat 13) EmptyString)
     = scan_step path st line).
Proof.
  assert (Hcr : forall line,
            GoString.TrimSpace (line +:+ String (ascii_of_nat 13) EmptyString)
            = GoString.TrimSpace line).
  { intros line.
    pose proof (TrimSpace_blank EmptyString line (String (ascii_of_nat 13) EmptyString)
                  eq_refl eq_refl) as H.
    by rewrite append_nil_l in H. }
  split; [|split; [|split; [|split]]].
  - intros pad line pad' st Hpad Hpad'.
    pose proof (TrimSpace_blank pad line pad' Hpad Hpad') as Ht. split; [done|].
    by rewrite !scan_step_text, Ht.
  - intros line st Ht. by rewrite scan_step_text, Ht.
  - intros lines lines' st Hs. by rewrite !scan_loop_significant, Hs.
  - intros f g Hs He. unfold parse_part.
    destruct (Scanner.scan f) as [lf ef], (Scanner.scan g) as [lg eg]. simpl in *.
    subst eg. by rewrite !scan_loop_significant, Hs.
  - intros line st. split; [|by rewrite !scan_step_text, Hcr].
    unfold Scanner.dropCR.
    destruct (GoString.rev line) as [|c r] eqn:Hrev; [done|].
    destruct (GoString.byte_is 13 c) eqn:Hc; [|done].
    assert (Hl : line = GoString.rev (String c r)).
    { rewrite <- Hrev. clear. induction line as [|a l IH]; [done|].
      rewrite rev_cons, rev_app, <- IH. done. }
    unfold GoString.byte_is in Hc. apply N.eqb_eq in Hc.
    assert (Hc13 : c = ascii_of_nat 13) by (rewrite <- (ascii_N_embedding c), Hc; done).
    rewrite Hl, rev_cons, Hc13, !scan_step_text, Hcr. done.
Qed.
